(** * Nominaciones Home Office: the voting and scheduling rules of [src/App.tsx]

    A shallow embedding of the computational core of the single-file
    prototype: [sanitizeText], [getScheduleStatus], [randomInt],
    [findGerenteId], [computeResults] and [isValidSchedule], and of the
    functions of the page around it: [classNames], [generateId],
    [getInitials], the voting boards ([swapSlots], [handleDropSlot],
    [removeVote], [voteCandidate], [swapCandidates] and the ballots built
    from the boards) and the schedule of a winner ([nextDays], [toggleDay],
    [validateSchedule]).

    Conventions of the embedding.
    - A TypeScript [string] is a [string]; the source only compares strings
      for equality and replaces ASCII characters, which reads the same on
      UTF-8 bytes as on UTF-16 code units.  [getInitials] alone reads single
      code units, and is embedded over lists of code units.
    - A TypeScript [number] that holds a count, an index or a number of
      milliseconds is a [Z]; [NaN], which only a [Date] built from a string
      that is not a date produces, is [None] in an [option Z].
    - The objects [counts] and [daysPerCandidate] are declared
      [Record<string, number>]; they are embedded as ordered association
      lists of their own properties, in creation order.  Of the members
      inherited from [Object.prototype] the accessor [__proto__] is part of
      the embedding: assigning a number to it stores nothing ([JS.assign]).
      A candidate id that names an inherited function ([constructor],
      [toString], [valueOf], ...; [inheritedMethods]) turns its tally into
      a string; the rows then hold values outside their declared type
      [number], which the embedding does not represent: it counts such an id
      like any other.  The statements about tallies and about the order of
      the rows assume that no pick is such a name.
    - Arrays that the caller owns ([votes], [users], [nominations]) live in a
      heap and are passed by reference, since [GERENTE_CACHE] is keyed by the
      identity of the roster array.  Arrays created inside a function are
      plain lists.
    - The state of the page that a handler updates ([boards],
      [scheduleByCandidate], the counter of [generateId]) is passed in and
      out of the embedded handler.  A place of a board array is an
      [option string], [None] being [undefined] or a hole.  [boards] is
      keyed by the ids of the roster, none of which names a member of
      [Object.prototype]. *)

From Stdlib Require Import ZArith NArith String Ascii List Lia Permutation Sorted.
From Stdlib Require Import DecimalString DecimalN.
From stdpp Require Import base option list gmap strings sorting.

Local Open Scope Z_scope.

(** ** Data model *)

Inductive Role := Integrante | Jefatura | Gerente | Admin | Asistente.

Inductive Team := Desarrollo | Operaciones | Analitica | PO | GTI.

Module User.
Record t := mk
  { id : string; name : string; role : Role; title : string; team : Team;
    photo : option string }.
End User.

Module Nomination.
Record t := mk
  { id : string; candidateId : string; projectId : string; reason : string;
    nominatedByUserId : string }.
End Nomination.

Module Vote.
Record t := mk { voterId : string; picks : list string }.
End Vote.

Module ResultRow.
Record t := mk { candidateId : string; votes : Z; days : Z }.
End ResultRow.

Definition Role_eqb (a b : Role) : bool :=
  match a, b with
  | Integrante, Integrante | Jefatura, Jefatura | Gerente, Gerente
  | Admin, Admin | Asistente, Asistente => true
  | _, _ => false
  end.

(** ** The JavaScript operations the source relies on *)

Module JS.

(** [x || 0] on a number that may be [undefined]. *)
Definition orZero (x : option Z) : Z :=
  match x with
  | Some v => if v =? 0 then 0 else v
  | None => 0
  end.

(** A property key is an array index when it is the canonical decimal
    form of an integer below [2^32 - 1]. *)
Definition digit (c : ascii) : option N :=
  let n := N_of_ascii c in
  if ((48 <=? n) && (n <=? 57))%N then Some (n - 48)%N else None.

Fixpoint digits (s : string) (acc : N) : option N :=
  match s with
  | EmptyString => Some acc
  | String c s' =>
      match digit c with
      | Some d => digits s' (10 * acc + d)%N
      | None => None
      end
  end.

Definition arrayIndex (s : string) : option N :=
  match s with
  | EmptyString => None
  | String c EmptyString => digit c
  | String c _ =>
      if Ascii.eqb c "0" then None
      else match digits s 0 with
           | Some n => if (n <? 2 ^ 32 - 1)%N then Some n else None
           | None => None
           end
  end.

Definition isArrayIndex (s : string) : bool :=
  match arrayIndex s with Some _ => true | None => false end.

(** An object of type [Record<string, number>]: its own properties in
    creation order. *)
Definition Obj := list (string * Z).

(** [o[k]] *)
Fixpoint get (o : Obj) (k : string) : option Z :=
  match o with
  | [] => None
  | (k', v) :: o' => if String.eqb k' k then Some v else get o' k
  end.

(** [o[k] = v]: an existing property keeps its place, a new one is
    created last. *)
Fixpoint set (o : Obj) (k : string) (v : Z) : Obj :=
  match o with
  | [] => [(k, v)]
  | (k', v') :: o' =>
      if String.eqb k' k then (k', v) :: o' else (k', v') :: set o' k v
  end.

(** [o[k] = v] for a number [v].  The key [__proto__] is not an own
    property but the accessor inherited from [Object.prototype], and its
    setter ignores a value that is not an object: nothing is stored. *)
Definition assign (o : Obj) (k : string) (v : Z) : Obj :=
  if String.eqb k "__proto__" then o else set o k v.

(** [o[k]] for an own key [k] of [o], as in [Object.keys(o).map(k => o[k])];
    the second branch is never taken there. *)
Definition read (o : Obj) (k : string) : Z :=
  match get o k with Some v => v | None => 0 end.

(** [Array.prototype.sort(cmp)]: the sort is stable, and [a] stays ahead
    of [b] unless [cmp(a, b) > 0]. *)
Fixpoint insertBy {A} (cmp : A -> A -> Z) (x : A) (l : list A) : list A :=
  match l with
  | [] => [x]
  | y :: l' => if cmp x y <=? 0 then x :: l else y :: insertBy cmp x l'
  end.

Definition sort {A} (cmp : A -> A -> Z) (l : list A) : list A :=
  foldr (insertBy cmp) [] l.

(** [Object.keys(o)]: the own keys that are array indices in ascending
    numeric order, then the other keys in creation order. *)
Definition indexOf (s : string) : Z :=
  match arrayIndex s with Some n => Z.of_N n | None => 0 end.

Definition ownKeyOrder (ks : list string) : list string :=
  sort (fun a b => indexOf a - indexOf b) (List.filter isArrayIndex ks)
    ++ List.filter (fun k => negb (isArrayIndex k)) ks.

Definition keys (o : Obj) : list string := ownKeyOrder (map fst o).

End JS.

Arguments JS.orZero : simpl never.

(** ** The world: caller-owned arrays, the module-level cache, entropy *)

Definition ref := positive.

Inductive Array :=
| UserArray (us : list User.t)
| VoteArray (vs : list Vote.t)
| NominationArray (ns : list Nomination.t).

(** [GERENTE_CACHE] is the [Map<User[], string | undefined>] of the module,
    keyed by the identity of the roster array.  [crypto] tells whether
    [crypto.getRandomValues] exists; [entropy] is the sequence of raw draws
    the platform will deliver and [drawn] counts those consumed so far. *)
Record World := mkWorld
  { heap : gmap ref Array;
    GERENTE_CACHE : gmap ref (option string);
    crypto : bool;
    entropy : nat -> N;
    drawn : nat }.

Definition setCache (c : gmap ref (option string)) (w : World) : World :=
  {| heap := heap w; GERENTE_CACHE := c; crypto := crypto w;
     entropy := entropy w; drawn := drawn w |}.

Definition consume (w : World) : World :=
  {| heap := heap w; GERENTE_CACHE := GERENTE_CACHE w; crypto := crypto w;
     entropy := entropy w; drawn := S (drawn w) |}.

(** Computations that read and update the world; [None] is a thrown
    [TypeError] (or a reference to no array, which a TypeScript caller cannot
    build). *)
Definition M (A : Type) : Type := World -> option (A * World).

Definition ret {A} (a : A) : M A := fun w => Some (a, w).

Definition bind {A B} (m : M A) (f : A -> M B) : M B :=
  fun w => match m w with
           | Some (a, w') => f a w'
           | None => None
           end.

Notation "'let*' x ':=' m 'in' k" := (bind m (fun x => k))
  (at level 10, x name, m at level 100, k at level 200).

Definition throw {A} : M A := fun _ => None.

Definition readUsers (r : ref) : M (list User.t) :=
  fun w => match heap w !! r with
           | Some (UserArray us) => Some (us, w)
           | _ => None
           end.

Definition readVotes (r : ref) : M (list Vote.t) :=
  fun w => match heap w !! r with
           | Some (VoteArray vs) => Some (vs, w)
           | _ => None
           end.

(** [xs.forEach(x => s = f(s, x))] for a body with effects. *)
Fixpoint forEachM {A S} (f : S -> A -> M S) (xs : list A) (s : S) : M S :=
  match xs with
  | [] => ret s
  | x :: xs' => let* s' := f s x in forEachM f xs' s'
  end.

(** ** [randomInt] *)

(** [crypto.getRandomValues] fills a [Uint32]; [Math.random()] is read as
    the fraction [m / 2^53] and the product is taken exactly, where the code
    rounds it to a [number] before [Math.floor]: at a product that rounds up
    to an integer the code is one above the embedding.  The first branch is
    the code on integers that a [number] holds exactly. *)
Definition nextInt (min max : Z) (w : World) : Z :=
  let raw := Z.of_N (entropy w (drawn w)) in
  if crypto w
  then min + Z.rem (raw mod 2 ^ 32) (max - min + 1)
  else (raw mod 2 ^ 53) * (max - min + 1) / 2 ^ 53 + min.

Definition randomInt (min max : Z) : M Z :=
  fun w => Some (nextInt min max w, consume w).

(** ** [findGerenteId] *)

Definition isGerente (u : User.t) : bool :=
  Role_eqb (User.role u) Gerente || String.eqb (User.title u) "CIO".

Definition findGerenteId (users : ref) : M (option string) :=
  fun w =>
    match GERENTE_CACHE w !! users with
    | Some cached => Some (cached, w)
    | None =>
        match readUsers users w with
        | Some (us, _) =>
            let gerenteId := User.id <$> List.find isGerente us in
            Some (gerenteId, setCache (<[users := gerenteId]> (GERENTE_CACHE w)) w)
        | None => None
        end
    end.

(** ** [computeResults] *)

Record Options := mkOptions
  { discardOneRandomVote : bool; enableGerenteBonus : bool }.

Record Results := mkResults
  { rows : list ResultRow.t; discardedVoterId : option string }.

(** [xs.filter((_, i) => p(i))] *)
Fixpoint filterIndex {A} (p : nat -> bool) (i : nat) (xs : list A) : list A :=
  match xs with
  | [] => []
  | x :: xs' =>
      if p i then x :: filterIndex p (S i) xs' else filterIndex p (S i) xs'
  end.

(** [xs.includes(x)] on strings *)
Definition includes (xs : list string) (x : string) : bool :=
  existsb (String.eqb x) xs.

(** The two nested [forEach] loops that fill [counts]. *)
Definition countPick (counts : JS.Obj) (cid : string) : JS.Obj :=
  JS.assign counts cid (JS.orZero (JS.get counts cid) + 1).

Definition tally (usedVotes : list Vote.t) : JS.Obj :=
  foldl (fun counts v => foldl countPick counts (Vote.picks v)) [] usedVotes.

Definition initialRows (counts : JS.Obj) : list ResultRow.t :=
  map (fun cid => ResultRow.mk cid (JS.read counts cid) 0)
      (JS.keys counts).

Definition byVotesDesc (a b : ResultRow.t) : Z :=
  ResultRow.votes b - ResultRow.votes a.

(** [gerenteId || null]: the empty string is falsy as well. *)
Definition resolveGerente (gerenteId : option string) : option string :=
  match gerenteId with
  | Some g => if String.eqb g "" then None else Some g
  | None => None
  end.

(** The [Set] built for one row of [top3]. *)
Definition uniqueVoters (usedVotes : list Vote.t) (cid : string) : gset string :=
  foldl (fun s v => if includes (Vote.picks v) cid then s ∪ {[Vote.voterId v]} else s)
        ∅ usedVotes.

Definition baseDays (usedVotes : list Vote.t) (gerenteIdResolved : option string)
    (cid : string) : Z :=
  let voters := uniqueVoters usedVotes cid in
  let hasGerente :=
    match gerenteIdResolved with
    | Some g => bool_decide (g ∈ voters)
    | None => false
    end in
  let n := Z.of_nat (size voters) in
  let days := 0 in
  let days := if 2 <=? n then 1 else days in
  let days := if (3 <=? n) && negb hasGerente then 2 else days in
  let days := if (3 <=? n) && hasGerente then 3 else days in
  days.

(** [daysPerCandidate] after the loop over [top3]. *)
Definition top3Days (usedVotes : list Vote.t) (gerenteIdResolved : option string)
    (top3 : list ResultRow.t) : JS.Obj :=
  foldl (fun d r => JS.assign d (ResultRow.candidateId r)
                      (baseDays usedVotes gerenteIdResolved (ResultRow.candidateId r)))
        [] top3.

Definition addBonus (daysPerCandidate : JS.Obj) (cid : string) : M JS.Obj :=
  let* bonus := randomInt 1 3 in
  ret (JS.assign daysPerCandidate cid
         (JS.orZero (JS.get daysPerCandidate cid) + bonus)).

Definition gerenteBonus (options : Options) (gerenteIdResolved : option string)
    (usedVotes : list Vote.t) (daysPerCandidate : JS.Obj) : M JS.Obj :=
  match enableGerenteBonus options, gerenteIdResolved with
  | true, Some g =>
      match List.find (fun v => String.eqb (Vote.voterId v) g) usedVotes with
      | Some gerenteVote => forEachM addBonus (Vote.picks gerenteVote) daysPerCandidate
      | None => ret daysPerCandidate
      end
  | _, _ => ret daysPerCandidate
  end.

Definition finalRows (rows : list ResultRow.t) (daysPerCandidate : JS.Obj)
    : list ResultRow.t :=
  imap (fun i r =>
          ResultRow.mk (ResultRow.candidateId r) (ResultRow.votes r)
            (if (i <? 3)%nat
             then JS.orZero (JS.get daysPerCandidate (ResultRow.candidateId r))
             else 0))
       rows.

(** The optional discard at the head of [computeResults]. *)
Definition discardStep (options : Options) (votes : list Vote.t)
    : M (list Vote.t * option string) :=
  if discardOneRandomVote options && (0 <? length votes)%nat then
    let* idx := randomInt 0 (Z.of_nat (length votes) - 1) in
    match votes !! Z.to_nat idx with
    | Some v =>
        ret (filterIndex (fun i => negb (Z.of_nat i =? idx)) 0 votes,
             Some (Vote.voterId v))
    | None => throw
    end
  else ret (votes, None).

(** Everything after the discard: tally, rows, day awards, bonus. *)
Definition rankAndAward (options : Options) (gerenteId : option string)
    (usedVotes : list Vote.t) : M (list ResultRow.t) :=
  let counts := tally usedVotes in
  let rows := initialRows counts in
  let rows := JS.sort byVotesDesc rows in
  let top3 := take 3 rows in
  let gerenteIdResolved := resolveGerente gerenteId in
  let daysPerCandidate := top3Days usedVotes gerenteIdResolved top3 in
  let* daysPerCandidate :=
    gerenteBonus options gerenteIdResolved usedVotes daysPerCandidate in
  ret (finalRows rows daysPerCandidate).

Definition computeResults (nominations votes users : ref) (options : Options)
    : M Results :=
  let* gerenteId := findGerenteId users in
  let* vs := readVotes votes in
  let* discard := discardStep options vs in
  let usedVotes := fst discard in
  let discardedVoterId := snd discard in
  let* rows := rankAndAward options gerenteId usedVotes in
  ret (mkResults rows discardedVoterId).

(** ** [sanitizeText] and [getScheduleStatus] *)

Definition HTML_ENTITIES (c : ascii) : option string :=
  if Ascii.eqb c "<" then Some "&lt;"%string
  else if Ascii.eqb c ">" then Some "&gt;"%string
  else if Ascii.eqb c "034" then Some "&quot;"%string
  else if Ascii.eqb c "'" then Some "&#x27;"%string
  else if Ascii.eqb c "&" then Some "&amp;"%string
  else None.

(** The characters matched by the pattern of [sanitizeText]. *)
Definition isHtmlSpecial (c : ascii) : bool :=
  Ascii.eqb c "<" || Ascii.eqb c ">" || Ascii.eqb c "034"
  || Ascii.eqb c "'" || Ascii.eqb c "&".

Fixpoint sanitizeText (text : string) : string :=
  match text with
  | EmptyString => EmptyString
  | String c rest =>
      let replaced :=
        if isHtmlSpecial c
        then match HTML_ENTITIES c with
             | Some e => e
             | None => String c EmptyString
             end
        else String c EmptyString in
      String.append replaced (sanitizeText rest)
  end.

Record Status := mkStatus { message : string; isError : bool }.

(** A string is truthy when it is not empty. *)
Definition truthy (s : string) : bool :=
  match s with EmptyString => false | String _ _ => true end.

Definition getScheduleStatus (selectedDays targetDays : Z) (error : string)
    : Status :=
  if truthy error then mkStatus (sanitizeText error) true
  else if selectedDays =? targetDays then mkStatus "Listo para programar" false
  else mkStatus "Selecciona las fechas requeridas" false.

(** ** Dates and [isValidSchedule] *)

Definition MS_PER_DAY : Z := 24 * 60 * 60 * 1000.

Definition digitZ (c : ascii) : option Z :=
  match JS.digit c with Some d => Some (Z.of_N d) | None => None end.

Definition number2 (a b : ascii) : option Z :=
  match digitZ a, digitZ b with
  | Some x, Some y => Some (10 * x + y)
  | _, _ => None
  end.

Definition number4 (a b c d : ascii) : option Z :=
  match number2 a b, number2 c d with
  | Some x, Some y => Some (100 * x + y)
  | _, _ => None
  end.

Definition isLeapYear (y : Z) : bool :=
  ((y mod 4 =? 0) && negb (y mod 100 =? 0)) || (y mod 400 =? 0).

Definition daysInMonth (y m : Z) : Z :=
  if m =? 2 then (if isLeapYear y then 29 else 28)
  else if (m =? 4) || (m =? 6) || (m =? 9) || (m =? 11) then 30
  else 31.

(** Days from 1970-01-01 to the given day of the proleptic Gregorian
    calendar, which is what [Date] counts. *)
Definition daysFromCivil (y m d : Z) : Z :=
  let y' := if m <=? 2 then y - 1 else y in
  let era := y' / 400 in
  let yoe := y' - era * 400 in
  let mp := if 2 <? m then m - 3 else m + 9 in
  let doy := (153 * mp + 2) / 5 + d - 1 in
  let doe := yoe * 365 + yoe / 4 - yoe / 100 + doy in
  era * 146097 + doe - 719468.

(** [new Date(s).getTime()] for [s] of the form [YYYY-MM-DDT00:00:00Z] that
    names a day of the calendar; any other string is read as an invalid
    date, whose time value is [NaN].  An engine may instead carry a day
    number past the end of its month over into the next month: the
    embedding is that of [Date] on the strings of [isCalendarDate]. *)
Definition Date_getTime (s : string) : option Z :=
  match s with
  | String y1 (String y2 (String y3 (String y4 (String dash1
      (String m1 (String m2 (String dash2 (String d1 (String d2 rest))))))))) =>
      if Ascii.eqb dash1 "-" && Ascii.eqb dash2 "-"
         && String.eqb rest "T00:00:00Z"
      then match number4 y1 y2 y3 y4, number2 m1 m2, number2 d1 d2 with
           | Some y, Some m, Some d =>
               if (1 <=? m) && (m <=? 12) && (1 <=? d) && (d <=? daysInMonth y m)
               then Some (daysFromCivil y m d * MS_PER_DAY)
               else None
           | _, _, _ => None
           end
      else None
  | _ => None
  end.

(** [getUTCDay]: 1970-01-01 was a Thursday. *)
Definition Date_getUTCDay (time : option Z) : option Z :=
  match time with
  | Some t => Some ((t / MS_PER_DAY + 4) mod 7)
  | None => None
  end.

Record DateInfo := mkDateInfo { timestamp : option Z; dayOfWeek : option Z }.

Record ScheduleCheck := mkCheck { ok : bool; reason : option string }.

(** [x === n] for a number [x] that may be [NaN]. *)
Definition strictEq (x : option Z) (n : Z) : bool :=
  match x with Some v => v =? n | None => false end.

Definition minus (a b : option Z) : option Z :=
  match a, b with
  | Some x, Some y => Some (x - y)
  | _, _ => None
  end.

(** The [for ... of] loop: stops at the first Monday. *)
Fixpoint scanDays (days : list string) (dateInfo : list DateInfo)
    : ScheduleCheck + list DateInfo :=
  match days with
  | [] => inr dateInfo
  | d :: rest =>
      let dt := Date_getTime (String.append d "T00:00:00Z") in
      let dow := Date_getUTCDay dt in
      if strictEq dow 1 then inl (mkCheck false (Some "No se permiten lunes"%string))
      else scanDays rest (dateInfo ++ [mkDateInfo dt dow])
  end.

(** The comparator [(a, b) => a.timestamp - b.timestamp]; a [NaN] result
    counts as [0] for the sort.  With a [NaN] among the timestamps the
    comparator is not consistent and the order is the engine's own: the
    embedding is that of the sort when every timestamp is a number. *)
Definition byTimestamp (a b : DateInfo) : Z :=
  match minus (timestamp a) (timestamp b) with
  | Some v => v
  | None => 0
  end.

(** The loop over [i = 1 .. length - 1]. *)
Fixpoint hasConsecutive (dateInfo : list DateInfo) : bool :=
  match dateInfo with
  | a :: (b :: _) as rest =>
      if strictEq (minus (timestamp b) (timestamp a)) MS_PER_DAY then true
      else hasConsecutive rest
  | _ => false
  end.

Definition isValidSchedule (days : list string) : ScheduleCheck :=
  if (length days =? 0)%nat
  then mkCheck false (Some "Selecciona al menos un día"%string)
  else
    match scanDays days [] with
    | inl rejected => rejected
    | inr dateInfo =>
        let dateInfo := JS.sort byTimestamp dateInfo in
        if hasConsecutive dateInfo
        then mkCheck false (Some "No se permiten días consecutivos"%string)
        else mkCheck true None
    end.

(** ** Vocabulary of the statements *)

Definition sumZ (l : list Z) : Z := foldr Z.add 0 l.

(** The candidate ids in the order in which the tally meets them. *)
Definition allPicks (usedVotes : list Vote.t) : list string :=
  flat_map Vote.picks usedVotes.

(** The picks that leave a trace in [counts]: all but [__proto__]. *)
Definition counted (picks : list string) : list string :=
  List.filter (fun c => negb (String.eqb c "__proto__")) picks.

(** The distinct elements of a list, each at its first occurrence. *)
Fixpoint firstSeen (l : list string) : list string :=
  match l with
  | [] => []
  | x :: l' => x :: List.filter (fun y => negb (String.eqb x y)) (firstSeen l')
  end.

Definition hasKey (ks : list string) (k : string) : bool :=
  existsb (String.eqb k) ks.

(** The world after [n] more draws. *)
Definition consumeN (n : nat) (w : World) : World :=
  {| heap := heap w; GERENTE_CACHE := GERENTE_CACHE w; crypto := crypto w;
     entropy := entropy w; drawn := n + drawn w |}.

(** The same world with another source of randomness. *)
Definition reseed (c : bool) (e : nat -> N) (d : nat) (w : World) : World :=
  {| heap := heap w; GERENTE_CACHE := GERENTE_CACHE w; crypto := c;
     entropy := e; drawn := d |}.

(** The next [n] values that [randomInt 1 3] returns from world [w]. *)
Definition bonusDraws (n : nat) (w : World) : list Z :=
  map (fun k => nextInt 1 3 (consumeN k w)) (seq 0 n).

(** What the bonuses drawn for a ballot add up to for one candidate: one
    draw for each place the candidate takes on the ballot. *)
Definition bonusFor (cid : string) (picks : list string) (bonuses : list Z) : Z :=
  sumZ (map snd (List.filter (fun p => String.eqb (fst p) cid)
                             (combine picks bonuses))).

Definition addBonuses (d : JS.Obj) (pb : list (string * Z)) : JS.Obj :=
  foldl (fun d p => JS.assign d (fst p) (JS.orZero (JS.get d (fst p)) + snd p))
        d pb.

(** The ballots that count, given the ballots cast and what was returned as
    [discardedVoterId]. *)
Definition nonDiscarded (votes : list Vote.t) (discarded : option string)
    (used : list Vote.t) : Prop :=
  match discarded with
  | None => used = votes
  | Some d =>
      exists idx v, votes !! idx = Some v /\ Vote.voterId v = d
                    /\ used = delete idx votes
  end.

(** The distinct voters whose ballot includes a candidate. *)
Definition distinctVoters (used : list Vote.t) (cid : string) : list string :=
  List.nodup string_dec
    (map Vote.voterId (List.filter (fun v => includes (Vote.picks v) cid) used)).

Definition votedFor (voter : string) (used : list Vote.t) (cid : string) : bool :=
  existsb (fun v => String.eqb (Vote.voterId v) voter && includes (Vote.picks v) cid)
          used.

Definition gerenteAmong (gerenteId : option string) (used : list Vote.t)
    (cid : string) : bool :=
  match gerenteId with
  | Some g => votedFor g used cid
  | None => false
  end.

(** The table of day awards. *)
Definition dayTable (voters : nat) (withGerente : bool) : Z :=
  match voters with
  | O | S O => 0
  | S (S O) => 1
  | _ => if withGerente then 3 else 2
  end.

(** The first member with the role, and the first member that
    [findGerenteId] accepts. *)
Definition firstByRole (users : list User.t) : option string :=
  User.id <$> List.find (fun u => Role_eqb (User.role u) Gerente) users.

Definition firstGerente (users : list User.t) : option string :=
  User.id <$> List.find isGerente users.

(** Every memoised lookup is the lookup of the array it is filed under. *)
Definition coherent (w : World) : Prop :=
  forall r g, GERENTE_CACHE w !! r = Some g ->
    exists us, heap w !! r = Some (UserArray us) /\ g = firstGerente us.

(** The picks for which [computeResults] draws a bonus: those of the first
    counted ballot of the resolved Gerente, when the option is on. *)
Definition bonusPicks (options : Options) (gerenteIdResolved : option string)
    (used : list Vote.t) : list string :=
  match enableGerenteBonus options, gerenteIdResolved with
  | true, Some g =>
      match List.find (fun v => String.eqb (Vote.voterId v) g) used with
      | Some gerenteVote => Vote.picks gerenteVote
      | None => []
      end
  | _, _ => []
  end.

(** The rows after [rows.sort], before the day awards are filled in. *)
Definition sortedRows (used : list Vote.t) : list ResultRow.t :=
  JS.sort byVotesDesc (initialRows (tally used)).

(** The order of a list sorted by rising key. *)
Definition byKey {A} (key : A -> Z) (a b : A) : Prop := key a <= key b.

(** [x] occurs somewhere ahead of [y] in [l]. *)
Definition before {A} (x y : A) (l : list A) : Prop :=
  exists l1 l2 l3, l = l1 ++ x :: l2 ++ y :: l3.

(** Rows with equal tallies come in the order of [order]. *)
Definition tiesFollow (order : list string) (rs : list ResultRow.t) : Prop :=
  forall r1 r2,
    before r1 r2 rs ->
    ResultRow.votes r1 = ResultRow.votes r2 ->
    before (ResultRow.candidateId r1) (ResultRow.candidateId r2) order.

(** The rows come by falling tally. *)
Definition byFallingVotes (rs : list ResultRow.t) : Prop :=
  StronglySorted (fun a b => ResultRow.votes b <= ResultRow.votes a) rs.

(** The number of picks on the ballots, each place of a ballot counted. *)
Definition pickOccurrences (votes : list Vote.t) : Z :=
  sumZ (map (fun v => Z.of_nat (length (Vote.picks v))) votes).

(** Every candidate of a ballot ends with a day award of at least one. *)
Definition everyPickAwarded (picks : list string) (rs : list ResultRow.t) : Prop :=
  forall c, In c picks ->
    exists r, In r rs /\ ResultRow.candidateId r = c /\ 1 <= ResultRow.days r.

(** A call that only consumed entropy. *)
Definition onlyConsumes (w w' : World) : Prop := exists k, w' = consumeN k w.

(** The status as the English-language description words it. *)
Definition describedStatus (selectedDays targetDays : Z) (error : string) : Status :=
  if truthy error then mkStatus error true
  else if selectedDays =? targetDays then mkStatus "ready to schedule" false
  else mkStatus "select the required number of dates" false.

(** Day counts go up by one from the last day of a month to the first day
    of the next, through a whole year [y]. *)
Definition monthsChain (y : Z) : bool :=
  forallb (fun m => daysFromCivil y (m + 1) 1
                    =? daysFromCivil y m (daysInMonth y m) + 1)
          [1; 2; 3; 4; 5; 6; 7; 8; 9; 10; 11]
  && (daysFromCivil (y + 1) 1 1 =? daysFromCivil y 12 31 + 1).

(** A text with none of the characters that [sanitizeText] replaces. *)
Fixpoint plainText (s : string) : bool :=
  match s with
  | EmptyString => true
  | String c rest => negb (isHtmlSpecial c) && plainText rest
  end.

(** The date a string of the schedule stands for, at midnight UTC. *)
Definition timestampOf (d : string) : option Z :=
  Date_getTime (String.append d "T00:00:00Z").

Definition isCalendarDate (d : string) : Prop := timestampOf d <> None.

Definition timeValue (d : string) : Z :=
  match timestampOf d with Some t => t | None => 0 end.

Definition fallsOnMonday (d : string) : Prop :=
  (timeValue d / MS_PER_DAY + 4) mod 7 = 1.

Definition mondayb (d : string) : bool :=
  strictEq (Date_getUTCDay (timestampOf d)) 1.

Definition dateInfoOf (d : string) : DateInfo :=
  mkDateInfo (timestampOf d) (Date_getUTCDay (timestampOf d)).

Definition timeKey (a : DateInfo) : Z :=
  match timestamp a with Some t => t | None => 0 end.

(** Two neighbours of a list of times are exactly one day apart. *)
Definition adjacentDayApart (times : list Z) : Prop :=
  exists i a b, times !! i = Some a /\ times !! S i = Some b
                /\ b - a = MS_PER_DAY.

(** Some two neighbours are one day apart once the dates are put in
    chronological order. *)
Definition consecutiveAfterSorting (days : list string) : Prop :=
  exists sorted,
    Permutation sorted (map timeValue days)
    /\ StronglySorted Z.le sorted
    /\ adjacentDayApart sorted.

(** The functions that every object inherits from [Object.prototype]:
    read under one of these names, an object that has no such property of
    its own answers the function. *)
Definition inheritedMethods : list string :=
  ["constructor"; "hasOwnProperty"; "isPrototypeOf"; "propertyIsEnumerable";
   "toLocaleString"; "toString"; "valueOf"; "__defineGetter__";
   "__defineSetter__"; "__lookupGetter__"; "__lookupSetter__"]%string.

Definition inheritedMethod (c : string) : bool := includes inheritedMethods c.

(** The order of two keys of an object: array indices by rising number,
    ahead of every other key; the other keys as they were first met. *)
Definition keyOrder (met : list string) (a b : string) : Prop :=
  match JS.arrayIndex a, JS.arrayIndex b with
  | Some i, Some j => (i < j)%N
  | Some _, None => True
  | None, Some _ => False
  | None, None => before a b met
  end.

(** Rows with equal tallies come in the order of their keys. *)
Definition tiesInKeyOrder (met : list string) (rs : list ResultRow.t) : Prop :=
  forall r1 r2,
    before r1 r2 rs ->
    ResultRow.votes r1 = ResultRow.votes r2 ->
    keyOrder met (ResultRow.candidateId r1) (ResultRow.candidateId r2).

(** ** Sample data *)

Definition member (id : string) (role : Role) (title : string) : User.t :=
  User.mk id id role title GTI None.

Definition usersRef : ref := 1%positive.
Definition votesRef : ref := 2%positive.
Definition nominationsRef : ref := 3%positive.

(** A freshly loaded module (empty cache) with a roster and ballots; the
    [k]-th raw draw is [k]. *)
Definition sampleWorld (us : list User.t) (vs : list Vote.t) : World :=
  mkWorld (<[usersRef := UserArray us]>
             (<[votesRef := VoteArray vs]>
                (<[nominationsRef := NominationArray []]> ∅)))
          ∅ true N.of_nat 0.

Definition run (us : list User.t) (vs : list Vote.t) (options : Options)
    : option (Results * World) :=
  computeResults nominationsRef votesRef usersRef options (sampleWorld us vs).

Definition gerenteOnly : list User.t := [member "u15" Gerente "CIO"].

(** A member with the title only, ahead of the member with the role. *)
Definition titleFirst : list User.t :=
  [member "u12" Jefatura "CIO"; member "u15" Gerente "Gerente TI"].

Definition emptyIdGerente : list User.t := [member "" Gerente "CIO"].

(** The Gerente alone votes for the candidate that ends fourth. *)
Definition fourCandidates : list Vote.t :=
  [Vote.mk "u11" ["u1"; "u2"; "u6"]; Vote.mk "u12" ["u1"; "u2"; "u6"];
   Vote.mk "u15" ["u3"]].

Definition numericIds : list Vote.t := [Vote.mk "u11" ["2"; "1"]].

Definition protoBallot : list Vote.t := [Vote.mk "u11" ["u1"; "__proto__"]].

Definition threeVoters (gerente : string) : list Vote.t :=
  [Vote.mk "u11" ["u1"]; Vote.mk "u12" ["u1"]; Vote.mk gerente ["u1"]].

(** Three tallies, two of them equal, one id an array index. *)
Definition keyOrderBallots : list Vote.t :=
  [Vote.mk "u11" ["u2"; "7"; "u1"]; Vote.mk "u12" ["u1"; "7"; "u2"];
   Vote.mk "u15" ["u1"]].

Definition twoJefes : list User.t :=
  [member "u15" Gerente "CIO"; member "u11" Jefatura "Jefe de Desarrollo"].


(** ** More of [App.tsx]: [classNames], [generateId], [getInitials] *)

(** An argument of [classNames] is a string, or one of [null], [undefined]
    and [false], which are [None]. *)
Definition classNames (xs : list (option string)) : string :=
  foldl (fun result x =>
           match x with
           | Some s =>
               if truthy s
               then String.append result
                      (String.append (if truthy result then " " else "") s)
               else result
           | None => result
           end) ""%string xs.

(** The decimal numeral that a template literal writes for an integer. *)
Definition decimal (n : N) : string := NilEmpty.string_of_uint (N.to_uint n).

(** [generateId]: [now] is what [Date.now()] returns, [random36] is
    [Math.random().toString(36).slice(2, 11)], and the module variable
    [idCounter] is passed in and out.  A time value is an integer of at
    most 8.64e15, which a template literal writes in decimal.  The counter
    is a [number]: [++] adds one below [2^53] and leaves [2^53] as it is, the
    sum being rounded back to it. *)
Definition generateId (now : N) (random36 : string) (idCounter : N)
    : string * N :=
  let idCounter :=
    if (idCounter <? 2 ^ 53)%N then N.succ idCounter else idCounter in
  (String.append (decimal now)
     (String.append "-"
        (String.append (decimal idCounter) (String.append "-" random36))),
   idCounter).

(** Calls of [generateId] one after the other. *)
Fixpoint generateIds (draws : list (N * string)) (idCounter : N)
    : list string * N :=
  match draws with
  | [] => ([], idCounter)
  | (now, random36) :: rest =>
      let (id, idCounter) := generateId now random36 idCounter in
      let (ids, idCounter) := generateIds rest idCounter in
      (id :: ids, idCounter)
  end.

(** [getInitials] reads single UTF-16 code units ([p[0]]); a name is taken
    here as the list of its code units, of which [isSpace] tells the space
    U+0020. *)
Section CodeUnits.
Context {C : Type} (isSpace : C -> bool).

(** [name.split(" ")], with the field read so far. *)
Fixpoint splitSpaces (field : list C) (s : list C) : list (list C) :=
  match s with
  | [] => [field]
  | c :: s' =>
      if isSpace c then field :: splitSpaces [] s'
      else splitSpaces (field ++ [c]) s'
  end.

(** [split(" ").filter(p => p.length > 0)], with the field read so far. *)
Definition parts (field : list C) (s : list C) : list (list C) :=
  List.filter (fun p => (0 <? length p)%nat) (splitSpaces field s).

Definition getInitials (name : list C) : list C :=
  let parts := parts [] name in
  flat_map (fun p => match p with c :: _ => [c] | [] => [] end) (take 2 parts).

(** What is left of a text after its leading spaces, and after its leading
    code units other than the space. *)
Fixpoint skipSpaces (s : list C) : list C :=
  match s with
  | [] => []
  | c :: s' => if isSpace c then skipSpaces s' else s
  end.

Fixpoint skipWord (s : list C) : list C :=
  match s with
  | [] => []
  | c :: s' => if isSpace c then s else skipWord s'
  end.

(** The first code unit of the first word and that of the second. *)
Definition firstLetters (name : list C) : list C :=
  match skipSpaces name with
  | [] => []
  | c :: rest =>
      c :: match skipSpaces (skipWord rest) with
           | [] => []
           | d :: _ => [d]
           end
  end.

End CodeUnits.

(** The strings among the arguments of [classNames] that are not empty. *)
Definition truthyArgs (xs : list (option string)) : list string :=
  flat_map (fun x => match x with
                     | Some s => if truthy s then [s] else []
                     | None => []
                     end) xs.

(** A character occurs in a string. *)
Fixpoint occurs (c : ascii) (s : string) : bool :=
  match s with
  | EmptyString => false
  | String c' rest => Ascii.eqb c' c || occurs c rest
  end.

(** A raw draw for which [randomInt min max] returns [n]. *)
Definition rawFor (min n : Z) : N := Z.to_N (n - min).

(** How many places of the ballots name a candidate. *)
Definition timesPicked (cid : string) (picks : list string) : Z :=
  Z.of_nat (length (List.filter (String.eqb cid) picks)).

(** The draws that the discard takes. *)
Definition discardDraws (options : Options) (votes : list Vote.t) : nat :=
  if discardOneRandomVote options && (0 <? length votes)%nat then 1%nat
  else 0%nat.

(** ** More of [App.tsx]: the schedule of a winner *)

(** [toggleDay], on the dates selected for one candidate:
    [new Set(prev[cid] || [])], then [delete] or [add], then [Array.from]. *)
Definition toggleDay (date : string) (selected : list string) : list string :=
  let set := firstSeen selected in
  if includes set date
  then List.filter (fun d => negb (String.eqb d date)) set
  else set ++ [date].

(** What [validateSchedule] files under the candidate:
    [v.ok ? "" : v.reason || ""]. *)
Definition validationError (v : ScheduleCheck) : string :=
  if ok v then ""%string
  else match reason v with Some r => r | None => ""%string end.

(** Some two of the dates, wherever they stand in the list, are one day
    apart. *)
Definition dayApart (days : list string) : Prop :=
  exists a b, In a days /\ In b days /\ timeValue b - timeValue a = MS_PER_DAY.

(** ** More of [App.tsx]: the voting boards *)

(** A place of a board array holds a string or [undefined], which is [None];
    a hole reads as [undefined] as well. *)

(** [Boolean(x)] on a place. *)
Definition filled (x : option string) : bool :=
  match x with Some s => truthy s | None => false end.

(** [a[i]] *)
Definition placeAt (a : list (option string)) (i : nat) : option string :=
  match a !! i with Some x => x | None => None end.

(** [a[i] = v]: past the end the array grows, with holes in between. *)
Definition writeAt (a : list (option string)) (i : nat) (v : option string)
    : list (option string) :=
  if (i <? length a)%nat then <[i := v]> a
  else a ++ replicate (i - length a) None ++ [v].

(** [a.indexOf(id)]; [None] is [-1]. *)
Fixpoint slotIndexOf (a : list (option string)) (id : string) : option nat :=
  match a with
  | [] => None
  | x :: a' =>
      if match x with Some s => String.eqb s id | None => false end
      then Some 0%nat
      else S <$> slotIndexOf a' id
  end.

Definition swapSlots (slots : list (option string)) (id : string) (slotIndex : nat)
    (existingIdx : option nat) : list (option string) :=
  let newSlots := slots in
  let tmp := placeAt newSlots slotIndex in
  let newSlots := writeAt newSlots slotIndex (Some id) in
  match existingIdx with
  | Some e => if filled tmp then writeAt newSlots e tmp else newSlots
  | None => newSlots
  end.

(** The update of [handleDropSlot] on the voter's array, [id] being what
    the drag carries. *)
Definition handleDropSlot (id : string) (slotIndex : nat)
    (slots : list (option string))
    : list (option string) :=
  let existingIdx := slotIndexOf slots id in
  let slots :=
    match existingIdx with Some e => delete e slots | None => slots end in
  swapSlots slots id slotIndex existingIdx.

(** The update of [removeVote] on the voter's array. *)
Definition removeVote (index : nat) (slots : list (option string))
    : list (option string) :=
  writeAt slots index (Some ""%string).

(** The update of [voteCandidate] on the voter's array. *)
Definition voteCandidate (candidateId : string) (userVotes : list (option string))
    : list (option string) :=
  if existsb (fun x => match x with
                       | Some s => String.eqb s candidateId
                       | None => false
                       end) userVotes
  then userVotes
  else userVotes ++ [Some candidateId].

(** [a.splice(start, ...)] counts a negative [start] from the end and stops
    at the ends of the array. *)
Definition spliceStart (len : nat) (start : Z) : nat :=
  if start <? 0 then Z.to_nat (Z.max (Z.of_nat len + start) 0)
  else Z.to_nat (Z.min start (Z.of_nat len)).

(** [swapCandidates]: [moved] is [undefined] when the first [splice] removed
    nothing. *)
Definition swapCandidates (fromIndex toIndex : Z)
    (candidateList : list (option string))
    : list (option string) :=
  let list := candidateList in
  let from := spliceStart (length list) fromIndex in
  let moved := placeAt list from in
  let list := delete from list in
  let to := spliceStart (length list) toIndex in
  take to list ++ moved :: drop to list.

(** [slots.filter(Boolean)]: the strings that are not empty. *)
Definition picksOf (slots : list (option string)) : list string := truthyArgs slots.

(** The boards of the page are kept by voter; [boardOf] is
    [boards[voterId] || []]. *)
Definition boardOf (boards : gmap string (list (option string)))
    (voterId : string) : list (option string) :=
  match boards !! voterId with Some slots => slots | None => [] end.

Definition jefeUsers (users : list User.t) : list User.t :=
  List.filter (fun u => Role_eqb (User.role u) Jefatura
                        || Role_eqb (User.role u) Gerente) users.

(** The initial state of [boards]. *)
Definition initialBoards (jefes : list User.t)
    : gmap string (list (option string)) :=
  foldl (fun o j => <[User.id j := []]> o) ∅ jefes.

(** The ballots handed to [computeResults]. *)
Definition votesOf (jefes : list User.t)
    (boards : gmap string (list (option string))) : list Vote.t :=
  map (fun j => Vote.mk (User.id j) (picksOf (boardOf boards (User.id j)))) jefes.

(** What a voter can do on the page: drop what a drag carries on one of the
    places, or empty a place. *)
Inductive BoardAction :=
| Drop (voterId id : string) (slotIndex : nat)
| Remove (voterId : string) (index : nat).

Definition act (boards : gmap string (list (option string))) (a : BoardAction)
    : gmap string (list (option string)) :=
  match a with
  | Drop voterId id slotIndex =>
      <[voterId := handleDropSlot id slotIndex (boardOf boards voterId)]> boards
  | Remove voterId index =>
      <[voterId := removeVote index (boardOf boards voterId)]> boards
  end.

(** The page has the places 0, 1 and 2. *)
Definition onPage (a : BoardAction) : Prop :=
  match a with
  | Drop _ _ slotIndex => (slotIndex < 3)%nat
  | Remove _ index => (index < 3)%nat
  end.

(** How often a candidate is among the picks of a board. *)
Definition occ (c : string) (slots : list (option string)) : nat :=
  count_occ string_dec (picksOf slots) c.

(** The state of a board that the page keeps. *)
Definition tidy (slots : list (option string)) : Prop :=
  List.NoDup (picksOf slots) /\ (length slots <= 3)%nat.

(** ** More of [App.tsx]: the dates offered for the schedule *)

(** The day of the proleptic Gregorian calendar that lies [z] days after
    1970-01-01: year, month and day of the month, as [Date] reads a time
    value in UTC. *)
Definition civilFromDays (z : Z) : Z * Z * Z :=
  let z := z + 719468 in
  let era := z / 146097 in
  let doe := z - era * 146097 in
  let yoe := (doe - doe / 1460 + doe / 36524 - doe / 146096) / 365 in
  let y := yoe + era * 400 in
  let doy := doe - (365 * yoe + yoe / 4 - yoe / 100) in
  let mp := (5 * doy + 2) / 153 in
  let d := doy - (153 * mp + 2) / 5 + 1 in
  let m := if mp <? 10 then mp + 3 else mp - 9 in
  (if m <=? 2 then y + 1 else y, m, d).

Definition digitChar (d : Z) : ascii := ascii_of_N (48 + Z.to_N d).

Definition pad2 (n : Z) : string :=
  String (digitChar (n / 10)) (String (digitChar (n mod 10)) EmptyString).

Definition pad4 (n : Z) : string :=
  String.append (pad2 (n / 100)) (pad2 (n mod 100)).

(** [new Date(ms).toISOString().slice(0, 10)] for the time values of day
    [day], in the years 0 to 9999, which are written with four digits. *)
Definition isoDate (day : Z) : string :=
  match civilFromDays day with
  | (y, m, d) =>
      String.append (pad4 y)
        (String.append "-" (String.append (pad2 m) (String.append "-" (pad2 d))))
  end.

(** [nextDays], [now] being the time value of [new Date()]. *)
Definition nextDays (now : Z) : list string :=
  map (fun i => isoDate ((now + Z.of_nat i * MS_PER_DAY) / MS_PER_DAY))
      (seq 1 21).

(** The date computed for a day is a date of the calendar, in the years
    written with four digits, and counts back to the day. *)
Definition datedBack (day : Z) : bool :=
  match civilFromDays day with
  | (y, m, d) =>
      (0 <=? y) && (y <=? 9999) && (1 <=? m) && (m <=? 12) && (1 <=? d)
      && (d <=? daysInMonth y m) && (daysFromCivil y m d =? day)
  end.

(** The two digits written for a number are read back as the number. *)
Definition twoDigits (n : Z) : bool :=
  match number2 (digitChar (n / 10)) (digitChar (n mod 10)) with
  | Some v => v =? n
  | None => false
  end.

Fixpoint allFrom (p : Z -> bool) (n : nat) (day : Z) : bool :=
  match n with
  | O => true
  | S n' => p day && allFrom p n' (day + 1)
  end.

(** 2100-01-01T00:00:00Z *)
Definition year2100 : Z := 47482 * MS_PER_DAY.

(** Every second of the dates offered that is no Monday, by its place among
    the 21, and the first [target] of them as a selection. *)
Definition freeOffsets (today : Z) : list nat :=
  List.filter (fun i => negb ((today + Z.of_nat i + 4) mod 7 =? 1))
              [1; 3; 5; 7; 9; 11; 13; 15; 17; 19; 21]%nat.

Definition proposal (now target : Z) : list string :=
  map (fun i => isoDate (now / MS_PER_DAY + Z.of_nat i))
      (take (Z.to_nat target) (freeOffsets (now / MS_PER_DAY))).

(** The selection after clicking dates one after the other. *)
Definition clicks (dates : list string) : list string :=
  foldl (fun selected date => toggleDay date selected) [] dates.

(** * Examples *)

Example keys_order :
  JS.keys [("b", 1); ("10", 1); ("a", 1); ("2", 1); ("01", 1)]%string
  = ["2"; "10"; "b"; "a"; "01"]%string.
Proof. reflexivity. Qed.

Example date_epoch : timestampOf "1970-01-01" = Some 0.
Proof. reflexivity. Qed.

Example date_monday :
  timestampOf "2024-06-17" = Some 1718582400000
  /\ Date_getUTCDay (timestampOf "2024-06-17") = Some 1.
Proof. split; reflexivity. Qed.

Example date_before_epoch :
  timestampOf "1969-12-31" = Some (-86400000)
  /\ Date_getUTCDay (timestampOf "1969-12-31") = Some 3.
Proof. split; reflexivity. Qed.

Example date_leap_day :
  timestampOf "2000-02-29" = Some 951782400000
  /\ timestampOf "1900-02-29" = None
  /\ timestampOf "2024-6-17" = None.
Proof. repeat split; reflexivity. Qed.

(** The day count of [daysFromCivil] is the one of the calendar: it is [0]
    on 1970-01-01, and through every year that four digits can write it goes
    up by one from each day to the next. *)
Example calendar_chain :
  forallb monthsChain (map Z.of_nat (seq 0 (Z.to_nat 10000))) = true.
Proof. vm_compute. reflexivity. Qed.

Lemma daysFromCivil_next_day y m d :
  daysFromCivil y m (d + 1) = daysFromCivil y m d + 1.
Proof. unfold daysFromCivil. cbv zeta. lia. Qed.

Lemma daysFromCivil_next_month y m :
  0 <= y < 10000 -> 1 <= m < 12 ->
  daysFromCivil y (m + 1) 1 = daysFromCivil y m (daysInMonth y m) + 1.
Proof.
  intros Hy Hm. pose proof calendar_chain as H.
  rewrite forallb_forall in H. specialize (H y).
  assert (In y (map Z.of_nat (seq 0 (Z.to_nat 10000)))) as Hin.
  { apply in_map_iff. exists (Z.to_nat y). split; [lia|].
    apply in_seq. lia. }
  apply H in Hin. unfold monthsChain in Hin.
  apply andb_true_iff in Hin as [Hin _]. rewrite forallb_forall in Hin.
  apply Z.eqb_eq, Hin. simpl. lia.
Qed.

Lemma daysFromCivil_next_year y :
  0 <= y < 10000 -> daysFromCivil (y + 1) 1 1 = daysFromCivil y 12 31 + 1.
Proof.
  intros Hy. pose proof calendar_chain as H.
  rewrite forallb_forall in H. specialize (H y).
  assert (In y (map Z.of_nat (seq 0 (Z.to_nat 10000)))) as Hin.
  { apply in_map_iff. exists (Z.to_nat y). split; [lia|].
    apply in_seq. lia. }
  apply H in Hin. unfold monthsChain in Hin.
  apply andb_true_iff in Hin as [_ Hin]. now apply Z.eqb_eq.
Qed.

Example schedule_monday :
  isValidSchedule ["2024-06-17"%string]
  = mkCheck false (Some "No se permiten lunes"%string).
Proof. reflexivity. Qed.

Example schedule_consecutive :
  isValidSchedule ["2024-06-19"; "2024-06-18"]%string
  = mkCheck false (Some "No se permiten días consecutivos"%string).
Proof. reflexivity. Qed.

Example schedule_accepted :
  isValidSchedule ["2024-06-18"; "2024-06-20"]%string = mkCheck true None.
Proof. reflexivity. Qed.

Example status_sanitized :
  getScheduleStatus 1 2 "a<b & c" = mkStatus "a&lt;b &amp; c" true.
Proof. reflexivity. Qed.

(** * Properties of the JavaScript operations *)

Section Objects.

Lemma orZero_Some v : JS.orZero (Some v) = v.
Proof.
  unfold JS.orZero. destruct (v =? 0) eqn:E; [|reflexivity].
  apply Z.eqb_eq in E. congruence.
Qed.

Lemma get_set_eq o k v : JS.get (JS.set o k v) k = Some v.
Proof.
  induction o as [|[k' v'] o IH]; simpl.
  - now rewrite String.eqb_refl.
  - destruct (String.eqb k' k) eqn:E; simpl; rewrite E; auto.
Qed.

Lemma get_set_ne o k k' v :
  k <> k' -> JS.get (JS.set o k v) k' = JS.get o k'.
Proof.
  intros Hne. induction o as [|[k0 v0] o IH]; simpl.
  - destruct (String.eqb k k') eqn:E; [|reflexivity].
    apply String.eqb_eq in E. contradiction.
  - destruct (String.eqb k0 k) eqn:E; simpl.
    + apply String.eqb_eq in E. subst k0.
      destruct (String.eqb k k') eqn:E'; [|reflexivity].
      apply String.eqb_eq in E'. contradiction.
    + now rewrite IH.
Qed.

Lemma get_None o k : JS.get o k = None <-> ~ In k (map fst o).
Proof.
  induction o as [|[k' v'] o IH]; simpl.
  - tauto.
  - destruct (String.eqb k' k) eqn:E.
    + apply String.eqb_eq in E. split; [discriminate | tauto].
    + apply String.eqb_neq in E. rewrite IH. tauto.
Qed.

Lemma keys_set_old o k v :
  In k (map fst o) -> map fst (JS.set o k v) = map fst o.
Proof.
  induction o as [|[k' v'] o IH]; simpl; [tauto|].
  intros [->|Hin].
  - now rewrite String.eqb_refl.
  - destruct (String.eqb k' k); simpl; [reflexivity|]. now rewrite IH.
Qed.

Lemma keys_set_new o k v :
  ~ In k (map fst o) -> map fst (JS.set o k v) = map fst o ++ [k].
Proof.
  induction o as [|[k' v'] o IH]; simpl; [reflexivity|].
  intros Hn. destruct (String.eqb k' k) eqn:E.
  - apply String.eqb_eq in E. tauto.
  - simpl. rewrite IH; [reflexivity | tauto].
Qed.

Lemma sum_set o k v :
  sumZ (map snd (JS.set o k v))
  = sumZ (map snd o) - JS.orZero (JS.get o k) + v.
Proof.
  unfold sumZ. induction o as [|[k' v'] o IH]; simpl.
  - unfold JS.orZero. lia.
  - destruct (String.eqb k' k); simpl.
    + rewrite orZero_Some. lia.
    + rewrite IH. lia.
Qed.

(** Reading every key of an object whose keys are distinct reads every
    value once. *)
Lemma sum_get_keys o :
  List.NoDup (map fst o) ->
  sumZ (map (fun k => JS.orZero (JS.get o k)) (map fst o)) = sumZ (map snd o).
Proof.
  unfold sumZ. induction o as [|[k v] o IH]; simpl; [reflexivity|].
  intros Hnd. apply NoDup_cons_iff in Hnd as [Hk Hnd].
  rewrite String.eqb_refl, orZero_Some. f_equal.
  rewrite <- (IH Hnd). f_equal. apply map_ext_in.
  intros a Ha. destruct (String.eqb k a) eqn:E; [|reflexivity].
  apply String.eqb_eq in E. subst a. contradiction.
Qed.

Lemma read_orZero o k : JS.read o k = JS.orZero (JS.get o k).
Proof.
  unfold JS.read. destruct (JS.get o k); [now rewrite orZero_Some | reflexivity].
Qed.

Lemma assign_proto o v : JS.assign o "__proto__" v = o.
Proof. reflexivity. Qed.

Lemma assign_set o k v :
  k <> "__proto__"%string -> JS.assign o k v = JS.set o k v.
Proof.
  intros H. unfold JS.assign. apply String.eqb_neq in H. now rewrite H.
Qed.

(** An assignment changes what is read under a key only when it is an
    assignment to that very key. *)
Lemma get_assign o k v c :
  c <> "__proto__"%string ->
  JS.get (JS.assign o k v) c = if String.eqb k c then Some v else JS.get o c.
Proof.
  intros Hc. unfold JS.assign.
  destruct (String.eqb k "__proto__") eqn:Ep.
  - apply String.eqb_eq in Ep. subst k.
    destruct (String.eqb "__proto__" c) eqn:E; [|reflexivity].
    apply String.eqb_eq in E. congruence.
  - destruct (String.eqb k c) eqn:E.
    + apply String.eqb_eq in E. subst c. apply get_set_eq.
    + apply String.eqb_neq in E. now apply get_set_ne.
Qed.

End Objects.

Section Before.
Context {A : Type}.
Implicit Types (x y a : A) (l : list A).

Lemma before_nil x y : ~ before x y [].
Proof. intros (l1 & l2 & l3 & H). destruct l1; discriminate. Qed.

Lemma before_cons x y a l :
  before x y (a :: l) <-> (x = a /\ In y l) \/ before x y l.
Proof.
  split.
  - intros (l1 & l2 & l3 & H). destruct l1 as [|b l1]; simpl in H.
    + injection H as -> ->. left. split; [reflexivity|].
      apply in_or_app. right. now left.
    + injection H as -> ->. right. now exists l1, l2, l3.
  - intros [[-> Hin] | (l1 & l2 & l3 & ->)].
    + apply in_split in Hin as (l2 & l3 & ->). now exists [], l2, l3.
    + now exists (a :: l1), l2, l3.
Qed.

Lemma before_In x y l : before x y l -> In x l /\ In y l.
Proof.
  intros (l1 & l2 & l3 & ->). split; apply in_or_app; right.
  - now left.
  - right. apply in_or_app. right. now left.
Qed.

(** In a list without repetition, the order of two elements is fixed. *)
Lemma before_asym x y l : List.NoDup l -> before x y l -> ~ before y x l.
Proof.
  induction l as [|a l IH]; intros Hnd Hxy Hyx.
  - now apply before_nil in Hxy.
  - apply NoDup_cons_iff in Hnd as [Ha Hnd].
    apply before_cons in Hxy as [[-> Hy] | Hxy];
      apply before_cons in Hyx as [[E Hx] | Hyx].
    + subst. contradiction.
    + apply before_In in Hyx as [_ Hin]. contradiction.
    + subst. apply before_In in Hxy as [_ Hin]. contradiction.
    + exact (IH Hnd Hxy Hyx).
Qed.

End Before.

Lemma before_map {A B} (f : A -> B) (x y : A) (l : list A) :
  before x y l -> before (f x) (f y) (map f l).
Proof.
  intros (l1 & l2 & l3 & ->).
  exists (map f l1), (map f l2), (map f l3).
  now rewrite !map_app, !map_cons, map_app.
Qed.

Lemma before_filter {A} (p : A -> bool) (x y : A) (l : list A) :
  before x y (List.filter p l) -> before x y l.
Proof.
  induction l as [|a l IH]; simpl; [auto|].
  destruct (p a).
  - intros H. apply before_cons in H as [[-> Hin] | H]; apply before_cons.
    + left. split; [reflexivity|]. now apply filter_In in Hin.
    + right. now apply IH.
  - intros H. apply before_cons. right. now apply IH.
Qed.

(** [Array.prototype.sort] with a comparator that orders by a key. *)
Section Sort.
Context {A : Type} (cmp : A -> A -> Z) (key : A -> Z) (P : A -> Prop).
Hypothesis cmp_key :
  forall x y, P x -> P y -> (cmp x y <= 0 <-> key x <= key y).

Lemma insertBy_perm x l : Permutation (JS.insertBy cmp x l) (x :: l).
Proof.
  induction l as [|y l IH]; simpl; [reflexivity|].
  destruct (cmp x y <=? 0); [reflexivity|].
  rewrite IH. apply perm_swap.
Qed.

Lemma sort_perm l : Permutation (JS.sort cmp l) l.
Proof.
  induction l as [|x l IH]; simpl; [reflexivity|].
  unfold JS.sort in *. simpl. rewrite insertBy_perm. now constructor.
Qed.

Lemma sort_In x l : In x (JS.sort cmp l) <-> In x l.
Proof.
  split; apply Permutation_in; [|symmetry]; apply sort_perm.
Qed.

Lemma sort_Forall l : Forall P l -> Forall P (JS.sort cmp l).
Proof.
  intros H. eapply Permutation_Forall; [symmetry; apply sort_perm | exact H].
Qed.

Lemma insertBy_sorted x l :
  P x -> Forall P l ->
  StronglySorted (byKey key) l -> StronglySorted (byKey key) (JS.insertBy cmp x l).
Proof.
  intros Px. induction l as [|y l IH]; intros HP Hs; simpl.
  - repeat constructor.
  - apply Forall_cons_iff in HP as [Py HP].
    apply StronglySorted_inv in Hs as [Hs Hy].
    destruct (cmp x y <=? 0) eqn:E.
    + apply Z.leb_le in E. apply cmp_key in E; [|assumption..].
      constructor; [constructor; assumption|].
      constructor; [exact E|].
      eapply List.Forall_impl; [|exact Hy]. unfold byKey in *. intros; lia.
    + apply Z.leb_gt in E.
      assert (key y <= key x) as Hyx.
      { destruct (Z.le_gt_cases (key x) (key y)) as [H|H]; [|lia].
        apply cmp_key in H; [lia | assumption..]. }
      constructor; [now apply IH|].
      eapply Permutation_Forall; [symmetry; apply insertBy_perm|].
      constructor; assumption.
Qed.

Lemma sort_sorted l : Forall P l -> StronglySorted (byKey key) (JS.sort cmp l).
Proof.
  induction l as [|x l IH]; intros HP; unfold JS.sort in *; simpl.
  - constructor.
  - apply Forall_cons_iff in HP as [Px HP].
    apply insertBy_sorted; [assumption | now apply sort_Forall | now apply IH].
Qed.

(** Stability: elements with equal keys keep their order. *)
Lemma insertBy_before x y a l :
  P a -> Forall P l ->
  before x y (JS.insertBy cmp a l) -> key x = key y ->
  (x = a /\ In y l) \/ before x y l.
Proof.
  intros Pa. induction l as [|b l IH]; intros HP Hb Hk; simpl in Hb.
  - apply before_cons in Hb as [[_ []] | Hb]. now apply before_nil in Hb.
  - apply Forall_cons_iff in HP as [Pb HP].
    destruct (cmp a b <=? 0) eqn:E.
    + apply before_cons in Hb as [[-> Hin] | Hb]; auto.
    + apply Z.leb_gt in E.
      apply before_cons in Hb as [[-> Hin] | Hb].
      * right. apply before_cons. left. split; [reflexivity|].
        apply (Permutation_in _ (insertBy_perm a l)) in Hin as [<- | Hin];
          [|assumption].
        exfalso. assert (cmp a b <= 0); [|lia].
        apply cmp_key; [assumption.. | lia].
      * destruct (IH HP Hb Hk) as [[-> Hin] | Hb'].
        -- left. split; [reflexivity | now right].
        -- right. apply before_cons. now right.
Qed.

Lemma sort_stable x y l :
  Forall P l ->
  before x y (JS.sort cmp l) -> key x = key y -> before x y l.
Proof.
  induction l as [|a l IH]; intros HP Hb Hk; unfold JS.sort in *; simpl in Hb.
  - exact Hb.
  - apply Forall_cons_iff in HP as [Pa HP].
    destruct (insertBy_before x y a _ Pa (sort_Forall l HP) Hb Hk)
      as [[-> Hin] | Hb'].
    + apply before_cons. left. split; [reflexivity|].
      exact (proj1 (sort_In y l) Hin).
    + apply before_cons. right. now apply IH.
Qed.

End Sort.

Section Tally.

Lemma sumZ_perm l l' : Permutation l l' -> sumZ l = sumZ l'.
Proof. unfold sumZ. induction 1; simpl; lia. Qed.

Lemma filter_twice {A} (f g : A -> bool) l :
  List.filter f (List.filter g l) = List.filter (fun x => g x && f x) l.
Proof.
  induction l as [|x l IH]; simpl; [reflexivity|].
  destruct (g x); simpl; [destruct (f x)|]; now rewrite IH.
Qed.

Lemma filter_all {A} (f : A -> bool) l :
  (forall x, In x l -> f x = true) -> List.filter f l = l.
Proof.
  induction l as [|x l IH]; simpl; intros H; [reflexivity|].
  rewrite (H x); [|now left]. f_equal. apply IH. auto.
Qed.

Lemma filter_none {A} (f : A -> bool) l :
  (forall x, In x l -> f x = false) -> List.filter f l = [].
Proof.
  induction l as [|x l IH]; simpl; intros H; [reflexivity|].
  rewrite (H x); [|now left]. apply IH. auto.
Qed.

Lemma filter_split_perm {A} (f : A -> bool) l :
  Permutation (List.filter f l ++ List.filter (fun x => negb (f x)) l) l.
Proof.
  induction l as [|x l IH]; simpl; [reflexivity|].
  destruct (f x); simpl.
  - now constructor.
  - rewrite <- Permutation_middle. now constructor.
Qed.

Lemma firstSeen_In x l : In x (firstSeen l) <-> In x l.
Proof.
  induction l as [|a l IH]; simpl; [tauto|].
  rewrite filter_In, IH.
  destruct (String.eqb a x) eqn:E.
  - apply String.eqb_eq in E. simpl. intuition discriminate.
  - apply String.eqb_neq in E. simpl. intuition congruence.
Qed.

Lemma firstSeen_filter (p : string -> bool) l :
  firstSeen (List.filter p l) = List.filter p (firstSeen l).
Proof.
  induction l as [|a l IH]; simpl; [reflexivity|].
  destruct (p a) eqn:Ea; simpl.
  - rewrite IH, !filter_twice. f_equal. apply filter_ext. intros y.
    apply andb_comm.
  - rewrite IH, filter_twice. apply filter_ext_in. intros y _.
    destruct (String.eqb a y) eqn:E; simpl; [|reflexivity].
    apply String.eqb_eq in E. subst y. now rewrite Ea.
Qed.

Lemma firstSeen_NoDup l : List.NoDup (firstSeen l).
Proof.
  induction l as [|a l IH]; simpl; constructor.
  - rewrite filter_In, String.eqb_refl. simpl. intuition discriminate.
  - now apply List.NoDup_filter.
Qed.

Lemma hasKey_In ks k : hasKey ks k = true <-> In k ks.
Proof.
  unfold hasKey. rewrite existsb_exists. split.
  - intros (x & Hx & E). apply String.eqb_eq in E. now subst.
  - intros H. exists k. split; [assumption | apply String.eqb_refl].
Qed.

Lemma hasKey_not_In ks k : hasKey ks k = false <-> ~ In k ks.
Proof.
  rewrite <- hasKey_In. destruct (hasKey ks k); intuition congruence.
Qed.

Lemma keys_countPick o k :
  k <> "__proto__"%string ->
  map fst (countPick o k)
  = map fst o ++ (if hasKey (map fst o) k then [] else [k]).
Proof.
  intros Hk. unfold countPick. rewrite assign_set by assumption.
  destruct (hasKey (map fst o) k) eqn:E.
  - apply hasKey_In in E. rewrite keys_set_old, app_nil_r; auto.
  - apply hasKey_not_In in E. now rewrite keys_set_new.
Qed.

Lemma counted_cons_proto l : counted ("__proto__"%string :: l) = counted l.
Proof. reflexivity. Qed.

Lemma counted_cons x l :
  x <> "__proto__"%string -> counted (x :: l) = x :: counted l.
Proof.
  intros H. unfold counted. simpl. apply String.eqb_neq in H. now rewrite H.
Qed.

Lemma counted_In x l : In x (counted l) <-> In x l /\ x <> "__proto__"%string.
Proof.
  unfold counted. rewrite filter_In, negb_true_iff, String.eqb_neq. tauto.
Qed.

Lemma counted_all l :
  Forall (fun c => c <> "__proto__"%string) l -> counted l = l.
Proof.
  intros H. apply filter_all. rewrite List.Forall_forall in H.
  intros x Hx. apply negb_true_iff, String.eqb_neq. now apply H.
Qed.

(** The keys of [counts] are created in the order in which the ids are
    first met. *)
Lemma keys_countPicks l : forall o,
  map fst (foldl countPick o l)
  = map fst o
    ++ List.filter (fun y => negb (hasKey (map fst o) y)) (firstSeen (counted l)).
Proof.
  induction l as [|x l IH]; intros o.
  - simpl. now rewrite app_nil_r.
  - destruct (string_dec x "__proto__") as [->|Hx].
    { rewrite counted_cons_proto. simpl foldl. unfold countPick at 2.
      rewrite assign_proto. apply IH. }
    rewrite counted_cons by assumption. simpl.
    rewrite IH, keys_countPick, filter_twice by assumption.
    destruct (hasKey (map fst o) x) eqn:E; simpl.
    + rewrite app_nil_r. f_equal. apply filter_ext_in. intros y _.
      destruct (String.eqb x y) eqn:Exy; simpl; [|reflexivity].
      apply String.eqb_eq in Exy. subst y. now rewrite E.
    + rewrite <- app_assoc. simpl. do 2 f_equal. apply filter_ext_in.
      intros y _. unfold hasKey. rewrite existsb_app. simpl.
      rewrite orb_false_r, negb_orb, (String.eqb_sym y x).
      apply andb_comm.
Qed.

Lemma sum_countPicks l : forall o,
  sumZ (map snd (foldl countPick o l))
  = sumZ (map snd o) + Z.of_nat (length (counted l)).
Proof.
  induction l as [|x l IH]; intros o; simpl foldl.
  - simpl. lia.
  - rewrite IH. unfold countPick.
    destruct (string_dec x "__proto__") as [->|Hx].
    + now rewrite assign_proto, counted_cons_proto.
    + rewrite assign_set, sum_set, counted_cons by assumption.
      change (length (x :: counted l)) with (S (length (counted l))). lia.
Qed.

Lemma tally_allPicks vs : tally vs = foldl countPick [] (allPicks vs).
Proof.
  unfold tally, allPicks. generalize (@nil (string * Z)) as o.
  induction vs as [|v vs IH]; intros o; simpl; [reflexivity|].
  now rewrite foldl_app, IH.
Qed.

Lemma tally_keys vs : map fst (tally vs) = firstSeen (counted (allPicks vs)).
Proof.
  rewrite tally_allPicks, keys_countPicks. simpl.
  apply filter_all. reflexivity.
Qed.

Lemma tally_sum vs :
  sumZ (map snd (tally vs)) = Z.of_nat (length (counted (allPicks vs))).
Proof. rewrite tally_allPicks, sum_countPicks. reflexivity. Qed.

Lemma keys_perm o : Permutation (JS.keys o) (map fst o).
Proof.
  unfold JS.keys, JS.ownKeyOrder. rewrite sort_perm. apply filter_split_perm.
Qed.

Lemma keys_plain o :
  Forall (fun k => JS.isArrayIndex k = false) (map fst o) ->
  JS.keys o = map fst o.
Proof.
  intros H. rewrite List.Forall_forall in H. unfold JS.keys, JS.ownKeyOrder.
  rewrite (filter_none JS.isArrayIndex) by exact H.
  rewrite filter_all; [reflexivity|].
  intros x Hx. now rewrite (H x Hx).
Qed.

Lemma keys_NoDup o : List.NoDup (map fst o) -> List.NoDup (JS.keys o).
Proof.
  intros H. eapply Permutation_NoDup; [symmetry; apply keys_perm | exact H].
Qed.

End Tally.

(** * Properties of the steps of [computeResults] *)

Section Entropy.

Lemma nextInt_range min max w :
  min <= max -> min <= nextInt min max w <= max.
Proof.
  intros Hle. unfold nextInt.
  set (raw := Z.of_N (entropy w (drawn w))).
  destruct (crypto w).
  - assert (0 <= raw mod 2 ^ 32) by (apply Z.mod_pos_bound; lia).
    pose proof (Z.rem_bound_pos (raw mod 2 ^ 32) (max - min + 1)).
    lia.
  - assert (0 <= raw mod 2 ^ 53 < 2 ^ 53) as Hm by (apply Z.mod_pos_bound; lia).
    assert (0 <= (raw mod 2 ^ 53) * (max - min + 1) / 2 ^ 53).
    { apply Z.div_pos; [|lia]. apply Z.mul_nonneg_nonneg; lia. }
    assert ((raw mod 2 ^ 53) * (max - min + 1) / 2 ^ 53 < max - min + 1).
    { apply Z.div_lt_upper_bound; [lia|]. nia. }
    lia.
Qed.

Lemma consumeN_0 w : consumeN 0 w = w.
Proof. now destruct w. Qed.

Lemma consume_consumeN k w : consumeN k (consume w) = consumeN (S k) w.
Proof. unfold consumeN, consume. simpl. f_equal. lia. Qed.

Lemma bonusDraws_S n w :
  bonusDraws (S n) w = nextInt 1 3 w :: bonusDraws n (consume w).
Proof.
  unfold bonusDraws. simpl. rewrite consumeN_0. f_equal.
  rewrite <- seq_shift, map_map. apply map_ext. intros k.
  now rewrite consume_consumeN.
Qed.

Lemma bonusDraws_length n w : length (bonusDraws n w) = n.
Proof. unfold bonusDraws. now rewrite length_map, length_seq. Qed.

Lemma bonusDraws_range n w :
  Forall (fun b => 1 <= b <= 3) (bonusDraws n w).
Proof.
  unfold bonusDraws. apply List.Forall_forall. intros b Hb.
  apply in_map_iff in Hb as (k & <- & _). apply nextInt_range. lia.
Qed.

(** The loop over the picks of the Gerente draws once per pick. *)
Lemma forEachM_addBonus picks : forall d w,
  forEachM addBonus picks d w
  = Some (addBonuses d (combine picks (bonusDraws (length picks) w)),
          consumeN (length picks) w).
Proof.
  induction picks as [|c picks IH]; intros d w.
  - simpl. unfold ret. now rewrite consumeN_0.
  - simpl length. rewrite bonusDraws_S. simpl.
    unfold bind at 1. unfold addBonus at 1. unfold bind, randomInt, ret.
    now rewrite IH, consume_consumeN.
Qed.

Lemma addBonuses_get pb : forall d c,
  c <> "__proto__"%string ->
  JS.orZero (JS.get (addBonuses d pb) c)
  = JS.orZero (JS.get d c)
    + sumZ (map snd (List.filter (fun p => String.eqb (fst p) c) pb)).
Proof.
  unfold addBonuses.
  induction pb as [|[k b] pb IH]; intros d c Hc; simpl.
  - lia.
  - rewrite IH by assumption. simpl. rewrite get_assign by assumption.
    destruct (String.eqb k c) eqn:E.
    + apply String.eqb_eq in E. subst k. rewrite orZero_Some. simpl. lia.
    + reflexivity.
Qed.

Lemma bonusFor_lower c picks bonuses :
  In c picks -> length bonuses = length picks ->
  Forall (fun b => 1 <= b <= 3) bonuses ->
  1 <= bonusFor c picks bonuses.
Proof.
  unfold bonusFor. revert bonuses.
  induction picks as [|p picks IH]; intros [|b bonuses] Hin Hlen Hb;
    simpl in *; try tauto; try discriminate.
  apply Forall_cons_iff in Hb as [Hb1 Hb]. injection Hlen as Hlen.
  assert (forall bs, length bs = length picks ->
            Forall (fun b => 1 <= b <= 3) bs ->
            0 <= sumZ (map snd (List.filter (fun q => String.eqb (fst q) c)
                                            (combine picks bs)))) as Hnn.
  { clear. induction picks as [|p picks IH]; intros [|b bs] Hl Hb;
      simpl in *; try lia; try discriminate.
    apply Forall_cons_iff in Hb as [Hb1 Hb]. injection Hl as Hl.
    specialize (IH bs Hl Hb).
    destruct (String.eqb p c); simpl; lia. }
  destruct (String.eqb p c) eqn:E; simpl.
  - specialize (Hnn bonuses Hlen Hb). lia.
  - apply String.eqb_neq in E. destruct Hin as [->|Hin]; [congruence|].
    now apply IH.
Qed.

Lemma bonusFor_upper c picks bonuses :
  List.NoDup picks -> length bonuses = length picks ->
  Forall (fun b => 1 <= b <= 3) bonuses ->
  bonusFor c picks bonuses <= 3.
Proof.
  unfold bonusFor. revert bonuses.
  induction picks as [|p picks IH]; intros [|b bonuses] Hnd Hlen Hb;
    simpl in *; try lia; try discriminate.
  apply Forall_cons_iff in Hb as [Hb1 Hb]. injection Hlen as Hlen.
  apply NoDup_cons_iff in Hnd as [Hp Hnd].
  destruct (String.eqb p c) eqn:E; simpl.
  - apply String.eqb_eq in E. subst p.
    rewrite filter_none; [simpl; lia|].
    intros [q b'] Hq. apply in_combine_l in Hq. simpl.
    apply String.eqb_neq. congruence.
  - now apply IH.
Qed.

Lemma bonusFor_absent c picks bonuses :
  ~ In c picks -> bonusFor c picks bonuses = 0.
Proof.
  intros Hn. unfold bonusFor. rewrite filter_none; [reflexivity|].
  intros [q b] Hq. apply in_combine_l in Hq. simpl.
  apply String.eqb_neq. congruence.
Qed.

End Entropy.

Section Steps.

Lemma filterIndex_all {A} (p : nat -> bool) (xs : list A) : forall k,
  (forall i, (k <= i)%nat -> p i = true) -> filterIndex p k xs = xs.
Proof.
  induction xs as [|x xs IH]; intros k H; simpl; [reflexivity|].
  rewrite H by lia. f_equal. apply IH. intros i Hi. apply H. lia.
Qed.

Lemma filterIndex_delete {A} (xs : list A) : forall k j,
  filterIndex (fun i => negb (Z.of_nat i =? Z.of_nat (k + j))) k xs
  = delete j xs.
Proof.
  induction xs as [|x xs IH]; intros k j; simpl; [reflexivity|].
  destruct j as [|j]; simpl.
  - rewrite Nat.add_0_r, Z.eqb_refl. simpl.
    apply filterIndex_all. intros i Hi.
    apply negb_true_iff, Z.eqb_neq. lia.
  - replace (Z.of_nat k =? Z.of_nat (k + S j)) with false
      by (symmetry; apply Z.eqb_neq; lia).
    simpl. f_equal. replace (k + S j)%nat with (S k + j)%nat by lia.
    apply IH.
Qed.

(** Without the option, or without ballots, nothing is discarded. *)
Lemma discardStep_off options votes w :
  discardOneRandomVote options = false \/ votes = [] ->
  discardStep options votes w = Some ((votes, None), w).
Proof.
  unfold discardStep.
  intros [-> | ->]; [reflexivity|]. now rewrite andb_false_r.
Qed.

(** With the option and a ballot, one ballot is drawn and left out. *)
Lemma discardStep_on options votes w :
  discardOneRandomVote options = true -> votes <> [] ->
  exists idx v,
    votes !! idx = Some v
    /\ Z.of_nat idx = nextInt 0 (Z.of_nat (length votes) - 1) w
    /\ discardStep options votes w
       = Some ((delete idx votes, Some (Vote.voterId v)), consume w).
Proof.
  intros Hopt Hne. unfold discardStep. rewrite Hopt.
  assert (0 < length votes)%nat as Hlen by (destruct votes; simpl; [congruence | lia]).
  replace (0 <? length votes)%nat with true by (symmetry; now apply Nat.ltb_lt).
  simpl. unfold bind, randomInt.
  pose proof (nextInt_range 0 (Z.of_nat (length votes) - 1) w ltac:(lia)) as Hr.
  set (idx := nextInt 0 (Z.of_nat (length votes) - 1) w) in *.
  destruct (votes !! Z.to_nat idx) as [v|] eqn:Hv.
  - exists (Z.to_nat idx), v. split; [assumption|]. split; [lia|].
    unfold ret. do 3 f_equal.
    rewrite <- (filterIndex_delete votes 0 (Z.to_nat idx)).
    simpl. now rewrite Z2Nat.id by lia.
  - apply lookup_ge_None in Hv. lia.
Qed.

Lemma discardStep_nonDiscarded options votes w used discarded w' :
  discardStep options votes w = Some ((used, discarded), w') ->
  nonDiscarded votes discarded used.
Proof.
  intros H.
  destruct (discardOneRandomVote options) eqn:Hopt;
    [destruct votes as [|v0 rest]|].
  - rewrite discardStep_off in H by auto. injection H as <- <- _. reflexivity.
  - destruct (discardStep_on options (v0 :: rest) w Hopt ltac:(discriminate))
      as (idx & v & Hv & _ & Hd).
    rewrite Hd in H. injection H as <- <- _. now exists idx, v.
  - rewrite discardStep_off in H by auto. injection H as <- <- _. reflexivity.
Qed.

Lemma findGerenteId_miss users us w :
  heap w !! users = Some (UserArray us) ->
  GERENTE_CACHE w !! users = None ->
  findGerenteId users w
  = Some (firstGerente us,
          setCache (<[users := firstGerente us]> (GERENTE_CACHE w)) w).
Proof.
  intros Hh Hc. unfold findGerenteId, readUsers. now rewrite Hc, Hh.
Qed.

Lemma findGerenteId_hit users g w :
  GERENTE_CACHE w !! users = Some g ->
  findGerenteId users w = Some (g, w).
Proof. intros Hc. unfold findGerenteId. now rewrite Hc. Qed.

(** [findGerenteId] leaves the heap and the randomness alone; the cache
    gains at most the entry of the roster. *)
Lemma findGerenteId_frame users g w w' :
  findGerenteId users w = Some (g, w') ->
  heap w' = heap w /\ crypto w' = crypto w /\ entropy w' = entropy w
  /\ drawn w' = drawn w
  /\ GERENTE_CACHE w' !! users = Some g
  /\ (GERENTE_CACHE w' = GERENTE_CACHE w
      \/ GERENTE_CACHE w !! users = None
         /\ GERENTE_CACHE w' = <[users := g]> (GERENTE_CACHE w)).
Proof.
  unfold findGerenteId, readUsers.
  destruct (GERENTE_CACHE w !! users) as [c|] eqn:Hc.
  - intros [= <- <-]. auto 10.
  - destruct (heap w !! users) as [[us| |]|]; try discriminate.
    intros [= <- <-]. simpl. rewrite lookup_insert_eq. auto 10.
Qed.

Lemma rankAndAward_unfold options gerenteId used w :
  rankAndAward options gerenteId used w
  = let sorted := JS.sort byVotesDesc (initialRows (tally used)) in
    let g := resolveGerente gerenteId in
    match gerenteBonus options g used (top3Days used g (take 3 sorted)) w with
    | Some (d, w') => Some (finalRows sorted d, w')
    | None => None
    end.
Proof. reflexivity. Qed.

(** The bonus step, case by case. *)
Lemma gerenteBonus_none options g used d w :
  enableGerenteBonus options = false \/ g = None
  \/ (exists g', g = Some g'
        /\ List.find (fun v => String.eqb (Vote.voterId v) g') used = None) ->
  gerenteBonus options g used d w = Some (d, w).
Proof.
  unfold gerenteBonus.
  intros [-> | [-> | (g' & -> & ->)]]; destruct (enableGerenteBonus options);
    reflexivity.
Qed.

Lemma gerenteBonus_some options g used ballot d w :
  enableGerenteBonus options = true ->
  List.find (fun v => String.eqb (Vote.voterId v) g) used = Some ballot ->
  gerenteBonus options (Some g) used d w
  = Some (addBonuses d (combine (Vote.picks ballot)
                                (bonusDraws (length (Vote.picks ballot)) w)),
          consumeN (length (Vote.picks ballot)) w).
Proof.
  intros He Hf. unfold gerenteBonus. rewrite He, Hf.
  apply forEachM_addBonus.
Qed.

Lemma gerenteBonus_total options g used d w :
  exists d' k, gerenteBonus options g used d w = Some (d', consumeN k w).
Proof.
  unfold gerenteBonus.
  destruct (enableGerenteBonus options), g as [g|];
    try (exists d, 0%nat; unfold ret; now rewrite consumeN_0).
  destruct (List.find _ used) as [b|].
  - rewrite forEachM_addBonus. eauto.
  - exists d, 0%nat. unfold ret. now rewrite consumeN_0.
Qed.

Lemma computeResults_inv nominations votes users options w res w' :
  computeResults nominations votes users options w = Some (res, w') ->
  exists gid w1 vs w2,
    findGerenteId users w = Some (gid, w1)
    /\ heap w !! votes = Some (VoteArray vs)
    /\ exists used,
         discardStep options vs w1
         = Some ((used, discardedVoterId res), w2)
         /\ rankAndAward options gid used w2 = Some (rows res, w').
Proof.
  unfold computeResults, bind.
  destruct (findGerenteId users w) as [[gid w1]|] eqn:Hg; [|discriminate].
  unfold readVotes.
  destruct (heap w1 !! votes) as [[|vs|]|] eqn:Hv; try discriminate.
  destruct (discardStep options vs w1) as [[[used disc] w2]|] eqn:Hd;
    [|discriminate].
  simpl.
  destruct (rankAndAward options gid used w2) as [[rs w3]|] eqn:Hr;
    [|discriminate].
  unfold ret. intros [= <- <-]. simpl.
  apply findGerenteId_frame in Hg as Hf. destruct Hf as (Hh & _).
  exists gid, w1, vs, w2. rewrite <- Hh. eauto 10.
Qed.

(** [computeResults] returns whenever its arguments refer to a ballot
    array and a roster array. *)
Lemma computeResults_returns nominations votes users options w vs us :
  heap w !! votes = Some (VoteArray vs) ->
  heap w !! users = Some (UserArray us) ->
  exists res w', computeResults nominations votes users options w
                 = Some (res, w').
Proof.
  intros Hv Hu. unfold computeResults, bind.
  assert (exists g w1, findGerenteId users w = Some (g, w1)) as (g & w1 & Hg).
  { destruct (GERENTE_CACHE w !! users) as [c|] eqn:Hc.
    - rewrite (findGerenteId_hit _ _ _ Hc). eauto.
    - rewrite (findGerenteId_miss _ _ _ Hu Hc). eauto. }
  rewrite Hg. apply findGerenteId_frame in Hg as (Hh & _).
  unfold readVotes. rewrite Hh, Hv.
  assert (exists ud w2, discardStep options vs w1 = Some (ud, w2))
    as ([used disc] & w2 & Hd).
  { destruct (discardOneRandomVote options) eqn:Ho;
      [destruct vs as [|v0 vs']|].
    - rewrite discardStep_off by auto. eauto.
    - destruct (discardStep_on options (v0 :: vs') w1 Ho ltac:(discriminate))
        as (idx & v & _ & _ & ->). eauto.
    - rewrite discardStep_off by auto. eauto. }
  rewrite Hd. simpl. rewrite rankAndAward_unfold. simpl.
  destruct (gerenteBonus_total options (resolveGerente g) used
              (top3Days used (resolveGerente g)
                 (take 3 (JS.sort byVotesDesc (initialRows (tally used))))) w2)
    as (d' & k & ->).
  unfold ret. eauto.
Qed.

End Steps.

Section Rows.

Lemma In_imap_inv {A B} (l : list A) : forall (f : nat -> A -> B) v,
  In v (imap f l) -> exists j y, l !! j = Some y /\ v = f j y.
Proof.
  induction l as [|a l IH]; intros f v; simpl; [tauto|].
  intros [<- | Hin].
  - now exists 0%nat, a.
  - apply IH in Hin as (j & y & Hy & ->). now exists (S j), y.
Qed.

Lemma before_imap_inv {A B} (l : list A) : forall (f : nat -> A -> B) u v,
  before u v (imap f l) ->
  exists i j x y, before x y l /\ l !! i = Some x /\ l !! j = Some y
                  /\ u = f i x /\ v = f j y.
Proof.
  induction l as [|a l IH]; intros f u v; simpl.
  - intros H. now apply before_nil in H.
  - intros H. apply before_cons in H as [[-> Hin] | H].
    + apply In_imap_inv in Hin as (j & y & Hy & ->).
      exists 0%nat, (S j), a, y. repeat split; auto.
      apply before_cons. left. split; [reflexivity|].
      apply list_elem_of_In. eapply list_elem_of_lookup_2. exact Hy.
    + apply IH in H as (i & j & x & y & Hb & Hx & Hy & -> & ->).
      exists (S i), (S j), x, y. repeat split; auto.
      apply before_cons. now right.
Qed.

Lemma map_imap {A B C} (g : B -> C) (g' : A -> C) (l : list A) :
  forall (f : nat -> A -> B),
    (forall i x, g (f i x) = g' x) -> map g (imap f l) = map g' l.
Proof.
  induction l as [|a l IH]; intros f H; simpl; [reflexivity|].
  rewrite H. f_equal. apply IH. intros i x. apply H.
Qed.

Lemma finalRows_lookup rs d i r :
  finalRows rs d !! i = Some r <->
  exists r0, rs !! i = Some r0
    /\ r = ResultRow.mk (ResultRow.candidateId r0) (ResultRow.votes r0)
             (if (i <? 3)%nat
              then JS.orZero (JS.get d (ResultRow.candidateId r0))
              else 0).
Proof.
  unfold finalRows. rewrite list_lookup_imap.
  destruct (rs !! i) as [r0|]; simpl.
  - split; [intros [= <-]; eauto | intros (r1 & [= <-] & ->); reflexivity].
  - split; [discriminate | intros (r1 & [=] & _)].
Qed.

Lemma finalRows_votes rs d :
  map ResultRow.votes (finalRows rs d) = map ResultRow.votes rs.
Proof. unfold finalRows. now apply map_imap. Qed.

Lemma initialRows_ids counts :
  map ResultRow.candidateId (initialRows counts) = JS.keys counts.
Proof.
  unfold initialRows. rewrite map_map. simpl. apply map_id.
Qed.

Lemma initialRows_votes counts :
  map ResultRow.votes (initialRows counts)
  = map (fun k => JS.orZero (JS.get counts k)) (JS.keys counts).
Proof.
  unfold initialRows. rewrite map_map. apply map_ext. intros k. simpl.
  apply read_orZero.
Qed.

Lemma sortedRows_perm used :
  Permutation (sortedRows used) (initialRows (tally used)).
Proof. apply sort_perm. Qed.

(** The tallies of the rows add up to the number of picks counted. *)
Lemma sortedRows_sum used :
  sumZ (map ResultRow.votes (sortedRows used))
  = Z.of_nat (length (counted (allPicks used))).
Proof.
  rewrite (sumZ_perm _ _ (Permutation_map _ (sortedRows_perm used))).
  rewrite initialRows_votes.
  rewrite (sumZ_perm _ _ (Permutation_map _ (keys_perm (tally used)))).
  rewrite sum_get_keys, tally_sum; [reflexivity|].
  rewrite tally_keys. apply firstSeen_NoDup.
Qed.

Lemma sortedRows_ids_NoDup used :
  List.NoDup (map ResultRow.candidateId (sortedRows used)).
Proof.
  eapply Permutation_NoDup.
  - symmetry. apply Permutation_map, sortedRows_perm.
  - rewrite initialRows_ids. apply keys_NoDup.
    rewrite tally_keys. apply firstSeen_NoDup.
Qed.

Lemma sortedRows_sorted used :
  StronglySorted (fun a b => ResultRow.votes b <= ResultRow.votes a)
                 (sortedRows used).
Proof.
  pose proof (sort_sorted byVotesDesc (fun r => - ResultRow.votes r)
                (fun _ => True)) as H.
  simpl in H.
  assert (StronglySorted
            (fun a b => - ResultRow.votes a <= - ResultRow.votes b)
            (sortedRows used)) as Hs.
  { apply H.
    - intros x y _ _. unfold byVotesDesc. lia.
    - apply List.Forall_forall. auto. }
  clear H. induction Hs as [|a l Hs IH Hall]; constructor; [assumption|].
  eapply List.Forall_impl; [|exact Hall]. simpl. intros; lia.
Qed.

(** Rows with the same tally stay in the order of [Object.keys]. *)
Lemma sortedRows_stable used r1 r2 :
  before r1 r2 (sortedRows used) ->
  ResultRow.votes r1 = ResultRow.votes r2 ->
  before (ResultRow.candidateId r1) (ResultRow.candidateId r2)
         (JS.keys (tally used)).
Proof.
  intros Hb Hv. rewrite <- initialRows_ids. apply before_map.
  apply (sort_stable byVotesDesc (fun r => - ResultRow.votes r)
           (fun _ => True)); try assumption.
  - intros x y _ _. unfold byVotesDesc. lia.
  - apply List.Forall_forall. auto.
  - lia.
Qed.

Lemma rankAndAward_eq options gerenteId used w :
  let g := resolveGerente gerenteId in
  let picks := bonusPicks options g used in
  rankAndAward options gerenteId used w
  = Some (finalRows (sortedRows used)
            (addBonuses (top3Days used g (take 3 (sortedRows used)))
                        (combine picks (bonusDraws (length picks) w))),
          consumeN (length picks) w).
Proof.
  simpl. rewrite rankAndAward_unfold. simpl. fold (sortedRows used).
  unfold bonusPicks.
  destruct (enableGerenteBonus options) eqn:He;
    [destruct (resolveGerente gerenteId) as [g|] eqn:Hg;
     [destruct (List.find (fun v => String.eqb (Vote.voterId v) g) used)
        as [b|] eqn:Hf|]|].
  - now rewrite (gerenteBonus_some _ _ _ b) by assumption.
  - rewrite gerenteBonus_none by eauto 6. simpl. now rewrite consumeN_0.
  - rewrite gerenteBonus_none by eauto. simpl. now rewrite consumeN_0.
  - rewrite gerenteBonus_none by eauto. simpl. now rewrite consumeN_0.
Qed.

Lemma top3Days_get used g top3 c :
  c <> "__proto__"%string ->
  forall d,
    JS.get (foldl (fun d r => JS.assign d (ResultRow.candidateId r)
                                (baseDays used g (ResultRow.candidateId r)))
                  d top3) c
    = if hasKey (map ResultRow.candidateId top3) c
      then Some (baseDays used g c)
      else JS.get d c.
Proof.
  intros Hc. induction top3 as [|r top3 IH]; intros d; simpl; [reflexivity|].
  rewrite IH. unfold hasKey. simpl.
  destruct (existsb (String.eqb c) (map ResultRow.candidateId top3));
    [now rewrite orb_true_r|].
  rewrite orb_false_r, get_assign, (String.eqb_sym c) by assumption.
  destruct (String.eqb (ResultRow.candidateId r) c) eqn:E; [|reflexivity].
  apply String.eqb_eq in E. now subst c.
Qed.

(** No row is made for [__proto__]. *)
Lemma sortedRows_ids used r :
  In r (sortedRows used) ->
  In (ResultRow.candidateId r) (allPicks used)
  /\ ResultRow.candidateId r <> "__proto__"%string.
Proof.
  intros H. apply (Permutation_in _ (sortedRows_perm used)) in H.
  apply (in_map ResultRow.candidateId) in H. rewrite initialRows_ids in H.
  apply (Permutation_in _ (keys_perm (tally used))) in H.
  rewrite tally_keys in H. apply (proj1 (firstSeen_In _ _)) in H.
  exact (proj1 (counted_In _ _) H).
Qed.

(** The day award of each returned row: for the first three rows the base
    award plus the bonuses drawn for the candidate, and [0] further down. *)
Lemma rankAndAward_row options gerenteId used w rs w' i r :
  rankAndAward options gerenteId used w = Some (rs, w') ->
  rs !! i = Some r ->
  let g := resolveGerente gerenteId in
  let picks := bonusPicks options g used in
  exists r0,
    sortedRows used !! i = Some r0
    /\ ResultRow.candidateId r = ResultRow.candidateId r0
    /\ ResultRow.votes r = ResultRow.votes r0
    /\ ResultRow.days r
       = if (i <? 3)%nat
         then baseDays used g (ResultRow.candidateId r)
              + bonusFor (ResultRow.candidateId r) picks
                         (bonusDraws (length picks) w)
         else 0.
Proof.
  intros Hrun Hr. simpl. rewrite rankAndAward_eq in Hrun.
  injection Hrun as <- <-.
  apply finalRows_lookup in Hr as (r0 & Hr0 & ->). simpl.
  exists r0. repeat split; [assumption|].
  destruct (i <? 3)%nat eqn:Hi; [|reflexivity].
  apply Nat.ltb_lt in Hi.
  assert (ResultRow.candidateId r0 <> "__proto__"%string) as Hproto.
  { apply (sortedRows_ids used). apply list_elem_of_In.
    eapply list_elem_of_lookup_2. exact Hr0. }
  rewrite addBonuses_get by assumption. unfold bonusFor. f_equal.
  unfold top3Days. rewrite top3Days_get by assumption.
  replace (hasKey _ _) with true; [apply orZero_Some|].
  symmetry. apply hasKey_In. apply in_map.
  apply list_elem_of_In. apply (list_elem_of_lookup_2 _ i).
  rewrite lookup_take_lt by assumption. exact Hr0.
Qed.

End Rows.

Section BaseDays.

Lemma uniqueVoters_list used cid :
  uniqueVoters used cid
  = list_to_set (map Vote.voterId
                     (List.filter (fun v => includes (Vote.picks v) cid) used)).
Proof.
  unfold uniqueVoters.
  assert (forall s : gset string,
            foldl (fun s v => if includes (Vote.picks v) cid
                              then s ∪ {[Vote.voterId v]} else s) s used
            = s ∪ list_to_set
                    (map Vote.voterId
                         (List.filter (fun v => includes (Vote.picks v) cid) used)))
    as H.
  { induction used as [|v used IH]; intros s; simpl.
    - now rewrite (right_id_L ∅ (∪)).
    - rewrite IH. destruct (includes (Vote.picks v) cid); simpl;
        [now rewrite (assoc_L (∪)) | reflexivity]. }
  rewrite H. apply (left_id_L ∅ (∪)).
Qed.

Lemma uniqueVoters_size used cid :
  size (uniqueVoters used cid) = length (distinctVoters used cid).
Proof.
  rewrite uniqueVoters_list. unfold distinctVoters.
  set (l := map Vote.voterId _).
  rewrite <- (size_list_to_set (C := gset string) (List.nodup string_dec l)).
  - f_equal. apply set_eq. intros x.
    rewrite !elem_of_list_to_set, !list_elem_of_In. symmetry. apply nodup_In.
  - apply NoDup_ListNoDup, List.NoDup_nodup.
Qed.

Lemma uniqueVoters_elem used cid g :
  g ∈ uniqueVoters used cid <-> votedFor g used cid = true.
Proof.
  rewrite uniqueVoters_list, elem_of_list_to_set, list_elem_of_In, in_map_iff.
  unfold votedFor. rewrite existsb_exists. split.
  - intros (v & <- & Hv). apply filter_In in Hv as [Hin Hp].
    exists v. now rewrite String.eqb_refl, Hp.
  - intros (v & Hin & Hv). apply andb_true_iff in Hv as [E Hp].
    apply String.eqb_eq in E. exists v. split; [assumption|].
    apply filter_In. auto.
Qed.

Lemma resolveGerente_id gerenteId :
  gerenteId <> Some ""%string -> resolveGerente gerenteId = gerenteId.
Proof.
  destruct gerenteId as [g|]; simpl; [|reflexivity].
  destruct (String.eqb g "") eqn:E; [|reflexivity].
  apply String.eqb_eq in E. subst. congruence.
Qed.

(** The three [if]s of the loop over [top3] amount to the table. *)
Lemma baseDays_table used g cid :
  baseDays used g cid
  = dayTable (length (distinctVoters used cid)) (gerenteAmong g used cid).
Proof.
  unfold baseDays. rewrite uniqueVoters_size.
  assert (match g with
          | Some g0 => bool_decide (g0 ∈ uniqueVoters used cid)
          | None => false
          end = gerenteAmong g used cid) as ->.
  { destruct g as [g|]; simpl; [|reflexivity].
    destruct (votedFor g used cid) eqn:E.
    - apply bool_decide_eq_true, uniqueVoters_elem, E.
    - apply bool_decide_eq_false. rewrite uniqueVoters_elem. congruence. }
  destruct (length (distinctVoters used cid)) as [|[|[|n]]];
    destruct (gerenteAmong g used cid); try reflexivity.
  - replace (2 <=? Z.of_nat (S (S (S n)))) with true by (symmetry; apply Z.leb_le; lia).
    replace (3 <=? Z.of_nat (S (S (S n)))) with true by (symmetry; apply Z.leb_le; lia).
    reflexivity.
  - replace (2 <=? Z.of_nat (S (S (S n)))) with true by (symmetry; apply Z.leb_le; lia).
    replace (3 <=? Z.of_nat (S (S (S n)))) with true by (symmetry; apply Z.leb_le; lia).
    reflexivity.
Qed.

Lemma dayTable_range n b : 0 <= dayTable n b <= 3.
Proof. destruct n as [|[|[|n]]], b; simpl; lia. Qed.

End BaseDays.

(** * [computeResults] as a whole *)

Section Run.

Lemma allPicks_occurrences vs :
  Z.of_nat (length (allPicks vs)) = pickOccurrences vs.
Proof.
  unfold allPicks, pickOccurrences, sumZ.
  induction vs as [|v vs IH]; simpl; [reflexivity|].
  rewrite length_app. lia.
Qed.

Lemma allPicks_delete vs idx c :
  In c (allPicks (delete idx vs)) -> In c (allPicks vs).
Proof.
  unfold allPicks. rewrite !in_flat_map. intros (v & Hv & Hc).
  exists v. split; [|assumption].
  apply list_elem_of_In. apply list_elem_of_In in Hv.
  eapply list_elem_of_delete_inv. exact Hv.
Qed.

Lemma nonDiscarded_picks vs disc used c :
  nonDiscarded vs disc used -> In c (allPicks used) -> In c (allPicks vs).
Proof.
  destruct disc as [d|]; simpl.
  - intros (idx & v & _ & _ & ->). apply allPicks_delete.
  - now intros ->.
Qed.

(** What one call does: look the Gerente up, discard at most one ballot,
    rank the candidates of the ballots that count and award the days. *)
Lemma computeResults_run nominations votes users options w vs res w' :
  heap w !! votes = Some (VoteArray vs) ->
  computeResults nominations votes users options w = Some (res, w') ->
  exists gid w1 used w2,
    findGerenteId users w = Some (gid, w1)
    /\ discardStep options vs w1 = Some ((used, discardedVoterId res), w2)
    /\ nonDiscarded vs (discardedVoterId res) used
    /\ rankAndAward options gid used w2 = Some (rows res, w')
    /\ let picks := bonusPicks options (resolveGerente gid) used in
       w' = consumeN (length picks) w2
       /\ rows res
          = finalRows (sortedRows used)
              (addBonuses
                 (top3Days used (resolveGerente gid) (take 3 (sortedRows used)))
                 (combine picks (bonusDraws (length picks) w2))).
Proof.
  intros Hv Hrun.
  apply computeResults_inv in Hrun
    as (gid & w1 & vs' & w2 & Hg & Hv' & used & Hd & Hr).
  rewrite Hv in Hv'. injection Hv' as <-.
  exists gid, w1, used, w2. repeat split; try assumption.
  - eapply discardStep_nonDiscarded. exact Hd.
  - rewrite rankAndAward_eq in Hr. now injection Hr.
  - rewrite rankAndAward_eq in Hr. now injection Hr.
Qed.

Lemma byFallingVotes_votes rs rs' :
  map ResultRow.votes rs = map ResultRow.votes rs' ->
  byFallingVotes rs -> byFallingVotes rs'.
Proof.
  unfold byFallingVotes. revert rs'.
  induction rs as [|r rs IH]; intros [|r' rs'] Hm Hs;
    simpl in Hm; try discriminate; [constructor|].
  injection Hm as Hr Hm. apply StronglySorted_inv in Hs as [Hs Hall].
  constructor; [now apply IH|].
  rewrite List.Forall_forall in *. intros x Hx.
  apply (in_map ResultRow.votes) in Hx. rewrite <- Hm in Hx.
  apply in_map_iff in Hx as (y & Hy & Hin). specialize (Hall y Hin). lia.
Qed.

Lemma finalRows_before rs d r1 r2 :
  before r1 r2 (finalRows rs d) ->
  exists x y, before x y rs
    /\ ResultRow.candidateId r1 = ResultRow.candidateId x
    /\ ResultRow.candidateId r2 = ResultRow.candidateId y
    /\ ResultRow.votes r1 = ResultRow.votes x
    /\ ResultRow.votes r2 = ResultRow.votes y.
Proof.
  unfold finalRows. intros H.
  apply before_imap_inv in H as (i & j & x & y & Hb & _ & _ & -> & ->).
  exists x, y. auto.
Qed.

(** The memo table stays truthful, since no array is written to. *)
Lemma findGerenteId_coherent users g w w' :
  coherent w -> findGerenteId users w = Some (g, w') -> coherent w'.
Proof.
  intros Hc. unfold findGerenteId, readUsers.
  destruct (GERENTE_CACHE w !! users) as [c|] eqn:Hm.
  - now intros [= <- <-].
  - destruct (heap w !! users) as [[us| |]|] eqn:Hh; try discriminate.
    intros [= <- <-]. intros r g'. simpl.
    destruct (decide (users = r)) as [<-|Hne].
    + rewrite lookup_insert_eq. intros [= <-]. eauto.
    + rewrite lookup_insert_ne by assumption. apply Hc.
Qed.

Lemma findGerenteId_value users us g w w' :
  coherent w -> heap w !! users = Some (UserArray us) ->
  findGerenteId users w = Some (g, w') -> g = firstGerente us.
Proof.
  intros Hc Hh. unfold findGerenteId, readUsers.
  destruct (GERENTE_CACHE w !! users) as [c|] eqn:Hm.
  - intros [= <- <-]. destruct (Hc _ _ Hm) as (us' & Hh' & ->).
    rewrite Hh in Hh'. now injection Hh' as <-.
  - rewrite Hh. now intros [= <- <-].
Qed.

Lemma find_first {A} (p : A -> bool) (l : list A) :
  match List.find p l with
  | Some x => exists pre post,
      l = pre ++ x :: post /\ p x = true /\ Forall (fun y => p y = false) pre
  | None => Forall (fun y => p y = false) l
  end.
Proof.
  induction l as [|a l IH]; simpl; [constructor|].
  destruct (p a) eqn:E.
  - exists [], l. repeat split; [assumption | constructor].
  - destruct (List.find p l) as [x|].
    + destruct IH as (pre & post & -> & Hx & Hpre).
      exists (a :: pre), post. repeat split; [assumption|].
      now constructor.
    + now constructor.
Qed.

End Run.

Section Awards.

(** The day award of every returned row, for any setting of the options. *)
Lemma computeResults_days nominations votes users options w vs us :
  coherent w ->
  heap w !! votes = Some (VoteArray vs) ->
  heap w !! users = Some (UserArray us) ->
  exists res w' used bonuses,
    computeResults nominations votes users options w = Some (res, w')
    /\ nonDiscarded vs (discardedVoterId res) used
    /\ let g := resolveGerente (firstGerente us) in
       let picks := bonusPicks options g used in
       length bonuses = length picks
       /\ Forall (fun b => 1 <= b <= 3) bonuses
       /\ forall i r, rows res !! i = Some r ->
            ResultRow.days r
            = if (i <? 3)%nat
              then baseDays used g (ResultRow.candidateId r)
                   + bonusFor (ResultRow.candidateId r) picks bonuses
              else 0.
Proof.
  intros Hc Hv Hu.
  destruct (computeResults_returns nominations votes users options w vs us Hv Hu)
    as (res & w' & Hrun).
  destruct (computeResults_run _ _ _ _ _ _ _ _ Hv Hrun)
    as (gid & w1 & used & w2 & Hg & Hd & Hnd & Hr & _).
  pose proof (findGerenteId_value _ _ _ _ _ Hc Hu Hg) as ->.
  exists res, w', used,
    (bonusDraws (length (bonusPicks options
                           (resolveGerente (firstGerente us)) used)) w2).
  split; [assumption|]. split; [assumption|]. simpl.
  split; [apply bonusDraws_length|]. split; [apply bonusDraws_range|].
  intros i r Hi.
  destruct (rankAndAward_row _ _ _ _ _ _ i r Hr Hi) as (r0 & _ & _ & _ & Hdays).
  exact Hdays.
Qed.

(** With both options off the result is a function of the contents of the
    ballot array and of the roster. *)
Lemma computeResults_plain_value nominations votes users w vs us res w' :
  coherent w ->
  heap w !! votes = Some (VoteArray vs) ->
  heap w !! users = Some (UserArray us) ->
  computeResults nominations votes users (mkOptions false false) w
  = Some (res, w') ->
  res = mkResults
          (finalRows (sortedRows vs)
             (top3Days vs (resolveGerente (firstGerente us))
                       (take 3 (sortedRows vs))))
          None.
Proof.
  intros Hc Hv Hu Hrun.
  destruct (computeResults_run _ _ _ _ _ _ _ _ Hv Hrun)
    as (gid & w1 & used & w2 & Hg & Hd & _ & _ & _ & Hrows).
  pose proof (findGerenteId_value _ _ _ _ _ Hc Hu Hg) as ->.
  rewrite discardStep_off in Hd by auto. injection Hd as <- Hnone _.
  destruct res as [rs disc]. simpl in *. subst disc. f_equal. exact Hrows.
Qed.

(** The memo table is truthful when the module is loaded and stays so from
    call to call. *)
Lemma coherent_empty w : GERENTE_CACHE w = ∅ -> coherent w.
Proof. intros He r g H. rewrite He, lookup_empty in H. discriminate. Qed.

Lemma computeResults_coherent nominations votes users options w res w' :
  coherent w ->
  computeResults nominations votes users options w = Some (res, w') ->
  coherent w'.
Proof.
  intros Hc Hrun.
  apply computeResults_inv in Hrun
    as (gid & w1 & vs & w2 & Hg & _ & used & Hd & Hr).
  pose proof (findGerenteId_coherent _ _ _ _ Hc Hg) as Hc1.
  assert (heap w2 = heap w1 /\ GERENTE_CACHE w2 = GERENTE_CACHE w1) as [Hh2 Hm2].
  { destruct (discardOneRandomVote options) eqn:Ho;
      [destruct vs as [|v0 rest]|].
    - rewrite discardStep_off in Hd by auto. now injection Hd as _ _ <-.
    - destruct (discardStep_on options (v0 :: rest) w1 Ho ltac:(discriminate))
        as (idx & v & _ & _ & Hd').
      rewrite Hd' in Hd. now injection Hd as _ _ <-.
    - rewrite discardStep_off in Hd by auto. now injection Hd as _ _ <-. }
  rewrite rankAndAward_eq in Hr. injection Hr as _ <-.
  intros r g. simpl. rewrite Hh2, Hm2. apply Hc1.
Qed.

End Awards.

(** * The properties of the specification *)

(** Without the discard, the tallies of the returned rows add up to the
    number of picks on the ballots, a candidate listed twice on one ballot
    being counted twice; the picks of [__proto__] are not in the count. *)
Lemma tally_counts_stored_picks nominations votes users bonus w vs us :
  heap w !! votes = Some (VoteArray vs) ->
  heap w !! users = Some (UserArray us) ->
  exists res w',
    computeResults nominations votes users (mkOptions false bonus) w
    = Some (res, w')
    /\ sumZ (map ResultRow.votes (rows res))
       = Z.of_nat (length (counted (allPicks vs)))
    /\ (Forall (fun c => c <> "__proto__"%string) (allPicks vs) ->
        sumZ (map ResultRow.votes (rows res)) = pickOccurrences vs).
Proof.
  intros Hv Hu.
  destruct (computeResults_returns nominations votes users
              (mkOptions false bonus) w vs us Hv Hu) as (res & w' & Hrun).
  exists res, w'. split; [assumption|].
  destruct (computeResults_run _ _ _ _ _ _ _ _ Hv Hrun)
    as (gid & w1 & used & w2 & _ & Hd & _ & _ & _ & Hrows).
  rewrite discardStep_off in Hd by auto. injection Hd as <- _ _.
  rewrite Hrows, finalRows_votes, sortedRows_sum. split; [reflexivity|].
  intros Hplain. rewrite counted_all by assumption.
  apply allPicks_occurrences.
Qed.

(** C3.  Without the discard the tallies of the returned rows are meant to
    add up to the number of picks on the ballots.  They do not on a ballot
    that lists [__proto__]: that pick leaves no trace in [counts], so the
    ballot has two picks and the tallies of the returned rows add up to
    one. *)
Theorem tally_misses_proto_pick :
  match run gerenteOnly protoBallot (mkOptions false false) with
  | Some (res, _) =>
      rows res = [ResultRow.mk "u1" 1 0]
      /\ sumZ (map ResultRow.votes (rows res)) = 1
      /\ pickOccurrences protoBallot = 2
  | None => False
  end.
Proof. vm_compute. auto. Qed.

Section KeyOrder.

Local Open Scope N_scope.

Lemma digit_bound c d : JS.digit c = Some d -> d <= 9.
Proof.
  unfold JS.digit. destruct ((48 <=? N_of_ascii c) && (N_of_ascii c <=? 57)) eqn:E;
    [|discriminate].
  apply andb_true_iff in E as [H1 H2]. apply N.leb_le in H1, H2.
  intros [= <-]. lia.
Qed.

Lemma digit_inj c1 c2 d : JS.digit c1 = Some d -> JS.digit c2 = Some d -> c1 = c2.
Proof.
  unfold JS.digit.
  destruct ((48 <=? N_of_ascii c1) && (N_of_ascii c1 <=? 57)) eqn:E1;
    [|discriminate].
  destruct ((48 <=? N_of_ascii c2) && (N_of_ascii c2 <=? 57)) eqn:E2;
    [|discriminate].
  apply andb_true_iff in E1 as [H1 _], E2 as [H2 _]. apply N.leb_le in H1, H2.
  intros [= <-] [= H].
  rewrite <- (ascii_N_embedding c1), <- (ascii_N_embedding c2). f_equal. lia.
Qed.

Lemma digit_zero c : JS.digit c = Some 0 -> c = "0"%char.
Proof. intros H. now apply (digit_inj c "0" 0). Qed.

(** The digits read so far shift to the left of those still to read. *)
Lemma digits_acc s : forall acc,
  JS.digits s acc
  = match JS.digits s 0 with
    | Some v => Some (acc * 10 ^ N.of_nat (String.length s) + v)
    | None => None
    end.
Proof.
  induction s as [|c s IH]; intros acc.
  - simpl. f_equal. lia.
  - cbn [JS.digits]. destruct (JS.digit c) as [d|]; [|reflexivity].
    rewrite (IH (10 * acc + d)), (IH (10 * 0 + d)).
    destruct (JS.digits s 0) as [v|]; [|reflexivity]. f_equal.
    cbn [String.length]. rewrite Nat2N.inj_succ, N.pow_succ_r'. lia.
Qed.

Lemma digits_bound s : forall v, JS.digits s 0 = Some v -> v < 10 ^ N.of_nat (String.length s).
Proof.
  induction s as [|c s IH]; intros v.
  - simpl. intros [= <-]. lia.
  - cbn [JS.digits]. destruct (JS.digit c) as [d|] eqn:Ed; [|discriminate].
    rewrite digits_acc. destruct (JS.digits s 0) as [v'|]; [|discriminate].
    intros [= <-]. specialize (IH v' eq_refl). apply digit_bound in Ed.
    cbn [String.length]. rewrite Nat2N.inj_succ, N.pow_succ_r'. nia.
Qed.

Lemma digits_inj s : forall t v,
  String.length s = String.length t ->
  JS.digits s 0 = Some v -> JS.digits t 0 = Some v -> s = t.
Proof.
  induction s as [|c s IH]; intros [|c' t] v Hlen; try discriminate;
    [reflexivity|].
  injection Hlen as Hlen. cbn [JS.digits].
  destruct (JS.digit c) as [d|] eqn:Ed; [|discriminate].
  destruct (JS.digit c') as [d'|] eqn:Ed'; [|discriminate].
  rewrite (digits_acc s), (digits_acc t).
  destruct (JS.digits s 0) as [vs|] eqn:Es; [|discriminate].
  destruct (JS.digits t 0) as [vt|] eqn:Et; [|discriminate].
  intros [= <-] [= H].
  pose proof (digits_bound s vs Es). pose proof (digits_bound t vt Et).
  rewrite <- Hlen in *.
  set (p := 10 ^ N.of_nat (String.length s)) in *.
  assert (d' = d /\ vt = vs) as [-> ->].
  { destruct (N.lt_trichotomy d d') as [Hd | [Hd | Hd]]; nia. }
  f_equal; [eapply digit_inj; eauto | eapply IH; eauto].
Qed.

(** An array index is written in digits, without a leading zero unless it
    is ["0"]. *)
Lemma arrayIndex_digits s n :
  JS.arrayIndex s = Some n ->
  JS.digits s 0 = Some n
  /\ match s with
     | EmptyString => False
     | String c EmptyString => True
     | String c _ => 10 ^ (N.of_nat (String.length s) - 1) <= n
     end.
Proof.
  destruct s as [|c [|c' s]]; [discriminate | |].
  - cbn [JS.arrayIndex JS.digits]. intros H. rewrite H. split; [|exact I].
    f_equal; lia.
  - cbn [JS.arrayIndex]. destruct (Ascii.eqb c "0") eqn:E0; [discriminate|].
    remember (String c' s) as rest eqn:Hrest.
    destruct (JS.digits (String c rest) 0) as [v|] eqn:Ev; [|discriminate].
    destruct (v <? 2 ^ 32 - 1); [|discriminate]. intros [= <-].
    split; [reflexivity|].
    cbn [JS.digits] in Ev. destruct (JS.digit c) as [d|] eqn:Ed; [|discriminate].
    rewrite digits_acc in Ev.
    destruct (JS.digits rest 0) as [v'|]; [|discriminate].
    injection Ev as <-.
    assert (d <> 0).
    { intros ->. apply digit_zero in Ed. subst c. discriminate. }
    replace (N.of_nat (String.length (String c rest)) - 1)
      with (N.of_nat (String.length rest)) by (cbn [String.length]; lia).
    nia.
Qed.

Lemma arrayIndex_inj a b n :
  JS.arrayIndex a = Some n -> JS.arrayIndex b = Some n -> a = b.
Proof.
  intros Ha Hb.
  apply arrayIndex_digits in Ha as [Da La], Hb as [Db Lb].
  destruct (Nat.eq_dec (String.length a) (String.length b)) as [E|E].
  { eapply digits_inj; eauto. }
  exfalso.
  pose proof (digits_bound a n Da) as Ba. pose proof (digits_bound b n Db) as Bb.
  assert (forall s t : string,
            (String.length s < String.length t)%nat ->
            10 ^ N.of_nat (String.length s) <= 10 ^ (N.of_nat (String.length t) - 1)) as Hpow.
  { intros s t H. apply N.pow_le_mono_r; lia. }
  destruct (Nat.lt_ge_cases (String.length a) (String.length b)) as [Hlt|Hge].
  - destruct b as [|c [|c' b]]; [destruct Lb | simpl in Hlt; destruct a; simpl in *; [tauto|lia] |].
    pose proof (Hpow a _ Hlt). lia.
  - assert (String.length b < String.length a)%nat as Hlt by lia.
    destruct a as [|c [|c' a]]; [destruct La | simpl in Hlt; destruct b; simpl in *; [tauto|lia] |].
    pose proof (Hpow b _ Hlt). lia.
Qed.

End KeyOrder.

Section TieOrder.

Lemma before_app_inv {A} (x y : A) l1 l2 :
  before x y (l1 ++ l2) ->
  before x y l1 \/ (In x l1 /\ In y l2) \/ before x y l2.
Proof.
  induction l1 as [|a l1 IH]; simpl; [auto|].
  intros H. apply before_cons in H as [[-> Hin] | H].
  - apply in_app_or in Hin as [Hin | Hin].
    + left. apply before_cons. now left.
    + right. left. split; [now left | assumption].
  - destruct (IH H) as [H1 | [[H1 H2] | H1]].
    + left. apply before_cons. now right.
    + right. left. split; [now right | assumption].
    + now right; right.
Qed.

Lemma before_sorted {A} (R : A -> A -> Prop) (x y : A) l :
  StronglySorted R l -> before x y l -> R x y.
Proof.
  induction 1 as [|a l Hs IH Hall]; intros Hb.
  - now apply before_nil in Hb.
  - apply before_cons in Hb as [[-> Hin] | Hb]; [|auto].
    rewrite List.Forall_forall in Hall. now apply Hall.
Qed.

Lemma before_distinct {A} (x y : A) l : List.NoDup l -> before x y l -> x <> y.
Proof. intros Hnd Hb ->. exact (before_asym y y l Hnd Hb Hb). Qed.

Lemma isArrayIndex_true k :
  JS.isArrayIndex k = true -> exists i, JS.arrayIndex k = Some i.
Proof. unfold JS.isArrayIndex. destruct (JS.arrayIndex k); [eauto | discriminate]. Qed.

Lemma isArrayIndex_false k :
  JS.isArrayIndex k = false -> JS.arrayIndex k = None.
Proof. unfold JS.isArrayIndex. now destruct (JS.arrayIndex k). Qed.

(** The order of [Object.keys], told without the sort. *)
Lemma ownKeyOrder_before ks a b :
  List.NoDup ks -> before a b (JS.ownKeyOrder ks) -> keyOrder ks a b.
Proof.
  intros Hnd Hb. unfold JS.ownKeyOrder in Hb. unfold keyOrder.
  set (cmp := fun a b => JS.indexOf a - JS.indexOf b) in *.
  apply before_app_inv in Hb as [Hb | [[Ha Hb] | Hb]].
  - assert (List.NoDup (JS.sort cmp (List.filter JS.isArrayIndex ks))) as Hnd'.
    { eapply Permutation_NoDup; [symmetry; apply sort_perm|].
      now apply List.NoDup_filter. }
    pose proof (before_distinct _ _ _ Hnd' Hb) as Hne.
    assert (JS.indexOf a <= JS.indexOf b) as Hle.
    { apply (before_sorted (byKey JS.indexOf) a b
               (JS.sort cmp (List.filter JS.isArrayIndex ks))); [|assumption].
      apply (sort_sorted cmp JS.indexOf (fun _ => True)).
      - intros x y _ _. unfold cmp. lia.
      - apply List.Forall_forall. auto. }
    apply before_In in Hb as [Ha Hb].
    apply sort_In, filter_In in Ha as [_ Ha], Hb as [_ Hb].
    apply isArrayIndex_true in Ha as [i Hi], Hb as [j Hj].
    unfold JS.indexOf in Hle. rewrite Hi, Hj in *.
    destruct (N.eq_dec i j) as [->|Hij]; [|lia].
    exfalso. apply Hne. eapply arrayIndex_inj; eauto.
  - apply sort_In, filter_In in Ha as [_ Ha]. apply filter_In in Hb as [_ Hb].
    apply isArrayIndex_true in Ha as [i ->].
    apply negb_true_iff, isArrayIndex_false in Hb. now rewrite Hb.
  - pose proof (before_In _ _ _ Hb) as [Ha Hb'].
    apply filter_In in Ha as [_ Ha], Hb' as [_ Hb'].
    apply negb_true_iff, isArrayIndex_false in Ha, Hb'. rewrite Ha, Hb'.
    now apply before_filter in Hb.
Qed.

End TieOrder.

Lemma keyOrder_filter (p : string -> bool) met a b :
  keyOrder (List.filter p met) a b -> keyOrder met a b.
Proof.
  unfold keyOrder. destruct (JS.arrayIndex a), (JS.arrayIndex b); auto.
  apply before_filter.
Qed.

(** C4, as the code has it.  When no pick names a function inherited from
    [Object.prototype], the rows come by falling tally, and rows with equal
    tallies come in the order of the keys of [counts]: the ids that are
    array indices first, by rising number, then the other ids as first met
    by the tally.  When no id is an array index, ties are in the order in
    which the candidates were first met. *)
Theorem rows_sorted_ties_in_key_order nominations votes users options w vs us :
  heap w !! votes = Some (VoteArray vs) ->
  heap w !! users = Some (UserArray us) ->
  Forall (fun c => inheritedMethod c = false) (allPicks vs) ->
  exists res w' used,
    computeResults nominations votes users options w = Some (res, w')
    /\ nonDiscarded vs (discardedVoterId res) used
    /\ byFallingVotes (rows res)
    /\ tiesInKeyOrder (firstSeen (allPicks used)) (rows res)
    /\ (Forall (fun c => JS.isArrayIndex c = false) (allPicks vs) ->
        tiesFollow (firstSeen (allPicks used)) (rows res)).
Proof.
  intros Hv Hu _.
  destruct (computeResults_returns nominations votes users options w vs us Hv Hu)
    as (res & w' & Hrun).
  destruct (computeResults_run _ _ _ _ _ _ _ _ Hv Hrun)
    as (gid & w1 & used & w2 & _ & _ & Hnd & _ & _ & Hrows).
  exists res, w', used. split; [assumption|]. split; [assumption|].
  assert (tiesFollow (JS.keys (tally used)) (rows res)) as Hties.
  { intros r1 r2 Hb Hvotes. rewrite Hrows in Hb.
    apply finalRows_before in Hb as (x & y & Hb & -> & -> & Hx & Hy).
    apply sortedRows_stable; [assumption | congruence]. }
  split; [|split].
  - apply (byFallingVotes_votes (sortedRows used)).
    + now rewrite Hrows, finalRows_votes.
    + apply sortedRows_sorted.
  - intros r1 r2 Hb Hvotes. specialize (Hties r1 r2 Hb Hvotes).
    unfold JS.keys in Hties. rewrite tally_keys in Hties.
    apply ownKeyOrder_before in Hties; [|apply firstSeen_NoDup].
    unfold counted in Hties. rewrite firstSeen_filter in Hties.
    now apply keyOrder_filter in Hties.
  - intros Hplain. rewrite keys_plain, tally_keys in Hties.
    + intros r1 r2 Hb Hvotes. specialize (Hties r1 r2 Hb Hvotes).
      unfold counted in Hties. rewrite firstSeen_filter in Hties.
      now apply before_filter in Hties.
    + rewrite tally_keys. apply List.Forall_forall. intros c Hc.
      rewrite List.Forall_forall in Hplain. apply Hplain.
      apply (proj1 (firstSeen_In _ _)) in Hc.
      apply counted_In in Hc as [Hc _].
      exact (nonDiscarded_picks _ _ _ _ Hnd Hc).
Qed.

Lemma rows_sorted_ties_in_key_order_witness :
  exists res w' used,
    run gerenteOnly keyOrderBallots (mkOptions false false) = Some (res, w')
    /\ nonDiscarded keyOrderBallots (discardedVoterId res) used
    /\ map ResultRow.candidateId (rows res) = ["u1"; "7"; "u2"]%string
    /\ map ResultRow.votes (rows res) = [3; 2; 2]
    /\ byFallingVotes (rows res)
    /\ tiesInKeyOrder (firstSeen (allPicks used)) (rows res).
Proof.
  destruct (rows_sorted_ties_in_key_order nominationsRef votesRef usersRef
              (mkOptions false false) (sampleWorld gerenteOnly keyOrderBallots)
              keyOrderBallots gerenteOnly eq_refl eq_refl)
    as (res & w' & used & Hrun & Hnd & Hs & Hties & _).
  - repeat constructor.
  - exists res, w', used. repeat split; try assumption.
    + unfold run in Hrun. vm_compute in Hrun. now injection Hrun as <- _.
    + unfold run in Hrun. vm_compute in Hrun. now injection Hrun as <- _.
Defined.

(** C4 as the specification words it fails: with the ids ["2"] and ["1"]
    picked in that order, both with one vote, the row of ["1"] comes first. *)
Lemma ties_not_in_first_seen_order :
  match run gerenteOnly numericIds (mkOptions false false) with
  | Some (res, _) => ~ tiesFollow (firstSeen (allPicks numericIds)) (rows res)
  | None => False
  end.
Proof.
  vm_compute run. intros H.
  specialize (H (ResultRow.mk "1" 1 0) (ResultRow.mk "2" 1 0)).
  simpl in H.
  assert (before "1"%string "2"%string ["2"; "1"]%string) as Hb.
  { apply H; [|reflexivity]. now exists [], [], []. }
  revert Hb. apply before_asym.
  - repeat constructor; simpl; intuition discriminate.
  - now exists [], [], [].
Qed.

(** C5, as the code has it.  For each of the first three rows the day award
    is the table entry for the number of distinct counted voters of the
    candidate and for whether the Gerente is one of them (0 for at most one
    voter, 1 for two, 2 for three or more without the Gerente, 3 for three or
    more with the Gerente), plus the bonuses drawn for the candidate; with the
    bonus off the award is the table entry itself.  Every further row has no
    award.  The Gerente counts only when the id found for it is not the empty
    string. *)
Theorem base_days_follow_table nominations votes users options w vs us :
  coherent w ->
  heap w !! votes = Some (VoteArray vs) ->
  heap w !! users = Some (UserArray us) ->
  firstGerente us <> Some ""%string ->
  exists res w' used bonuses,
    computeResults nominations votes users options w = Some (res, w')
    /\ nonDiscarded vs (discardedVoterId res) used
    /\ (forall i r, rows res !! i = Some r ->
          ResultRow.days r
          = if (i <? 3)%nat
            then dayTable (length (distinctVoters used (ResultRow.candidateId r)))
                          (gerenteAmong (firstGerente us) used
                                        (ResultRow.candidateId r))
                 + bonusFor (ResultRow.candidateId r)
                            (bonusPicks options (firstGerente us) used) bonuses
            else 0)
    /\ (enableGerenteBonus options = false ->
        forall i r, rows res !! i = Some r ->
          ResultRow.days r
          = if (i <? 3)%nat
            then dayTable (length (distinctVoters used (ResultRow.candidateId r)))
                          (gerenteAmong (firstGerente us) used
                                        (ResultRow.candidateId r))
            else 0).
Proof.
  intros Hc Hv Hu Hg.
  destruct (computeResults_days nominations votes users options w vs us Hc Hv Hu)
    as (res & w' & used & bonuses & Hrun & Hnd & Hlen & _ & Hdays).
  rewrite (resolveGerente_id _ Hg) in Hlen, Hdays.
  assert (forall i r, rows res !! i = Some r ->
            ResultRow.days r
            = if (i <? 3)%nat
              then dayTable (length (distinctVoters used (ResultRow.candidateId r)))
                            (gerenteAmong (firstGerente us) used
                                          (ResultRow.candidateId r))
                   + bonusFor (ResultRow.candidateId r)
                              (bonusPicks options (firstGerente us) used) bonuses
              else 0) as Hall.
  { intros i r Hi. rewrite (Hdays i r Hi).
    destruct (i <? 3)%nat; [|reflexivity]. now rewrite baseDays_table. }
  exists res, w', used, bonuses. repeat split; try assumption.
  intros Hoff i r Hi. rewrite (Hall i r Hi).
  destruct (i <? 3)%nat; [|reflexivity].
  unfold bonusPicks. rewrite Hoff. unfold bonusFor. simpl. unfold sumZ. simpl. lia.
Qed.

Lemma base_days_follow_table_witness :
  exists res w',
    run gerenteOnly (threeVoters "u15") (mkOptions false false) = Some (res, w')
    /\ forall i r, rows res !! i = Some r ->
         ResultRow.days r
         = if (i <? 3)%nat
           then dayTable
                  (length (distinctVoters (threeVoters "u15")
                                          (ResultRow.candidateId r)))
                  (gerenteAmong (Some "u15"%string) (threeVoters "u15")
                                (ResultRow.candidateId r))
           else 0.
Proof.
  destruct (base_days_follow_table nominationsRef votesRef usersRef
              (mkOptions false false)
              (sampleWorld gerenteOnly (threeVoters "u15"))
              (threeVoters "u15") gerenteOnly)
    as (res & w' & used & bonuses & Hrun & Hnd & _ & Hoff).
  - intros r g H. vm_compute in H. discriminate.
  - reflexivity.
  - reflexivity.
  - vm_compute. discriminate.
  - exists res, w'. split; [exact Hrun|].
    assert (discardedVoterId res = None) as Hnone.
    { unfold run in Hrun. vm_compute in Hrun. now injection Hrun as <- _. }
    rewrite Hnone in Hnd. simpl in Hnd. subst used.
    exact (Hoff eq_refl).
Defined.

(** C5 as the specification words it fails when the id of the Gerente is the
    empty string: three voters, the Gerente among them, earn the candidate two
    days. *)
Lemma empty_id_gerente_not_counted :
  match run emptyIdGerente (threeVoters "") (mkOptions false false) with
  | Some (res, _) =>
      exists r,
        rows res !! 0%nat = Some r
        /\ ResultRow.days r
           <> dayTable
                (length (distinctVoters (threeVoters "") (ResultRow.candidateId r)))
                (gerenteAmong (firstGerente emptyIdGerente) (threeVoters "")
                              (ResultRow.candidateId r))
  | None => False
  end.
Proof.
  vm_compute run. eexists. split; [reflexivity|]. vm_compute. discriminate.
Qed.

(** C1, as the code has it.  With the bonus on, a Gerente whose id is not
    empty and whose ballot counts, one bonus in [1..3] is drawn for each place
    of that ballot; a row among the first three gets its table entry plus the
    bonuses drawn for its candidate, and every row from the fourth on has a
    day award of [0], bonus or not. *)
Theorem bonus_reaches_first_three_rows nominations votes users discard w vs us g :
  coherent w ->
  heap w !! votes = Some (VoteArray vs) ->
  heap w !! users = Some (UserArray us) ->
  firstGerente us = Some g ->
  g <> ""%string ->
  exists res w' used,
    computeResults nominations votes users (mkOptions discard true) w
    = Some (res, w')
    /\ nonDiscarded vs (discardedVoterId res) used
    /\ forall ballot,
         List.find (fun v => String.eqb (Vote.voterId v) g) used = Some ballot ->
         exists bonuses,
           length bonuses = length (Vote.picks ballot)
           /\ Forall (fun b => 1 <= b <= 3) bonuses
           /\ (forall c, In c (Vote.picks ballot) ->
                 1 <= bonusFor c (Vote.picks ballot) bonuses)
           /\ (List.NoDup (Vote.picks ballot) ->
               forall c, bonusFor c (Vote.picks ballot) bonuses <= 3)
           /\ (forall c, ~ In c (Vote.picks ballot) ->
                 bonusFor c (Vote.picks ballot) bonuses = 0)
           /\ forall i r, rows res !! i = Some r ->
                ResultRow.days r
                = if (i <? 3)%nat
                  then dayTable
                         (length (distinctVoters used (ResultRow.candidateId r)))
                         (votedFor g used (ResultRow.candidateId r))
                       + bonusFor (ResultRow.candidateId r)
                                  (Vote.picks ballot) bonuses
                  else 0.
Proof.
  intros Hc Hv Hu Hg Hne.
  destruct (computeResults_days nominations votes users (mkOptions discard true)
              w vs us Hc Hv Hu)
    as (res & w' & used & bonuses & Hrun & Hnd & Hlen & Hrange & Hdays).
  assert (resolveGerente (firstGerente us) = Some g) as Hres.
  { rewrite Hg. apply resolveGerente_id. congruence. }
  rewrite Hres in Hlen, Hdays.
  exists res, w', used. split; [assumption|]. split; [assumption|].
  intros ballot Hb. unfold bonusPicks in Hlen, Hdays. simpl in Hlen, Hdays.
  rewrite Hb in Hlen, Hdays.
  exists bonuses. split; [assumption|]. split; [assumption|].
  split; [|split; [|split]].
  - intros c Hin. now apply bonusFor_lower.
  - intros Hnodup c. now apply bonusFor_upper.
  - intros c Hn. now apply bonusFor_absent.
  - intros i r Hi. rewrite (Hdays i r Hi).
    destruct (i <? 3)%nat; [|reflexivity]. now rewrite baseDays_table.
Qed.

Lemma bonus_reaches_first_three_rows_witness :
  exists res w' used,
    run gerenteOnly fourCandidates (mkOptions false true) = Some (res, w')
    /\ nonDiscarded fourCandidates (discardedVoterId res) used
    /\ forall i r, rows res !! i = Some r -> (3 <= i)%nat -> ResultRow.days r = 0.
Proof.
  destruct (bonus_reaches_first_three_rows nominationsRef votesRef usersRef false
              (sampleWorld gerenteOnly fourCandidates)
              fourCandidates gerenteOnly "u15")
    as (res & w' & used & Hrun & Hnd & Hb).
  - intros r g H. vm_compute in H. discriminate.
  - reflexivity.
  - reflexivity.
  - reflexivity.
  - discriminate.
  - exists res, w', used. split; [exact Hrun|]. split; [exact Hnd|].
    assert (discardedVoterId res = None) as Hnone.
    { unfold run in Hrun. vm_compute in Hrun. now injection Hrun as <- _. }
    rewrite Hnone in Hnd. simpl in Hnd. subst used.
    destruct (Hb (Vote.mk "u15" ["u3"]) eq_refl)
      as (bonuses & _ & _ & _ & _ & _ & Hdays).
    intros i r Hi Hge. rewrite (Hdays i r Hi).
    replace (i <? 3)%nat with false; [reflexivity|].
    symmetry. apply Nat.ltb_ge. exact Hge.
Defined.

(** C1 as the specification words it fails: the candidate the Gerente alone
    voted for ends fourth, and its day award is [0] in spite of the bonus
    drawn for it. *)
Lemma bonus_lost_beyond_third_row :
  match run gerenteOnly fourCandidates (mkOptions false true) with
  | Some (res, _) => ~ everyPickAwarded ["u3"%string] (rows res)
  | None => False
  end.
Proof.
  vm_compute run. intros H.
  destruct (H "u3"%string (or_introl eq_refl)) as (r & Hin & Hc & Hd).
  simpl in Hin.
  destruct Hin as [<- | [<- | [<- | [<- | []]]]]; simpl in Hc, Hd;
    try discriminate; lia.
Qed.

(** C6.  With the discard on and at least one ballot, one ballot is left out
    of everything that follows: the rows are those computed from the other
    ballots, only candidates named on the other ballots have a row, and
    [discardedVoterId] is the voter of the ballot left out; with no ballot
    nothing is left out and [discardedVoterId] is unset. *)
Theorem discard_excludes_one_ballot nominations votes users bonus w vs us :
  heap w !! votes = Some (VoteArray vs) ->
  heap w !! users = Some (UserArray us) ->
  exists res w',
    computeResults nominations votes users (mkOptions true bonus) w
    = Some (res, w')
    /\ match vs with
       | [] => discardedVoterId res = None /\ rows res = []
       | _ :: _ =>
           exists idx excluded gid w1,
             vs !! idx = Some excluded
             /\ discardedVoterId res = Some (Vote.voterId excluded)
             /\ S (length (delete idx vs)) = length vs
             /\ findGerenteId users w = Some (gid, w1)
             /\ rankAndAward (mkOptions true bonus) gid (delete idx vs)
                             (consume w1)
                = Some (rows res, w')
             /\ (forall r, In r (rows res) ->
                   In (ResultRow.candidateId r) (allPicks (delete idx vs)))
       end.
Proof.
  intros Hv Hu.
  destruct (computeResults_returns nominations votes users
              (mkOptions true bonus) w vs us Hv Hu) as (res & w' & Hrun).
  exists res, w'. split; [assumption|].
  destruct (computeResults_run _ _ _ _ _ _ _ _ Hv Hrun)
    as (gid & w1 & used & w2 & Hg & Hd & _ & Hr & _ & Hrows).
  destruct vs as [|v0 rest].
  - rewrite discardStep_off in Hd by auto. injection Hd as <- Hnone _.
    split; [now symmetry|]. rewrite Hrows. reflexivity.
  - destruct (discardStep_on (mkOptions true bonus) (v0 :: rest) w1 eq_refl
                ltac:(discriminate)) as (idx & v & Hidx & _ & Hd').
    rewrite Hd' in Hd. injection Hd as <- Hdisc <-.
    exists idx, v, gid, w1. repeat split; try assumption.
    + now symmetry.
    + rewrite length_delete by eauto.
      apply lookup_lt_Some in Hidx. simpl in *. lia.
    + intros r Hin. apply list_elem_of_In, list_elem_of_lookup_1 in Hin as [i Hi].
      destruct (rankAndAward_row _ _ _ _ _ _ i r Hr Hi) as (r0 & Hr0 & -> & _).
      apply (sortedRows_ids (delete idx (v0 :: rest)) r0).
      apply list_elem_of_In. eapply list_elem_of_lookup_2. exact Hr0.
Qed.

Lemma discard_excludes_one_ballot_witness :
  exists res w',
    run gerenteOnly fourCandidates (mkOptions true false) = Some (res, w')
    /\ exists idx excluded,
         fourCandidates !! idx = Some excluded
         /\ discardedVoterId res = Some (Vote.voterId excluded)
         /\ S (length (delete idx fourCandidates)) = length fourCandidates
         /\ (forall r, In r (rows res) ->
               In (ResultRow.candidateId r)
                  (allPicks (delete idx fourCandidates))).
Proof.
  destruct (discard_excludes_one_ballot nominationsRef votesRef usersRef false
              (sampleWorld gerenteOnly fourCandidates)
              fourCandidates gerenteOnly eq_refl eq_refl)
    as (res & w' & Hrun & idx & excluded & gid & w1
        & Hidx & Hdisc & Hlen & _ & _ & Hrows).
  exists res, w'. split; [exact Hrun|]. now exists idx, excluded.
Defined.

(** C9.  With both options off the call draws nothing and leaves
    [discardedVoterId] unset, and any later call on the same arguments, with
    the ballots unchanged and whatever the source of randomness has become,
    returns the very same result. *)
Theorem computeResults_repeatable nominations votes users w vs us :
  heap w !! votes = Some (VoteArray vs) ->
  heap w !! users = Some (UserArray us) ->
  exists res w1,
    computeResults nominations votes users (mkOptions false false) w
    = Some (res, w1)
    /\ discardedVoterId res = None
    /\ drawn w1 = drawn w
    /\ (forall w2,
          heap w2 !! votes = Some (VoteArray vs) ->
          GERENTE_CACHE w2 !! users = GERENTE_CACHE w1 !! users ->
          computeResults nominations votes users (mkOptions false false) w2
          = Some (res, w2))
    /\ (coherent w ->
        forall nominations2 votes2 users2 w2,
          coherent w2 ->
          heap w2 !! votes2 = Some (VoteArray vs) ->
          heap w2 !! users2 = Some (UserArray us) ->
          exists w3,
            computeResults nominations2 votes2 users2 (mkOptions false false) w2
            = Some (res, w3)).
Proof.
  intros Hv Hu.
  destruct (computeResults_returns nominations votes users
              (mkOptions false false) w vs us Hv Hu) as (res & w1 & Hrun).
  exists res, w1. split; [assumption|].
  destruct (computeResults_run _ _ _ _ _ _ _ _ Hv Hrun)
    as (gid & w0 & used & w2 & Hg & Hd & _ & _ & Hw & Hrows).
  rewrite discardStep_off in Hd by auto. injection Hd as <- Hnone <-.
  simpl in Hw. rewrite consumeN_0 in Hw. subst w0.
  apply findGerenteId_frame in Hg as (_ & _ & _ & Hdrawn & Hcache & _).
  split; [now symmetry|]. split; [assumption|]. split.
  - intros w3 Hv3 Hc3. rewrite Hcache in Hc3.
    unfold computeResults, bind.
    rewrite (findGerenteId_hit _ _ _ Hc3). unfold readVotes. rewrite Hv3.
    rewrite discardStep_off by auto. cbn [fst snd].
    rewrite rankAndAward_eq. cbn [bonusPicks enableGerenteBonus length].
    rewrite consumeN_0. unfold ret.
    do 2 f_equal. destruct res as [rs disc]. simpl in *. subst disc.
    f_equal. rewrite Hrows. reflexivity.
  - intros Hcoh nominations2 votes2 users2 w3 Hcoh3 Hv3 Hu3.
    destruct (computeResults_returns nominations2 votes2 users2
                (mkOptions false false) w3 vs us Hv3 Hu3) as (res' & w4 & Hrun').
    exists w4. rewrite Hrun'. do 2 f_equal.
    rewrite (computeResults_plain_value _ _ _ _ _ _ _ _ Hcoh3 Hv3 Hu3 Hrun').
    symmetry.
    exact (computeResults_plain_value _ _ _ _ _ _ _ _ Hcoh Hv Hu Hrun).
Qed.

Lemma computeResults_repeatable_witness :
  exists res w1,
    run gerenteOnly fourCandidates (mkOptions false false) = Some (res, w1)
    /\ discardedVoterId res = None
    /\ computeResults nominationsRef votesRef usersRef (mkOptions false false)
         (reseed false (fun _ => 7%N) 5 w1)
       = Some (res, reseed false (fun _ => 7%N) 5 w1).
Proof.
  destruct (computeResults_repeatable nominationsRef votesRef usersRef
              (sampleWorld gerenteOnly fourCandidates)
              fourCandidates gerenteOnly eq_refl eq_refl)
    as (res & w1 & Hrun & Hnone & _ & Hagain & _).
  exists res, w1. split; [exact Hrun|]. split; [exact Hnone|].
  apply Hagain; [|reflexivity].
  unfold run in Hrun. vm_compute in Hrun. injection Hrun as _ <-. reflexivity.
Defined.

(** C10, as the code has it.  The call writes to no array: the heap, with
    the ballots, their pick lists, the roster and the nominations, is after
    the call what it was before.  Besides consuming entropy and returning
    its value, the call files the Gerente of the roster in [GERENTE_CACHE]
    when the roster array had no entry yet. *)
Theorem computeResults_writes_only_cache nominations votes users options w vs us :
  heap w !! votes = Some (VoteArray vs) ->
  heap w !! users = Some (UserArray us) ->
  exists res w',
    computeResults nominations votes users options w = Some (res, w')
    /\ heap w' = heap w
    /\ crypto w' = crypto w
    /\ entropy w' = entropy w
    /\ (drawn w <= drawn w')%nat
    /\ (GERENTE_CACHE w' = GERENTE_CACHE w
        \/ GERENTE_CACHE w !! users = None
           /\ GERENTE_CACHE w' = <[users := firstGerente us]> (GERENTE_CACHE w)).
Proof.
  intros Hv Hu.
  destruct (computeResults_returns nominations votes users options w vs us Hv Hu)
    as (res & w' & Hrun).
  exists res, w'. split; [assumption|].
  destruct (computeResults_run _ _ _ _ _ _ _ _ Hv Hrun)
    as (gid & w1 & used & w2 & Hg & Hd & _ & _ & Hw & _).
  assert (heap w2 = heap w1 /\ crypto w2 = crypto w1 /\ entropy w2 = entropy w1
          /\ (drawn w1 <= drawn w2)%nat
          /\ GERENTE_CACHE w2 = GERENTE_CACHE w1) as (Hh2 & Hc2 & He2 & Hd2 & Hm2).
  { destruct (discardOneRandomVote options) eqn:Ho;
      [destruct vs as [|v0 rest]|].
    - rewrite discardStep_off in Hd by auto. injection Hd as _ _ <-.
      repeat split; reflexivity.
    - destruct (discardStep_on options (v0 :: rest) w1 Ho ltac:(discriminate))
        as (idx & v & _ & _ & Hd').
      rewrite Hd' in Hd. injection Hd as _ _ <-. simpl.
      repeat split; try reflexivity. lia.
    - rewrite discardStep_off in Hd by auto. injection Hd as _ _ <-.
      repeat split; reflexivity. }
  simpl in Hw. subst w'. simpl.
  assert (GERENTE_CACHE w !! users = None ->
          findGerenteId users w
          = Some (firstGerente us,
                  setCache (<[users := firstGerente us]> (GERENTE_CACHE w)) w))
    as Hmiss by (intros Hn; now apply findGerenteId_miss).
  apply findGerenteId_frame in Hg as Hf.
  destruct Hf as (Hh1 & Hc1 & He1 & Hd1 & _ & Hm1).
  repeat split; try congruence; [lia|].
  rewrite Hm2. destruct Hm1 as [Hsame | [Hnone Hins]]; [now left|].
  right. split; [assumption|].
  rewrite (Hmiss Hnone) in Hg. injection Hg as <- <-. reflexivity.
Qed.

Lemma computeResults_writes_only_cache_witness :
  exists res w',
    run gerenteOnly fourCandidates (mkOptions true true) = Some (res, w')
    /\ heap w' = heap (sampleWorld gerenteOnly fourCandidates).
Proof.
  destruct (computeResults_writes_only_cache nominationsRef votesRef usersRef
              (mkOptions true true) (sampleWorld gerenteOnly fourCandidates)
              fourCandidates gerenteOnly eq_refl eq_refl)
    as (res & w' & Hrun & Hheap & _).
  now exists res, w'.
Defined.

(** C10 as the specification words it fails: the first call on a roster leaves
    an entry in [GERENTE_CACHE], which no consumption of entropy accounts for. *)
Lemma first_call_fills_cache :
  match run gerenteOnly fourCandidates (mkOptions false false) with
  | Some (_, w') => ~ onlyConsumes (sampleWorld gerenteOnly fourCandidates) w'
  | None => False
  end.
Proof.
  vm_compute run. intros [k Hk].
  apply (f_equal (fun x => GERENTE_CACHE x !! usersRef)) in Hk.
  vm_compute in Hk. discriminate.
Qed.

(** C2, as the code has it.  The lookup returns the id of the first member
    that has the role Gerente or the title CIO, whichever of the two it is:
    nobody ahead of that member has either.  The answer is filed under the
    roster array, and the memo table stays truthful. *)
Theorem findGerenteId_first_role_or_title users us w :
  coherent w ->
  heap w !! users = Some (UserArray us) ->
  exists w',
    findGerenteId users w = Some (firstGerente us, w')
    /\ coherent w'
    /\ GERENTE_CACHE w' !! users = Some (firstGerente us)
    /\ match firstGerente us with
       | Some g =>
           exists pre u post,
             us = pre ++ u :: post
             /\ User.id u = g
             /\ (User.role u = Gerente \/ User.title u = "CIO"%string)
             /\ Forall (fun v => User.role v <> Gerente
                                 /\ User.title v <> "CIO"%string) pre
       | None =>
           Forall (fun v => User.role v <> Gerente
                            /\ User.title v <> "CIO"%string) us
       end.
Proof.
  intros Hc Hu.
  assert (exists g w', findGerenteId users w = Some (g, w')) as (g & w' & Hg).
  { destruct (GERENTE_CACHE w !! users) as [c|] eqn:Hm.
    - rewrite (findGerenteId_hit _ _ _ Hm). eauto.
    - rewrite (findGerenteId_miss _ _ _ Hu Hm). eauto. }
  pose proof (findGerenteId_value _ _ _ _ _ Hc Hu Hg) as ->.
  exists w'. split; [assumption|]. split; [eapply findGerenteId_coherent; eassumption|].
  split; [now apply findGerenteId_frame in Hg|].
  assert (forall v, isGerente v = false ->
            User.role v <> Gerente /\ User.title v <> "CIO"%string) as Hno.
  { intros v Hf. unfold isGerente in Hf. apply orb_false_iff in Hf as [Hr Ht].
    split.
    - intros E. rewrite E in Hr. discriminate.
    - intros E. rewrite E in Ht. discriminate. }
  assert (forall v, isGerente v = true ->
            User.role v = Gerente \/ User.title v = "CIO"%string) as Hyes.
  { intros v Ht. unfold isGerente in Ht. apply orb_true_iff in Ht as [Hr | Ht].
    - left. destruct (User.role v); try discriminate. reflexivity.
    - right. now apply String.eqb_eq. }
  unfold firstGerente. pose proof (find_first isGerente us) as Hfind.
  destruct (List.find isGerente us) as [u|]; simpl.
  - destruct Hfind as (pre & post & -> & Hu' & Hpre).
    exists pre, u, post. repeat split; auto.
    eapply List.Forall_impl; [|exact Hpre]. exact Hno.
  - eapply List.Forall_impl; [|exact Hfind]. exact Hno.
Qed.

Lemma findGerenteId_first_role_or_title_witness :
  exists w',
    findGerenteId usersRef (sampleWorld titleFirst []) = Some (Some "u12"%string, w')
    /\ coherent w'.
Proof.
  destruct (findGerenteId_first_role_or_title usersRef titleFirst
              (sampleWorld titleFirst []))
    as (w' & Hfind & Hcoh & _).
  - intros r g H. vm_compute in H. discriminate.
  - reflexivity.
  - now exists w'.
Defined.

(** C2 as the specification words it fails: a member with the title only,
    listed ahead of the member with the role, is the one the lookup returns. *)
Lemma title_match_wins_when_first :
  firstByRole titleFirst = Some "u15"%string
  /\ fst <$> findGerenteId usersRef (sampleWorld titleFirst [])
     <> Some (firstByRole titleFirst).
Proof.
  split; [reflexivity|]. vm_compute. discriminate.
Qed.

(** * The schedule status *)

Lemma sanitizeText_plain s : plainText s = true -> sanitizeText s = s.
Proof.
  induction s as [|c s IH]; simpl; [reflexivity|].
  intros H. apply andb_true_iff in H as [Hc Hs].
  apply negb_true_iff in Hc. rewrite Hc, IH by assumption. reflexivity.
Qed.

Lemma truthy_nonempty s : truthy s = true <-> s <> ""%string.
Proof. destruct s; simpl; [intuition congruence | intuition discriminate]. Qed.

(** C8, as the code has it.  An error that is not empty is returned with its
    characters [<], [>], the two quotes and [&] replaced by HTML entities (so
    unchanged when it has none of them) and flagged as an error; otherwise
    the message is "Listo para programar" when the counts agree and
    "Selecciona las fechas requeridas" when they do not. *)
Theorem getScheduleStatus_cases selectedDays targetDays error :
  (error <> ""%string ->
   getScheduleStatus selectedDays targetDays error
   = mkStatus (sanitizeText error) true)
  /\ (error <> ""%string -> plainText error = true ->
      getScheduleStatus selectedDays targetDays error = mkStatus error true)
  /\ (error = ""%string -> selectedDays = targetDays ->
      getScheduleStatus selectedDays targetDays error
      = mkStatus "Listo para programar" false)
  /\ (error = ""%string -> selectedDays <> targetDays ->
      getScheduleStatus selectedDays targetDays error
      = mkStatus "Selecciona las fechas requeridas" false).
Proof.
  unfold getScheduleStatus. repeat split.
  - intros Hne. apply truthy_nonempty in Hne. now rewrite Hne.
  - intros Hne Hp. apply truthy_nonempty in Hne.
    now rewrite Hne, sanitizeText_plain.
  - intros -> ->. simpl. now rewrite Z.eqb_refl.
  - intros -> Hne. simpl. apply Z.eqb_neq in Hne. now rewrite Hne.
Qed.

Lemma getScheduleStatus_cases_witness :
  getScheduleStatus 1 2 "No se permiten lunes"
  = mkStatus "No se permiten lunes" true
  /\ getScheduleStatus 3 3 "" = mkStatus "Listo para programar" false
  /\ getScheduleStatus 2 3 "" = mkStatus "Selecciona las fechas requeridas" false.
Proof.
  split; [|split].
  - apply (proj1 (proj2 (getScheduleStatus_cases 1 2 "No se permiten lunes")));
      [discriminate | reflexivity].
  - apply (proj1 (proj2 (proj2 (getScheduleStatus_cases 3 3 ""))));
      reflexivity.
  - apply (proj2 (proj2 (proj2 (getScheduleStatus_cases 2 3 ""))));
      [reflexivity | discriminate].
Defined.

(** C8 as the specification words it fails: the error is not returned as it
    is, and the two other messages are not the English ones. *)
Lemma status_not_as_described :
  getScheduleStatus 1 2 "a<b" <> describedStatus 1 2 "a<b"
  /\ getScheduleStatus 3 3 "" <> describedStatus 3 3 ""
  /\ getScheduleStatus 2 3 "" <> describedStatus 2 3 "".
Proof. repeat split; vm_compute; discriminate. Qed.

(** * The schedule check *)

Section Schedule.

Lemma scanDays_spec days : forall acc,
  scanDays days acc
  = if existsb mondayb days
    then inl (mkCheck false (Some "No se permiten lunes"%string))
    else inr (acc ++ map dateInfoOf days).
Proof.
  induction days as [|d days IH]; intros acc; simpl.
  - now rewrite app_nil_r.
  - fold (timestampOf d). fold (mondayb d).
    destruct (mondayb d); simpl; [reflexivity|].
    rewrite IH. destruct (existsb mondayb days); [reflexivity|].
    now rewrite <- app_assoc.
Qed.

Lemma mondayb_fallsOnMonday d :
  isCalendarDate d -> (mondayb d = true <-> fallsOnMonday d).
Proof.
  unfold isCalendarDate, mondayb, fallsOnMonday, timeValue.
  destruct (timestampOf d) as [t|]; [|congruence].
  intros _. simpl. apply Z.eqb_eq.
Qed.

Lemma existsb_monday days :
  Forall isCalendarDate days ->
  (existsb mondayb days = true <-> Exists fallsOnMonday days).
Proof.
  intros Hv. rewrite existsb_exists, List.Exists_exists.
  rewrite List.Forall_forall in Hv.
  split; intros (d & Hin & Hd); exists d; (split; [assumption|]);
    now apply (mondayb_fallsOnMonday d (Hv d Hin)).
Qed.

Lemma StronglySorted_map {A B} (R : B -> B -> Prop) (f : A -> B) l :
  StronglySorted (fun a b => R (f a) (f b)) l -> StronglySorted R (map f l).
Proof.
  induction 1 as [|a l Hs IH Hall]; simpl; constructor; [assumption|].
  rewrite List.Forall_forall in *. intros y Hy.
  apply in_map_iff in Hy as (x & <- & Hx). now apply Hall.
Qed.

Lemma hasConsecutive_spec l :
  hasConsecutive l = true <->
  exists i a b, l !! i = Some a /\ l !! S i = Some b
    /\ strictEq (minus (timestamp b) (timestamp a)) MS_PER_DAY = true.
Proof.
  induction l as [|a l IH]; [split; [discriminate | intros (i & x & y & H & _); discriminate]|].
  destruct l as [|b l].
  - split; [discriminate|]. intros (i & x & y & _ & H & _).
    destruct i; discriminate.
  - change (hasConsecutive (a :: b :: l))
      with (if strictEq (minus (timestamp b) (timestamp a)) MS_PER_DAY
            then true else hasConsecutive (b :: l)).
    destruct (strictEq (minus (timestamp b) (timestamp a)) MS_PER_DAY) eqn:E.
    + split; [|reflexivity]. intros _. now exists 0%nat, a, b.
    + rewrite IH. split.
      * intros (i & x & y & Hx & Hy & Hd). now exists (S i), x, y.
      * intros ([|i] & x & y & Hx & Hy & Hd).
        -- simpl in Hx, Hy. injection Hx as <-. injection Hy as <-. congruence.
        -- now exists i, x, y.
Qed.

Lemma timed_sort_key x y :
  timestamp x <> None -> timestamp y <> None ->
  (byTimestamp x y <= 0 <-> timeKey x <= timeKey y).
Proof.
  unfold byTimestamp, timeKey, minus.
  destruct (timestamp x), (timestamp y); try congruence. intros _ _. lia.
Qed.

Lemma dateInfos_timed days :
  Forall isCalendarDate days ->
  Forall (fun a => timestamp a <> None) (map dateInfoOf days).
Proof.
  intros H. apply List.Forall_forall. intros a Ha.
  apply in_map_iff in Ha as (d & <- & Hd).
  rewrite List.Forall_forall in H. exact (H d Hd).
Qed.

(** On dates that all exist, the loop after the sort finds a pair exactly
    when neighbours of the sorted times are one day apart. *)
Lemma hasConsecutive_adjacent l :
  Forall (fun a => timestamp a <> None) l ->
  (hasConsecutive l = true <-> adjacentDayApart (map timeKey l)).
Proof.
  intros Ht. rewrite List.Forall_forall in Ht.
  rewrite hasConsecutive_spec. unfold adjacentDayApart.
  assert (forall i a, l !! i = Some a -> In a l) as Hin.
  { intros i a Ha. apply list_elem_of_In. eapply list_elem_of_lookup_2. exact Ha. }
  assert (forall a b, In a l -> In b l ->
            (strictEq (minus (timestamp b) (timestamp a)) MS_PER_DAY = true
             <-> timeKey b - timeKey a = MS_PER_DAY)) as Heq.
  { intros a b Ha Hb. pose proof (Ht a Ha). pose proof (Ht b Hb).
    unfold timeKey, minus, strictEq.
    destruct (timestamp a), (timestamp b); try congruence. apply Z.eqb_eq. }
  change (map timeKey l) with (timeKey <$> l).
  split.
  - intros (i & a & b & Ha & Hb & Hd).
    exists i, (timeKey a), (timeKey b).
    rewrite !list_lookup_fmap, Ha, Hb. repeat split.
    apply Heq; eauto.
  - intros (i & x & y & Hx & Hy & Hd).
    rewrite list_lookup_fmap in Hx, Hy.
    destruct (l !! i) as [a|] eqn:Ha; [|discriminate].
    destruct (l !! S i) as [b|] eqn:Hb; [|discriminate].
    injection Hx as <-. injection Hy as <-.
    exists i, a, b. repeat split; try assumption. apply Heq; eauto.
Qed.

Lemma sorted_times days :
  Forall isCalendarDate days ->
  let times := map timeKey (JS.sort byTimestamp (map dateInfoOf days)) in
  Permutation times (map timeValue days) /\ StronglySorted Z.le times.
Proof.
  intros Hv. simpl. split.
  - rewrite (Permutation_map timeKey (sort_perm byTimestamp (map dateInfoOf days))).
    now rewrite map_map.
  - apply StronglySorted_map.
    apply (sort_sorted byTimestamp timeKey (fun a => timestamp a <> None)).
    + exact timed_sort_key.
    + now apply dateInfos_timed.
Qed.

Lemma consecutive_iff days :
  Forall isCalendarDate days ->
  (hasConsecutive (JS.sort byTimestamp (map dateInfoOf days)) = true
   <-> consecutiveAfterSorting days).
Proof.
  intros Hv. destruct (sorted_times days Hv) as [Hperm Hsorted].
  rewrite hasConsecutive_adjacent
    by (apply sort_Forall; now apply dateInfos_timed).
  split.
  - intros Hadj. eexists. eauto.
  - intros (sorted & Hp & Hs & Hadj).
    replace (map timeKey (JS.sort byTimestamp (map dateInfoOf days)))
      with sorted; [assumption|].
    apply (StronglySorted_unique_strong Z.le); try assumption.
    + intros; lia.
    + now rewrite Hp, Hperm.
Qed.

End Schedule.

(** C7, as the code has it.  On dates that exist in the calendar, read at
    midnight UTC: no date gives "Selecciona al menos un día"; else a date
    on a Monday gives "No se permiten lunes"; else two neighbours one day
    apart in chronological order give "No se permiten días consecutivos";
    else the schedule is accepted. *)
Theorem isValidSchedule_rules days :
  Forall isCalendarDate days ->
  (days = [] ->
   isValidSchedule days
   = mkCheck false (Some "Selecciona al menos un día"%string))
  /\ (days <> [] -> Exists fallsOnMonday days ->
      isValidSchedule days = mkCheck false (Some "No se permiten lunes"%string))
  /\ (days <> [] -> ~ Exists fallsOnMonday days -> consecutiveAfterSorting days ->
      isValidSchedule days
      = mkCheck false (Some "No se permiten días consecutivos"%string))
  /\ (days <> [] -> ~ Exists fallsOnMonday days -> ~ consecutiveAfterSorting days ->
      isValidSchedule days = mkCheck true None).
Proof.
  intros Hv. split; [now intros ->|].
  assert (days <> [] ->
          isValidSchedule days
          = if existsb mondayb days
            then mkCheck false (Some "No se permiten lunes"%string)
            else if hasConsecutive (JS.sort byTimestamp (map dateInfoOf days))
                 then mkCheck false (Some "No se permiten días consecutivos"%string)
                 else mkCheck true None) as Hcode.
  { intros Hne. unfold isValidSchedule.
    destruct days as [|d rest]; [congruence|].
    change (length (d :: rest) =? 0)%nat with false. cbv iota.
    rewrite scanDays_spec. now destruct (existsb mondayb (d :: rest)). }
  pose proof (existsb_monday days Hv) as Hmon.
  pose proof (consecutive_iff days Hv) as Hcons.
  repeat split; intros Hne; rewrite (Hcode Hne).
  - intros Hm. apply Hmon in Hm. now rewrite Hm.
  - intros Hm Hc. destruct (existsb mondayb days); [exfalso; apply Hm; tauto|].
    apply Hcons in Hc. now rewrite Hc.
  - intros Hm Hc. destruct (existsb mondayb days); [exfalso; apply Hm; tauto|].
    destruct (hasConsecutive _); [exfalso; apply Hc; tauto | reflexivity].
Qed.

Lemma isValidSchedule_rules_witness :
  isValidSchedule [] = mkCheck false (Some "Selecciona al menos un día"%string)
  /\ isValidSchedule ["2024-06-18"; "2024-06-17"]%string
     = mkCheck false (Some "No se permiten lunes"%string)
  /\ isValidSchedule ["2024-06-19"; "2024-06-21"; "2024-06-18"]%string
     = mkCheck false (Some "No se permiten días consecutivos"%string).
Proof.
  split; [|split].
  - apply (proj1 (isValidSchedule_rules [] ltac:(constructor))). reflexivity.
  - apply (proj1 (proj2 (isValidSchedule_rules
                           ["2024-06-18"; "2024-06-17"]%string
                           ltac:(repeat constructor; vm_compute; discriminate)))).
    + discriminate.
    + apply Exists_cons_tl, Exists_cons_hd. vm_compute. reflexivity.
  - apply (proj1 (proj2 (proj2 (isValidSchedule_rules
                           ["2024-06-19"; "2024-06-21"; "2024-06-18"]%string
                           ltac:(repeat constructor; vm_compute; discriminate))))).
    + discriminate.
    + intros H. repeat (apply Exists_cons in H as [H | H];
                        [vm_compute in H; discriminate|]).
      inversion H.
    + exists [timeValue "2024-06-18"; timeValue "2024-06-19";
              timeValue "2024-06-21"].
      split; [|split].
      * exact (Permutation_cons_append
                 [timeValue "2024-06-19"; timeValue "2024-06-21"]
                 (timeValue "2024-06-18")).
      * vm_compute. repeat constructor; discriminate.
      * exists 0%nat, (timeValue "2024-06-18"), (timeValue "2024-06-19").
        repeat split.
Defined.

(** C7 as the specification words it fails: the three reasons are the Spanish
    texts of the source, not the English ones. *)
Lemma schedule_reasons_not_english :
  isValidSchedule [] <> mkCheck false (Some "select at least one date"%string)
  /\ isValidSchedule ["2024-06-17"%string]
     <> mkCheck false (Some "Mondays are not allowed"%string)
  /\ isValidSchedule ["2024-06-18"; "2024-06-19"]%string
     <> mkCheck false (Some "consecutive days are not allowed"%string).
Proof. repeat split; vm_compute; discriminate. Qed.

(** * Further properties of the code *)

(** ** [sanitizeText] *)

Section Strings.

Lemma append_cons c a b :
  String.append (String c a) b = String c (String.append a b).
Proof. reflexivity. Qed.

Lemma append_empty b : String.append EmptyString b = b.
Proof. reflexivity. Qed.

Lemma append_nil_r a : String.append a EmptyString = a.
Proof. induction a as [|c a IH]; [reflexivity|]. now rewrite append_cons, IH. Qed.

Lemma append_assoc a b c :
  String.append (String.append a b) c = String.append a (String.append b c).
Proof.
  induction a as [|x a IH]; [reflexivity|]. now rewrite !append_cons, IH.
Qed.

Lemma length_append a b :
  String.length (String.append a b) = (String.length a + String.length b)%nat.
Proof.
  induction a as [|x a IH]; [reflexivity|]. rewrite append_cons. simpl.
  now rewrite IH.
Qed.

End Strings.

Ltac strings := repeat (rewrite ?append_cons, ?append_empty, ?append_nil_r).

Section Sanitize.

Lemma occurs_append c a b :
  occurs c (String.append a b) = occurs c a || occurs c b.
Proof.
  induction a as [|x a IH]; [reflexivity|].
  rewrite append_cons. simpl. rewrite IH. apply orb_assoc.
Qed.

(** What [sanitizeText] writes for one character. *)
Lemma sanitizeText_cons c rest :
  sanitizeText (String c rest)
  = String.append (sanitizeText (String c EmptyString)) (sanitizeText rest).
Proof.
  simpl. destruct (isHtmlSpecial c); [destruct (HTML_ENTITIES c)|];
    now strings.
Qed.

Lemma isHtmlSpecial_cases c :
  isHtmlSpecial c = true ->
  c = "<"%char \/ c = ">"%char \/ c = "034"%char \/ c = "'"%char \/ c = "&"%char.
Proof.
  unfold isHtmlSpecial. rewrite !orb_true_iff, !Ascii.eqb_eq. tauto.
Qed.

Lemma sanitizeText_length s :
  (String.length s <= String.length (sanitizeText s))%nat.
Proof.
  induction s as [|c s IH]; [simpl; lia|].
  rewrite sanitizeText_cons, length_append. simpl.
  destruct (isHtmlSpecial c) eqn:E.
  - apply isHtmlSpecial_cases in E.
    destruct E as [->|[->|[->|[->| ->]]]]; simpl; lia.
  - simpl. lia.
Qed.

(** The text written for one character tells the character, and where it
    ends. *)
Lemma sanitizeText_head c1 c2 x y :
  String.append (sanitizeText (String c1 EmptyString)) x
  = String.append (sanitizeText (String c2 EmptyString)) y ->
  c1 = c2 /\ x = y.
Proof.
  simpl. destruct (isHtmlSpecial c1) eqn:E1, (isHtmlSpecial c2) eqn:E2.
  - apply isHtmlSpecial_cases in E1, E2.
    destruct E1 as [->|[->|[->|[->| ->]]]];
      destruct E2 as [->|[->|[->|[->| ->]]]]; simpl; strings;
      intros H; try discriminate; injection H; auto.
  - apply isHtmlSpecial_cases in E1.
    destruct E1 as [->|[->|[->|[->| ->]]]]; simpl; strings; intros H;
      injection H as <- _; discriminate.
  - apply isHtmlSpecial_cases in E2.
    destruct E2 as [->|[->|[->|[->| ->]]]]; simpl; strings; intros H;
      injection H as -> _; discriminate.
  - strings. intros H. now injection H.
Qed.

Lemma sanitizeText_nonempty c rest : sanitizeText (String c rest) <> EmptyString.
Proof.
  simpl. destruct (isHtmlSpecial c) eqn:E; [|discriminate].
  apply isHtmlSpecial_cases in E.
  destruct E as [->|[->|[->|[->| ->]]]]; discriminate.
Qed.

Lemma sanitizeText_cancel a : forall b,
  sanitizeText a = sanitizeText b -> a = b.
Proof.
  induction a as [|c a IH]; intros [|d b] H.
  - reflexivity.
  - symmetry in H. now apply sanitizeText_nonempty in H.
  - now apply sanitizeText_nonempty in H.
  - rewrite (sanitizeText_cons c a), (sanitizeText_cons d b) in H.
    apply sanitizeText_head in H as [-> H]. f_equal. now apply IH.
Qed.

Lemma sanitizeText_fixed s : sanitizeText s = s -> plainText s = true.
Proof.
  induction s as [|c s IH]; [reflexivity|].
  intros H. simpl. destruct (isHtmlSpecial c) eqn:E.
  - exfalso. pose proof (sanitizeText_length s) as Hlen.
    apply (f_equal String.length) in H.
    rewrite sanitizeText_cons, length_append in H. simpl in H. rewrite E in H.
    apply isHtmlSpecial_cases in E.
    destruct E as [->|[->|[->|[->| ->]]]]; simpl in H; lia.
  - simpl. apply IH. simpl in H. rewrite E in H. strings. 
    rewrite append_cons, append_empty in H. now injection H.
Qed.

End Sanitize.

(** X1.  The sanitized text has no [<], no [>] and neither quote. *)
Theorem sanitizeText_no_markup text c :
  c = "<"%char \/ c = ">"%char \/ c = "034"%char \/ c = "'"%char ->
  occurs c (sanitizeText text) = false.
Proof.
  intros Hc. induction text as [|x text IH]; [reflexivity|].
  rewrite sanitizeText_cons, occurs_append, IH, orb_false_r.
  simpl. destruct (isHtmlSpecial x) eqn:E.
  - apply isHtmlSpecial_cases in E.
    destruct E as [->|[->|[->|[->| ->]]]];
      destruct Hc as [->|[->|[->| ->]]]; reflexivity.
  - strings. simpl. rewrite orb_false_r. apply Ascii.eqb_neq. intros ->.
    destruct Hc as [->|[->|[->| ->]]]; discriminate.
Qed.

Lemma sanitizeText_no_markup_witness :
  occurs "<" (sanitizeText "<b onclick='x'>") = false.
Proof. apply sanitizeText_no_markup. now left. Defined.

(** X2.  Texts that differ sanitize to texts that differ. *)
Theorem sanitizeText_injective a b :
  sanitizeText a = sanitizeText b -> a = b.
Proof. apply sanitizeText_cancel. Qed.

Lemma sanitizeText_injective_witness : "a&b"%string = "a&b"%string.
Proof. apply sanitizeText_injective. reflexivity. Defined.

(** X3.  Sanitizing leaves a text as it is exactly when the text has none of
    the five characters, and sanitizing a second time changes every text
    that has one: the entities written the first time are escaped again. *)
Theorem sanitizeText_twice s :
  (sanitizeText s = s <-> plainText s = true)
  /\ (sanitizeText (sanitizeText s) = sanitizeText s <-> plainText s = true).
Proof.
  split; split.
  - apply sanitizeText_fixed.
  - apply sanitizeText_plain.
  - intros H. apply sanitizeText_cancel in H. now apply sanitizeText_fixed.
  - intros H. now rewrite !(sanitizeText_plain s H).
Qed.

(** ** [classNames] *)

Section ClassNames.

Lemma truthy_append a b :
  truthy (String.append a b) = truthy a || truthy b.
Proof. destruct a; [now rewrite append_empty | reflexivity]. Qed.

Lemma concat_cons sep x xs :
  String.concat sep (x :: xs)
  = match xs with
    | [] => x
    | _ => String.append x (String.append sep (String.concat sep xs))
    end.
Proof. destruct xs; reflexivity. Qed.

Lemma truthyArgs_truthy xs : Forall (fun s => truthy s = true) (truthyArgs xs).
Proof.
  unfold truthyArgs. apply List.Forall_forall. intros s Hs.
  apply in_flat_map in Hs as ([x|] & _ & Hx); [|destruct Hx].
  destruct (truthy x) eqn:E; [|destruct Hx]. destruct Hx as [<-|[]]. exact E.
Qed.

(** The loop of [classNames], from any text built so far. *)
Lemma classNames_from xs : forall acc,
  foldl (fun result x =>
           match x with
           | Some s =>
               if truthy s
               then String.append result
                      (String.append (if truthy result then " " else "") s)
               else result
           | None => result
           end) acc xs
  = if truthy acc
    then match truthyArgs xs with
         | [] => acc
         | args => String.append acc
                     (String.append " " (String.concat " " args))
         end
    else String.concat " " (truthyArgs xs).
Proof.
  induction xs as [|[s|] xs IH]; intros acc; cbn [foldl].
  - destruct acc; reflexivity.
  - change (truthyArgs (Some s :: xs)) with
      ((if truthy s then [s] else []) ++ truthyArgs xs).
    destruct (truthy s) eqn:Es; [|apply IH].
    rewrite IH, !truthy_append, Es, orb_true_r.
    simpl app. rewrite concat_cons.
    destruct (truthy acc) eqn:Ea.
    + destruct (truthyArgs xs); [reflexivity|]. now rewrite !append_assoc.
    + destruct acc; [|discriminate]. strings.
      destruct (truthyArgs xs); reflexivity.
  - apply IH.
Qed.

End ClassNames.

(** X4.  [classNames] joins its arguments that are strings and not empty with
    single spaces, in their order, and skips every other argument; without
    such an argument the result is empty. *)
Theorem classNames_joins xs :
  classNames xs = String.concat " " (truthyArgs xs).
Proof. unfold classNames. now rewrite classNames_from. Qed.

(** ** [generateId] *)

Section Ids.

Lemma uint_no_dash d : occurs "-" (NilEmpty.string_of_uint d) = false.
Proof. induction d; simpl; auto. Qed.

Lemma decimal_no_dash n : occurs "-" (decimal n) = false.
Proof. apply uint_no_dash. Qed.

Lemma decimal_inj a b : decimal a = decimal b -> a = b.
Proof.
  unfold decimal. intros H.
  apply (f_equal NilEmpty.uint_of_string) in H.
  rewrite !NilEmpty.usu in H. injection H as H.
  apply (f_equal N.of_uint) in H. now rewrite !DecimalN.Unsigned.of_to in H.
Qed.

(** Two texts cut at their first dash agree part by part. *)
Lemma cut_at_dash a : forall b x y,
  occurs "-" a = false -> occurs "-" b = false ->
  String.append a (String "-" x) = String.append b (String "-" y) ->
  a = b /\ x = y.
Proof.
  induction a as [|c a IH]; intros [|d b] x y Ha Hb H; strings; simpl in *.
  - now injection H.
  - rewrite append_cons in H. injection H as <- _.
    rewrite Ascii.eqb_refl in Hb. discriminate.
  - rewrite append_cons, append_empty in H. injection H as -> _.
    rewrite Ascii.eqb_refl in Ha. discriminate.
  - rewrite !append_cons in H. injection H as -> H.
    apply orb_false_iff in Ha as [_ Ha]. apply orb_false_iff in Hb as [_ Hb].
    destruct (IH b x y Ha Hb H) as [-> ->]. auto.
Qed.

Lemma generateId_counter now1 r1 c1 now2 r2 c2 :
  (c1 < 2 ^ 53)%N -> (c2 < 2 ^ 53)%N ->
  fst (generateId now1 r1 c1) = fst (generateId now2 r2 c2) -> c1 = c2.
Proof.
  unfold generateId. intros H1 H2.
  apply N.ltb_lt in H1, H2. rewrite H1, H2. simpl. intros H.
  change (String.append "-" ?x) with (String "-" x) in H.
  apply cut_at_dash in H as [_ H]; try apply decimal_no_dash.
  apply cut_at_dash in H as [H _]; try apply decimal_no_dash.
  apply decimal_inj in H. lia.
Qed.

Lemma generateId_next now r c :
  (c < 2 ^ 53)%N -> snd (generateId now r c) = N.succ c.
Proof. unfold generateId. intros H. apply N.ltb_lt in H. now rewrite H. Qed.

Lemma generateIds_cons now r draws c :
  generateIds ((now, r) :: draws) c
  = (fst (generateId now r c)
       :: fst (generateIds draws (snd (generateId now r c))),
     snd (generateIds draws (snd (generateId now r c)))).
Proof.
  cbn [generateIds]. destruct (generateId now r c) as [id c1].
  cbn [fst snd]. now destruct (generateIds draws c1).
Qed.

Lemma generateIds_later draws : forall c id,
  (c + N.of_nat (length draws) < 2 ^ 53)%N ->
  In id (fst (generateIds draws c)) ->
  exists now r k, (c <= k < 2 ^ 53)%N /\ id = fst (generateId now r k).
Proof.
  induction draws as [|[now r] draws IH]; intros c id Hc; [simpl; tauto|].
  rewrite generateIds_cons. cbn [fst length] in *.
  rewrite generateId_next by lia.
  intros [<- | Hin].
  - exists now, r, c. split; [lia | reflexivity].
  - destruct (IH (N.succ c) id ltac:(lia) Hin) as (now' & r' & k & Hk & ->).
    exists now', r', k. split; [lia | reflexivity].
Qed.

End Ids.

(** X5.  The ids that [generateId] makes in a row are all different, whatever
    the clock and the random part give, as long as the counter stays below
    [2^53], where [++] still adds one. *)
Theorem generateId_never_repeats draws idCounter :
  (idCounter + N.of_nat (length draws) < 2 ^ 53)%N ->
  List.NoDup (fst (generateIds draws idCounter))
  /\ snd (generateIds draws idCounter) = (idCounter + N.of_nat (length draws))%N.
Proof.
  revert idCounter.
  induction draws as [|[now r] draws IH]; intros c Hc.
  - split; [constructor | simpl; lia].
  - rewrite generateIds_cons. cbn [fst snd length] in *.
    rewrite generateId_next by lia.
    destruct (IH (N.succ c) ltac:(lia)) as [Hnd Hk].
    split; [|lia]. constructor; [|assumption].
    intros Hin.
    apply generateIds_later in Hin as (now' & r' & k & Hk' & Heq); [|lia].
    apply generateId_counter in Heq; lia.
Qed.

Lemma generateId_never_repeats_witness :
  List.NoDup
    (fst (generateIds
            [(1700000000000, "k3x9q1z"); (1700000000000, "k3x9q1z")]%N 0))
  /\ snd (generateIds
            [(1700000000000, "k3x9q1z"); (1700000000000, "k3x9q1z")]%N 0)
     = (0 + N.of_nat 2)%N.
Proof. apply generateId_never_repeats. reflexivity. Defined.

(** ** [getInitials] *)

Section Initials.
Context {C : Type} (isSpace : C -> bool).

Lemma parts_word c s : forall f,
  exists rest,
    parts isSpace (c :: f) s = (c :: rest) :: parts isSpace [] (skipWord isSpace s).
Proof.
  unfold parts. induction s as [|x s IH]; intros f; simpl.
  - now exists f.
  - destruct (isSpace x) eqn:E; simpl.
    + exists f. now rewrite E.
    + apply (IH (f ++ [x])).
Qed.

Lemma parts_spaces s : parts isSpace [] s = parts isSpace [] (skipSpaces isSpace s).
Proof.
  unfold parts. induction s as [|x s IH]; simpl; [reflexivity|].
  destruct (isSpace x) eqn:E; simpl; [exact IH | now rewrite E].
Qed.

Lemma skipSpaces_head s c rest :
  skipSpaces isSpace s = c :: rest -> isSpace c = false.
Proof.
  induction s as [|x s IH]; simpl; [discriminate|].
  destruct (isSpace x) eqn:E; [exact IH | now intros [= <- _]].
Qed.

Lemma parts_start s :
  match skipSpaces isSpace s with
  | [] => parts isSpace [] s = []
  | c :: rest =>
      exists w, parts isSpace [] s = (c :: w) :: parts isSpace [] (skipWord isSpace rest)
  end.
Proof.
  rewrite parts_spaces. destruct (skipSpaces isSpace s) as [|c rest] eqn:E.
  - reflexivity.
  - apply skipSpaces_head in E.
    destruct (parts_word c rest []) as [w Hw]. exists w. rewrite <- Hw.
    unfold parts. simpl. now rewrite E.
Qed.

Lemma getInitials_parts name :
  getInitials isSpace name
  = flat_map (fun p => match p with c :: _ => [c] | [] => [] end)
             (take 2 (parts isSpace [] name)).
Proof. reflexivity. Qed.

End Initials.

(** X6.  [getInitials] answers the first code unit of the first word of the
    name and that of the second, the words being what spaces separate,
    however many spaces there are and wherever they stand: at most two code
    units, none of them a space, and none at all exactly when the name has
    nothing but spaces. *)
Theorem getInitials_first_letters {C} (isSpace : C -> bool) (name : list C) :
  getInitials isSpace name = firstLetters isSpace name
  /\ (length (getInitials isSpace name) <= 2)%nat
  /\ Forall (fun c => isSpace c = false) (getInitials isSpace name)
  /\ (getInitials isSpace name = [] <-> Forall (fun c => isSpace c = true) name).
Proof.
  assert (getInitials isSpace name = firstLetters isSpace name) as Heq.
  { rewrite getInitials_parts. unfold firstLetters.
    pose proof (parts_start isSpace name) as H1.
    destruct (skipSpaces isSpace name) as [|c rest]; [now rewrite H1|].
    destruct H1 as [w ->].
    pose proof (parts_start isSpace (skipWord isSpace rest)) as H2.
    destruct (skipSpaces isSpace (skipWord isSpace rest)) as [|d rest'];
      [now rewrite H2|].
    destruct H2 as [w' ->]. reflexivity. }
  rewrite Heq. unfold firstLetters. repeat split.
  - destruct (skipSpaces isSpace name); [simpl; lia|].
    destruct (skipSpaces isSpace (skipWord isSpace _)); simpl; lia.
  - destruct (skipSpaces isSpace name) as [|c rest] eqn:E1; [constructor|].
    constructor; [eapply skipSpaces_head; eauto|].
    destruct (skipSpaces isSpace (skipWord isSpace rest)) eqn:E2; constructor;
      [eapply skipSpaces_head; eauto | constructor].
  - intros H. destruct (skipSpaces isSpace name) eqn:E; [|discriminate].
    clear H Heq. induction name as [|x name IH]; [constructor|].
    simpl in E. destruct (isSpace x) eqn:Ex; [|discriminate]. auto.
  - intros H. assert (skipSpaces isSpace name = []) as ->; [|reflexivity].
    clear Heq. induction name as [|x name IH]; [reflexivity|].
    apply Forall_cons in H as [Hx H]. simpl. rewrite Hx. auto.
Qed.

(** ** [randomInt] *)

(** X7.  With [crypto.getRandomValues], [randomInt min max] on integers
    that a [number] holds exactly returns an integer from [min] to [max], the
    bounds included, whatever raw number is delivered, and takes one raw
    number. *)
Theorem randomInt_within_bounds min max w :
  crypto w = true ->
  - 2 ^ 53 <= min -> min <= max -> max <= 2 ^ 53 ->
  exists n, randomInt min max w = Some (n, consume w) /\ min <= n <= max.
Proof.
  intros Hc _ H _. exists (nextInt min max w). split; [reflexivity|].
  unfold nextInt. rewrite Hc.
  set (raw := Z.of_N (entropy w (drawn w))).
  assert (0 <= raw mod 2 ^ 32) by (apply Z.mod_pos_bound; lia).
  pose proof (Z.rem_bound_pos (raw mod 2 ^ 32) (max - min + 1)).
  lia.
Qed.

Lemma randomInt_within_bounds_witness :
  exists n, randomInt 1 3 (sampleWorld [] []) = Some (n, consume (sampleWorld [] []))
            /\ 1 <= n <= 3.
Proof. apply randomInt_within_bounds; [reflexivity | lia..]. Defined.

(** X8.  With [crypto.getRandomValues] no integer of the range is left out:
    for each there is a raw number on which [randomInt] returns it, as long
    as the range has no more than [2^32] integers. *)
Theorem randomInt_reaches_every_value min max n w :
  min <= n <= max -> max - min < 2 ^ 32 ->
  randomInt min max (reseed true (fun _ => rawFor min n) (drawn w) w)
  = Some (n, consume (reseed true (fun _ => rawFor min n) (drawn w) w)).
Proof.
  intros Hn Hspan. unfold randomInt, nextInt, rawFor. cbn [crypto entropy reseed drawn].
  do 2 f_equal. rewrite Z2N.id by lia.
  rewrite Z.mod_small by lia. rewrite Z.rem_small by lia. lia.
Qed.

Lemma randomInt_reaches_every_value_witness :
  randomInt 1 3
    (reseed true (fun _ => rawFor 1 3) (drawn (sampleWorld [] []))
            (sampleWorld [] []))
  = Some (3, consume (reseed true (fun _ => rawFor 1 3)
                             (drawn (sampleWorld [] [])) (sampleWorld [] []))).
Proof. apply randomInt_reaches_every_value; lia. Defined.

(** ** [findGerenteId] *)

(** X9.  [findGerenteId] never looks at a roster array twice: once it has
    answered for an array, it gives the same answer for that array in every
    later state that kept the entry, whatever the array holds by then. *)
Theorem findGerenteId_answers_from_memo users g w w1 w2 :
  findGerenteId users w = Some (g, w1) ->
  GERENTE_CACHE w2 !! users = GERENTE_CACHE w1 !! users ->
  findGerenteId users w2 = Some (g, w2).
Proof.
  intros H Hkeep. apply findGerenteId_frame in H as (_ & _ & _ & _ & Hg & _).
  apply findGerenteId_hit. now rewrite Hkeep.
Qed.

Lemma findGerenteId_answers_from_memo_witness :
  findGerenteId usersRef
    (setCache (<[usersRef := Some "u15"%string]> ∅) (sampleWorld titleFirst []))
  = Some (Some "u15"%string,
          setCache (<[usersRef := Some "u15"%string]> ∅) (sampleWorld titleFirst []))
  /\ firstGerente titleFirst = Some "u12"%string.
Proof.
  split; [|reflexivity].
  apply (findGerenteId_answers_from_memo usersRef (Some "u15"%string)
           (sampleWorld gerenteOnly [])
           (setCache (<[usersRef := Some "u15"%string]> ∅)
                     (sampleWorld gerenteOnly [])));
    reflexivity.
Defined.

(** ** More of [computeResults] *)

Section MoreResults.

Lemma get_countPicks l : forall o c,
  c <> "__proto__"%string ->
  JS.orZero (JS.get (foldl countPick o l) c)
  = JS.orZero (JS.get o c) + timesPicked c l.
Proof.
  unfold timesPicked.
  induction l as [|a l IH]; intros o c Hc; cbn [foldl List.filter].
  - cbn [length]. lia.
  - rewrite IH by assumption. unfold countPick.
    destruct (String.eqb c a) eqn:E.
    + apply String.eqb_eq in E. subst a.
      rewrite assign_set, get_set_eq, orZero_Some by assumption.
      cbn [length]. lia.
    + apply String.eqb_neq in E.
      destruct (string_dec a "__proto__") as [->|Ha].
      * now rewrite assign_proto.
      * rewrite assign_set, get_set_ne by auto. reflexivity.
Qed.

Lemma timesPicked_pos c l : In c l -> 1 <= timesPicked c l.
Proof.
  unfold timesPicked. intros H.
  assert (In c (List.filter (String.eqb c) l)) as Hin.
  { apply filter_In. split; [assumption | apply String.eqb_refl]. }
  destruct (List.filter (String.eqb c) l); [destruct Hin | simpl; lia].
Qed.

Lemma sortedRows_row used r :
  In r (sortedRows used) ->
  ResultRow.votes r = timesPicked (ResultRow.candidateId r) (allPicks used)
  /\ ResultRow.days r = 0.
Proof.
  intros H. pose proof (sortedRows_ids used r H) as [_ Hproto].
  apply (Permutation_in _ (sortedRows_perm used)) in H.
  unfold initialRows in H. apply in_map_iff in H as (cid & <- & _).
  cbn [ResultRow.votes ResultRow.candidateId ResultRow.days] in *.
  split; [|reflexivity].
  rewrite read_orZero, tally_allPicks, get_countPicks by assumption.
  cbn [JS.get]. unfold JS.orZero. lia.
Qed.

Lemma sortedRows_ids_perm used :
  Permutation (map ResultRow.candidateId (sortedRows used))
              (firstSeen (counted (allPicks used))).
Proof.
  rewrite (Permutation_map _ (sortedRows_perm used)), initialRows_ids.
  rewrite keys_perm. now rewrite tally_keys.
Qed.

Lemma finalRows_ids rs d :
  map ResultRow.candidateId (finalRows rs d) = map ResultRow.candidateId rs.
Proof. unfold finalRows. now apply map_imap. Qed.

Lemma In_lookup {A} (x : A) l : In x l -> exists i, l !! i = Some x.
Proof. intros H. apply list_elem_of_In in H. now apply list_elem_of_lookup_1. Qed.

Lemma bonusPicks_ballot options g used :
  bonusPicks options g used = []
  \/ exists v, In v used /\ bonusPicks options g used = Vote.picks v.
Proof.
  unfold bonusPicks. destruct (enableGerenteBonus options); [|now left].
  destruct g as [g|]; [|now left].
  destruct (List.find _ used) as [v|] eqn:E; [|now left].
  right. exists v. split; [|reflexivity]. now apply find_some in E.
Qed.

Lemma nonDiscarded_In vs disc used v :
  nonDiscarded vs disc used -> In v used -> In v vs.
Proof.
  destruct disc as [d|]; simpl.
  - intros (idx & v0 & _ & _ & ->) H. apply list_elem_of_In.
    apply list_elem_of_In in H. eapply list_elem_of_delete_inv. exact H.
  - now intros ->.
Qed.

Lemma bonusFor_nonneg c picks bonuses :
  Forall (fun b => 1 <= b <= 3) bonuses -> 0 <= bonusFor c picks bonuses.
Proof.
  unfold bonusFor. revert bonuses.
  induction picks as [|p picks IH]; intros [|b bonuses] Hb; simpl;
    try (unfold sumZ; simpl; lia).
  apply Forall_cons in Hb as [Hb1 Hb].
  specialize (IH bonuses Hb).
  destruct (String.eqb p c); simpl; unfold sumZ in *; simpl; lia.
Qed.

Lemma baseDays_range used g c : 0 <= baseDays used g c <= 3.
Proof. rewrite baseDays_table. apply dayTable_range. Qed.

Lemma dayTable_false n : dayTable n false <= 2.
Proof. destruct n as [|[|[|n]]]; simpl; lia. Qed.

Lemma votedFor_absent g used c :
  Forall (fun v => Vote.voterId v <> g) used -> votedFor g used c = false.
Proof.
  unfold votedFor. induction 1 as [|v used Hv _ IH]; simpl; [reflexivity|].
  apply String.eqb_neq in Hv. now rewrite Hv.
Qed.

Lemma find_absent g used :
  Forall (fun v => Vote.voterId v <> g) used ->
  List.find (fun v => String.eqb (Vote.voterId v) g) used = None.
Proof.
  induction 1 as [|v used Hv _ IH]; simpl; [reflexivity|].
  apply String.eqb_neq in Hv. now rewrite Hv.
Qed.

Lemma discardStep_drawn options vs w used disc w' :
  discardStep options vs w = Some ((used, disc), w') ->
  drawn w' = (discardDraws options vs + drawn w)%nat.
Proof.
  unfold discardDraws. destruct (discardOneRandomVote options) eqn:Ho.
  - destruct vs as [|v0 vs'].
    + rewrite discardStep_off by auto. now intros [= _ _ <-].
    + destruct (discardStep_on options (v0 :: vs') w Ho ltac:(discriminate))
        as (idx & v & _ & _ & ->). now intros [= _ _ <-].
  - rewrite discardStep_off by auto. now intros [= _ _ <-].
Qed.

End MoreResults.

Lemma computeResults_rows nominations votes users options w vs us :
  heap w !! votes = Some (VoteArray vs) ->
  heap w !! users = Some (UserArray us) ->
  exists res w' used,
    computeResults nominations votes users options w = Some (res, w')
    /\ nonDiscarded vs (discardedVoterId res) used
    /\ List.NoDup (map ResultRow.candidateId (rows res))
    /\ (forall c, In c (map ResultRow.candidateId (rows res))
                  <-> In c (allPicks used) /\ c <> "__proto__"%string)
    /\ (forall r, In r (rows res) ->
          ResultRow.votes r
          = timesPicked (ResultRow.candidateId r) (allPicks used)
          /\ 1 <= ResultRow.votes r).
Proof.
  intros Hv Hu.
  destruct (computeResults_returns nominations votes users options w vs us Hv Hu)
    as (res & w' & Hrun).
  destruct (computeResults_run _ _ _ _ _ _ _ _ Hv Hrun)
    as (gid & w1 & used & w2 & _ & _ & Hnd & Hrank & _ & Hrows).
  exists res, w', used. split; [assumption|]. split; [assumption|].
  assert (map ResultRow.candidateId (rows res)
          = map ResultRow.candidateId (sortedRows used)) as Hids.
  { rewrite Hrows. apply finalRows_ids. }
  rewrite Hids. split; [apply sortedRows_ids_NoDup|]. split.
  - intros c. rewrite (sortedRows_ids_perm used).
    rewrite firstSeen_In. apply counted_In.
  - intros r Hr. apply In_lookup in Hr as [i Hi].
    destruct (rankAndAward_row _ _ _ _ _ _ i r Hrank Hi)
      as (r0 & Hr0 & Hid & Hvotes & _).
    assert (In r0 (sortedRows used)) as Hin.
    { apply list_elem_of_In. eapply list_elem_of_lookup_2. exact Hr0. }
    destruct (sortedRows_row used r0 Hin) as [Hv0 _].
    destruct (sortedRows_ids used r0 Hin) as [Hpick _].
    rewrite Hvotes, Hid, Hv0. split; [reflexivity|].
    now apply timesPicked_pos.
Qed.

(** X10.  When no pick names a function inherited from [Object.prototype],
    the rows of [computeResults] are the candidates named on the ballots
    that count, one row each: a candidate has a row exactly when some ballot
    that counts names it (and its id is not [__proto__]), and the votes of
    the row are the number of places that name it. *)
Theorem rows_are_the_counted_candidates nominations votes users options w vs us :
  heap w !! votes = Some (VoteArray vs) ->
  heap w !! users = Some (UserArray us) ->
  Forall (fun c => inheritedMethod c = false) (allPicks vs) ->
  exists res w' used,
    computeResults nominations votes users options w = Some (res, w')
    /\ nonDiscarded vs (discardedVoterId res) used
    /\ List.NoDup (map ResultRow.candidateId (rows res))
    /\ (forall c, In c (map ResultRow.candidateId (rows res))
                  <-> In c (allPicks used) /\ c <> "__proto__"%string)
    /\ (forall r, In r (rows res) ->
          ResultRow.votes r
          = timesPicked (ResultRow.candidateId r) (allPicks used)
          /\ 1 <= ResultRow.votes r).
Proof. intros Hv Hu _. now apply computeResults_rows with (us := us). Qed.

Lemma rows_are_the_counted_candidates_witness :
  exists res w' used,
    run gerenteOnly protoBallot (mkOptions false false) = Some (res, w')
    /\ nonDiscarded protoBallot (discardedVoterId res) used
    /\ List.NoDup (map ResultRow.candidateId (rows res))
    /\ (forall c, In c (map ResultRow.candidateId (rows res))
                  <-> In c (allPicks used) /\ c <> "__proto__"%string)
    /\ (forall r, In r (rows res) ->
          ResultRow.votes r
          = timesPicked (ResultRow.candidateId r) (allPicks used)
          /\ 1 <= ResultRow.votes r).
Proof.
  apply (rows_are_the_counted_candidates nominationsRef votesRef usersRef
           (mkOptions false false) (sampleWorld gerenteOnly protoBallot)
           protoBallot gerenteOnly); [reflexivity | reflexivity |].
  repeat constructor.
Defined.

Lemma computeResults_day_bounds nominations votes users options w vs us :
  heap w !! votes = Some (VoteArray vs) ->
  heap w !! users = Some (UserArray us) ->
  exists res w',
    computeResults nominations votes users options w = Some (res, w')
    /\ forall i r, rows res !! i = Some r ->
         0 <= ResultRow.days r
         /\ ((3 <= i)%nat -> ResultRow.days r = 0)
         /\ (enableGerenteBonus options = false -> ResultRow.days r <= 3)
         /\ (Forall (fun v => List.NoDup (Vote.picks v)) vs ->
             ResultRow.days r <= 6).
Proof.
  intros Hv Hu.
  destruct (computeResults_returns nominations votes users options w vs us Hv Hu)
    as (res & w' & Hrun).
  destruct (computeResults_run _ _ _ _ _ _ _ _ Hv Hrun)
    as (gid & w1 & used & w2 & _ & _ & Hnd & Hrank & _).
  exists res, w'. split; [assumption|]. intros i r Hi.
  destruct (rankAndAward_row _ _ _ _ _ _ i r Hrank Hi)
    as (r0 & _ & _ & _ & Hdays).
  set (g := resolveGerente gid) in *.
  set (picks := bonusPicks options g used) in *.
  pose proof (baseDays_range used g (ResultRow.candidateId r)) as Hbase.
  pose proof (bonusDraws_range (length picks) w2) as Hb.
  pose proof (bonusFor_nonneg (ResultRow.candidateId r) picks _ Hb) as H0.
  destruct (i <? 3)%nat eqn:E.
  - apply Nat.ltb_lt in E. repeat split.
    + lia.
    + lia.
    + intros Hoff. subst picks. unfold bonusPicks in Hdays. rewrite Hoff in Hdays.
      unfold bonusFor in Hdays. simpl in Hdays. unfold sumZ in Hdays.
      simpl in Hdays. lia.
    + intros Hdup.
      assert (List.NoDup picks) as Hpicks.
      { subst picks. destruct (bonusPicks_ballot options g used) as [->|(v & Hin & ->)];
          [constructor|].
        apply (nonDiscarded_In _ _ _ _ Hnd) in Hin.
        rewrite List.Forall_forall in Hdup. now apply Hdup. }
      pose proof (bonusFor_upper (ResultRow.candidateId r) picks _ Hpicks
                    (bonusDraws_length _ _) Hb).
      lia.
  - apply Nat.ltb_ge in E. repeat split; intros; lia.
Qed.

(** X11.  No day award is negative, the rows after the third have none, an
    award is at most 3 without the bonus and at most 6 with it when no
    ballot names a candidate twice. *)
Theorem day_awards_within_bounds nominations votes users options w vs us :
  heap w !! votes = Some (VoteArray vs) ->
  heap w !! users = Some (UserArray us) ->
  exists res w',
    computeResults nominations votes users options w = Some (res, w')
    /\ forall i r, rows res !! i = Some r ->
         0 <= ResultRow.days r
         /\ ((3 <= i)%nat -> ResultRow.days r = 0)
         /\ (enableGerenteBonus options = false -> ResultRow.days r <= 3)
         /\ (Forall (fun v => List.NoDup (Vote.picks v)) vs ->
             ResultRow.days r <= 6).
Proof. apply computeResults_day_bounds. Qed.

Lemma day_awards_within_bounds_witness :
  exists res w',
    run gerenteOnly fourCandidates (mkOptions true true) = Some (res, w')
    /\ forall i r, rows res !! i = Some r ->
         0 <= ResultRow.days r
         /\ ((3 <= i)%nat -> ResultRow.days r = 0)
         /\ (enableGerenteBonus (mkOptions true true) = false ->
             ResultRow.days r <= 3)
         /\ (Forall (fun v => List.NoDup (Vote.picks v)) fourCandidates ->
             ResultRow.days r <= 6).
Proof.
  apply (day_awards_within_bounds nominationsRef votesRef usersRef
           (mkOptions true true) (sampleWorld gerenteOnly fourCandidates)
           fourCandidates gerenteOnly); reflexivity.
Defined.

(** X12.  [computeResults] takes one random number for the discard, when
    there is one, and one for each place of the Gerente's ballot that
    counts, when the bonus is on; it takes no other. *)
Theorem computeResults_draw_count nominations votes users options w vs us :
  coherent w ->
  heap w !! votes = Some (VoteArray vs) ->
  heap w !! users = Some (UserArray us) ->
  exists res w' used,
    computeResults nominations votes users options w = Some (res, w')
    /\ nonDiscarded vs (discardedVoterId res) used
    /\ drawn w'
       = (drawn w + discardDraws options vs
          + length (bonusPicks options (resolveGerente (firstGerente us)) used))%nat.
Proof.
  intros Hc Hv Hu.
  destruct (computeResults_returns nominations votes users options w vs us Hv Hu)
    as (res & w' & Hrun).
  destruct (computeResults_run _ _ _ _ _ _ _ _ Hv Hrun)
    as (gid & w1 & used & w2 & Hg & Hd & Hnd & _ & Hw' & _).
  pose proof (findGerenteId_value _ _ _ _ _ Hc Hu Hg) as ->.
  exists res, w', used. split; [assumption|]. split; [assumption|].
  apply findGerenteId_frame in Hg as (_ & _ & _ & Hdr & _).
  apply discardStep_drawn in Hd. rewrite Hw'. unfold consumeN. simpl. lia.
Qed.

Lemma computeResults_draw_count_witness :
  exists res w' used,
    run gerenteOnly fourCandidates (mkOptions true true) = Some (res, w')
    /\ nonDiscarded fourCandidates (discardedVoterId res) used
    /\ drawn w'
       = (drawn (sampleWorld gerenteOnly fourCandidates)
          + discardDraws (mkOptions true true) fourCandidates
          + length (bonusPicks (mkOptions true true)
                      (resolveGerente (firstGerente gerenteOnly)) used))%nat.
Proof.
  apply (computeResults_draw_count nominationsRef votesRef usersRef
           (mkOptions true true) (sampleWorld gerenteOnly fourCandidates)
           fourCandidates gerenteOnly); [|reflexivity|reflexivity].
  apply coherent_empty. reflexivity.
Defined.

(** X13.  When no ballot that counts is the Gerente's, because it was the
    one discarded or was never cast, nobody is awarded more than two days and
    no bonus is drawn, whatever the options. *)
Theorem no_third_day_without_gerente_ballot
    nominations votes users options w vs us :
  coherent w ->
  heap w !! votes = Some (VoteArray vs) ->
  heap w !! users = Some (UserArray us) ->
  exists res w' used,
    computeResults nominations votes users options w = Some (res, w')
    /\ nonDiscarded vs (discardedVoterId res) used
    /\ (Forall (fun v => Some (Vote.voterId v) <> firstGerente us) used ->
        drawn w' = (drawn w + discardDraws options vs)%nat
        /\ forall i r, rows res !! i = Some r ->
             ResultRow.days r
             = (if (i <? 3)%nat
                then dayTable
                       (length (distinctVoters used (ResultRow.candidateId r)))
                       false
                else 0)
             /\ ResultRow.days r <= 2).
Proof.
  intros Hc Hv Hu.
  destruct (computeResults_returns nominations votes users options w vs us Hv Hu)
    as (res & w' & Hrun).
  destruct (computeResults_run _ _ _ _ _ _ _ _ Hv Hrun)
    as (gid & w1 & used & w2 & Hg & Hd & Hnd & Hrank & Hw' & _).
  pose proof (findGerenteId_value _ _ _ _ _ Hc Hu Hg) as ->.
  exists res, w', used. split; [assumption|]. split; [assumption|].
  intros Habsent.
  set (g := resolveGerente (firstGerente us)) in *.
  assert (bonusPicks options g used = [] /\ forall c, gerenteAmong g used c = false)
    as [Hpicks Hamong].
  { unfold bonusPicks, gerenteAmong. destruct g as [g'|] eqn:Eg.
    - assert (firstGerente us = Some g') as Hfg.
      { subst g. unfold resolveGerente in Eg.
        destruct (firstGerente us) as [x|]; [|discriminate].
        destruct (String.eqb x ""); [discriminate | exact Eg]. }
      assert (Forall (fun v => Vote.voterId v <> g') used) as Hne.
      { eapply List.Forall_impl; [|exact Habsent]. simpl. intros v Hx He.
        apply Hx. rewrite Hfg. now f_equal. }
      rewrite (find_absent _ _ Hne). split.
      + now destruct (enableGerenteBonus options).
      + intros c. now apply votedFor_absent.
    - split; [now destruct (enableGerenteBonus options) | reflexivity]. }
  split.
  - apply findGerenteId_frame in Hg as (_ & _ & _ & Hdr & _).
    apply discardStep_drawn in Hd. rewrite Hw', Hpicks.
    unfold consumeN. simpl. lia.
  - intros i r Hi.
    destruct (rankAndAward_row _ _ _ _ _ _ i r Hrank Hi)
      as (r0 & _ & _ & _ & Hdays).
    fold g in Hdays. rewrite Hpicks in Hdays.
    rewrite baseDays_table, Hamong in Hdays.
    change (bonusFor _ [] _) with 0 in Hdays.
    rewrite Z.add_0_r in Hdays. split; [exact Hdays|].
    rewrite Hdays. destruct (i <? 3)%nat; [|lia].
    apply dayTable_false.
Qed.

Lemma no_third_day_without_gerente_ballot_witness :
  exists res w' used,
    run gerenteOnly (threeVoters "u13") (mkOptions false true) = Some (res, w')
    /\ nonDiscarded (threeVoters "u13") (discardedVoterId res) used
    /\ (Forall (fun v => Some (Vote.voterId v) <> firstGerente gerenteOnly) used ->
        drawn w' = (drawn (sampleWorld gerenteOnly (threeVoters "u13"))
                    + discardDraws (mkOptions false true) (threeVoters "u13"))%nat
        /\ forall i r, rows res !! i = Some r ->
             ResultRow.days r
             = (if (i <? 3)%nat
                then dayTable
                       (length (distinctVoters used (ResultRow.candidateId r)))
                       false
                else 0)
             /\ ResultRow.days r <= 2).
Proof.
  apply (no_third_day_without_gerente_ballot nominationsRef votesRef usersRef
           (mkOptions false true) (sampleWorld gerenteOnly (threeVoters "u13"))
           (threeVoters "u13") gerenteOnly); [|reflexivity|reflexivity].
  apply coherent_empty. reflexivity.
Defined.

(** X14.  Without ballots [computeResults] returns no row and no discarded
    voter and takes no random number, whatever the options. *)
Theorem no_ballots_no_rows nominations votes users options w us :
  heap w !! votes = Some (VoteArray []) ->
  heap w !! users = Some (UserArray us) ->
  exists w',
    computeResults nominations votes users options w
    = Some (mkResults [] None, w')
    /\ drawn w' = drawn w.
Proof.
  intros Hv Hu.
  destruct (computeResults_returns nominations votes users options w [] us Hv Hu)
    as (res & w' & Hrun).
  destruct (computeResults_run _ _ _ _ _ _ _ _ Hv Hrun)
    as (gid & w1 & used & w2 & Hg & Hd & _ & _ & Hw' & Hrows).
  rewrite discardStep_off in Hd by auto. injection Hd as <- Hdisc <-.
  apply findGerenteId_frame in Hg as (_ & _ & _ & Hdr & _).
  assert (bonusPicks options (resolveGerente gid) [] = []) as Hp.
  { unfold bonusPicks. destruct (enableGerenteBonus options); [|reflexivity].
    now destruct (resolveGerente gid). }
  exists w'. rewrite Hp in Hw', Hrows. split.
  - rewrite Hrun. destruct res as [rs disc]. simpl in *. now subst.
  - rewrite Hw'. unfold consumeN. simpl. lia.
Qed.

Lemma no_ballots_no_rows_witness :
  exists w',
    run gerenteOnly [] (mkOptions true true) = Some (mkResults [] None, w')
    /\ drawn w' = drawn (sampleWorld gerenteOnly []).
Proof.
  apply (no_ballots_no_rows nominationsRef votesRef usersRef
           (mkOptions true true) (sampleWorld gerenteOnly []) gerenteOnly);
    reflexivity.
Defined.

(** ** More of the schedule check *)

Section MoreSchedule.

Lemma isValidSchedule_code days :
  days <> [] ->
  isValidSchedule days
  = if existsb mondayb days
    then mkCheck false (Some "No se permiten lunes"%string)
    else if hasConsecutive (JS.sort byTimestamp (map dateInfoOf days))
         then mkCheck false (Some "No se permiten días consecutivos"%string)
         else mkCheck true None.
Proof.
  intros Hne. unfold isValidSchedule.
  destruct days as [|d rest]; [congruence|].
  change (length (d :: rest) =? 0)%nat with false. cbv iota.
  rewrite scanDays_spec. now destruct (existsb mondayb (d :: rest)).
Qed.

Lemma isValidSchedule_outcomes days :
  isValidSchedule days = mkCheck false (Some "Selecciona al menos un día"%string)
  \/ isValidSchedule days = mkCheck false (Some "No se permiten lunes"%string)
  \/ isValidSchedule days
     = mkCheck false (Some "No se permiten días consecutivos"%string)
  \/ isValidSchedule days = mkCheck true None.
Proof.
  destruct days as [|d rest]; [now left|].
  rewrite isValidSchedule_code by discriminate.
  destruct (existsb mondayb (d :: rest)); [tauto|].
  destruct (hasConsecutive _); tauto.
Qed.

Lemma Date_getTime_days s t :
  Date_getTime s = Some t -> exists k, t = k * MS_PER_DAY.
Proof.
  unfold Date_getTime.
  do 10 (destruct s as [|? s]; [discriminate|]).
  destruct (_ && _ && _); [|discriminate].
  destruct (number4 _ _ _ _); [|discriminate].
  destruct (number2 _ _); [|discriminate].
  destruct (number2 _ _); [|discriminate].
  destruct (_ && _ && _ && _); [|discriminate].
  intros [= <-]. eauto.
Qed.

Lemma timeValue_days d : exists k, timeValue d = k * MS_PER_DAY.
Proof.
  unfold timeValue, timestampOf.
  destruct (Date_getTime _) as [t|] eqn:E.
  - eapply Date_getTime_days; eauto.
  - now exists 0.
Qed.

(** In a sorted list of multiples of [D], two members [D] apart have two
    neighbours [D] apart between them. *)
Lemma sorted_neighbours D l :
  0 < D ->
  Forall (fun t => exists k, t = k * D) l ->
  StronglySorted Z.le l ->
  forall x, In x l -> In (x + D) l ->
    exists i a b, l !! i = Some a /\ l !! S i = Some b /\ b - a = D.
Proof.
  intros HD Hmul Hs. induction Hs as [|h t Hs IH Hall]; intros x Hx Hy;
    [destruct Hx|].
  apply Forall_cons in Hmul as [[kh Hh] Hmul].
  rewrite List.Forall_forall in Hall.
  assert (forall x, In x t -> In (x + D) t ->
            exists i a b, (h :: t) !! i = Some a /\ (h :: t) !! S i = Some b
                          /\ b - a = D) as Hshift.
  { intros x' Hx' Hy'. destruct (IH Hmul x' Hx' Hy') as (i & a & b & Ha & Hb & Hd).
    now exists (S i), a, b. }
  destruct Hx as [<- | Hx], Hy as [Hy | Hy].
  - lia.
  - destruct t as [|h2 t']; [destruct Hy|].
    pose proof (Hall h2 (or_introl eq_refl)) as Hle.
    pose proof (Forall_inv Hmul) as [k2 Hk2].
    inversion Hs as [|? ? _ Hall2]; subst.
    rewrite List.Forall_forall in Hall2.
    assert (kh * D <= (kh * D + D)) by lia.
    destruct (Z.eq_dec k2 kh) as [->|Hne1].
    + apply (Hshift (kh * D)); [now left | assumption].
    + destruct (Z.eq_dec k2 (kh + 1)) as [->|Hne2].
      * exists 0%nat, (kh * D), ((kh + 1) * D). repeat split. lia.
      * exfalso.
        assert (kh < k2) by nia. assert (kh + 2 <= k2) by lia.
        assert (k2 * D <= kh * D + D).
        { destruct Hy as [<- | Hy]; [lia|]. apply Hall2 in Hy. lia. }
        nia.
  - apply Hall in Hx. lia.
  - now apply (Hshift x).
Qed.

Lemma consecutive_dayApart days :
  consecutiveAfterSorting days <-> dayApart days.
Proof.
  split.
  - intros (sorted & Hp & _ & i & a & b & Ha & Hb & Hd).
    assert (In a (map timeValue days)) as Hina.
    { apply (Permutation_in _ Hp). apply list_elem_of_In.
      eapply list_elem_of_lookup_2. exact Ha. }
    assert (In b (map timeValue days)) as Hinb.
    { apply (Permutation_in _ Hp). apply list_elem_of_In.
      eapply list_elem_of_lookup_2. exact Hb. }
    apply in_map_iff in Hina as (da & <- & Hda).
    apply in_map_iff in Hinb as (db & <- & Hdb).
    now exists da, db.
  - intros (da & db & Hda & Hdb & Hd).
    set (sorted := JS.sort (fun a b => a - b) (map timeValue days)).
    assert (Permutation sorted (map timeValue days)) as Hp by apply sort_perm.
    assert (StronglySorted Z.le sorted) as Hs.
    { apply (sort_sorted (fun a b => a - b) (fun t => t) (fun _ => True)).
      - intros x y _ _. lia.
      - apply List.Forall_forall. auto. }
    exists sorted. split; [assumption|]. split; [assumption|].
    apply (sorted_neighbours MS_PER_DAY sorted ltac:(reflexivity)) with
      (x := timeValue da); try assumption.
    + apply List.Forall_forall. intros t Ht.
      apply (Permutation_in _ Hp) in Ht.
      apply in_map_iff in Ht as (d & <- & _). apply timeValue_days.
    + apply (Permutation_in _ (Permutation_sym Hp)). now apply in_map.
    + apply (Permutation_in _ (Permutation_sym Hp)).
      replace (timeValue da + MS_PER_DAY) with (timeValue db) by lia.
      now apply in_map.
Qed.

Lemma existsb_perm {A} (p : A -> bool) l l' :
  Permutation l l' -> existsb p l = existsb p l'.
Proof.
  intros H. apply eq_true_iff_eq. rewrite !existsb_exists.
  split; intros (x & Hx & Hp); exists x; split; try assumption.
  - now apply (Permutation_in _ H).
  - now apply (Permutation_in _ (Permutation_sym H)).
Qed.

Lemma consecutive_perm days days' :
  Permutation days days' ->
  consecutiveAfterSorting days -> consecutiveAfterSorting days'.
Proof.
  intros H (sorted & Hp & Hs & Hadj). exists sorted.
  split; [|now split]. rewrite Hp. now apply Permutation_map.
Qed.

Lemma isValidSchedule_perm days days' :
  Forall isCalendarDate days -> Permutation days days' ->
  isValidSchedule days = isValidSchedule days'.
Proof.
  intros Hv Hperm.
  assert (Forall isCalendarDate days') as Hv'.
  { rewrite List.Forall_forall in *. intros d Hd. apply Hv.
    now apply (Permutation_in _ (Permutation_sym Hperm)). }
  destruct days as [|d rest].
  { apply Permutation_nil in Hperm. now subst. }
  assert (days' <> []) as Hne'.
  { intros ->. apply Permutation_sym, Permutation_nil in Hperm. discriminate. }
  rewrite !isValidSchedule_code by (assumption || discriminate).
  rewrite (existsb_perm mondayb _ _ Hperm).
  destruct (existsb mondayb days'); [reflexivity|].
  assert (hasConsecutive (JS.sort byTimestamp (map dateInfoOf (d :: rest)))
          = hasConsecutive (JS.sort byTimestamp (map dateInfoOf days'))) as ->;
    [|reflexivity].
  apply eq_true_iff_eq. rewrite !consecutive_iff by assumption.
  split; apply consecutive_perm; [assumption | now apply Permutation_sym].
Qed.

Lemma accepts_iff days :
  Forall isCalendarDate days ->
  (ok (isValidSchedule days) = true
   <-> days <> [] /\ ~ Exists fallsOnMonday days /\ ~ dayApart days).
Proof.
  intros Hv. destruct days as [|d rest].
  { split; [discriminate | intros [H _]; congruence]. }
  rewrite isValidSchedule_code by discriminate.
  pose proof (existsb_monday _ Hv) as Hmon.
  pose proof (consecutive_iff _ Hv) as Hcons.
  rewrite consecutive_dayApart in Hcons.
  destruct (existsb mondayb (d :: rest)).
  - split; [discriminate|]. intros (_ & H & _). exfalso. apply H. tauto.
  - destruct (hasConsecutive _).
    + split; [discriminate|]. intros (_ & _ & H). exfalso. apply H. tauto.
    + split; [|reflexivity]. intros _. split; [discriminate|].
      split; intros H; [apply Hmon in H | apply Hcons in H]; discriminate.
Qed.

End MoreSchedule.

(** X15.  Dates that exist in the calendar are accepted exactly when there is
    at least one, none falls on a Monday, and no two of them, in whatever
    order they were selected, are one day apart. *)
Theorem isValidSchedule_accepts days :
  Forall isCalendarDate days ->
  (ok (isValidSchedule days) = true
   <-> days <> [] /\ ~ Exists fallsOnMonday days /\ ~ dayApart days).
Proof. apply accepts_iff. Qed.

Lemma isValidSchedule_accepts_witness :
  ok (isValidSchedule ["2024-06-21"; "2024-06-19"]%string) = true
  <-> ["2024-06-21"; "2024-06-19"]%string <> []
      /\ ~ Exists fallsOnMonday ["2024-06-21"; "2024-06-19"]%string
      /\ ~ dayApart ["2024-06-21"; "2024-06-19"]%string.
Proof.
  apply isValidSchedule_accepts.
  repeat constructor; vm_compute; discriminate.
Defined.

(** X16.  The order in which the dates were selected does not matter to the
    check: the same dates in another order get the same verdict and the same
    reason. *)
Theorem isValidSchedule_order_irrelevant days days' :
  Forall isCalendarDate days -> Permutation days days' ->
  isValidSchedule days = isValidSchedule days'.
Proof. apply isValidSchedule_perm. Qed.

Lemma isValidSchedule_order_irrelevant_witness :
  isValidSchedule ["2024-06-19"; "2024-06-21"; "2024-06-18"]%string
  = isValidSchedule ["2024-06-18"; "2024-06-19"; "2024-06-21"]%string.
Proof.
  apply isValidSchedule_order_irrelevant.
  - repeat constructor; vm_compute; discriminate.
  - exact (Permutation_sym
             (Permutation_cons_append ["2024-06-19"; "2024-06-21"]%string
                                      "2024-06-18"%string)).
Defined.

(** X17.  What the page shows after [validateSchedule]: a rejected schedule
    shows the reason of the check, letter for letter, as an error; an
    accepted one shows no error, and is told ready or not by the number of
    dates alone. *)
Theorem status_after_validation days selectedDays targetDays :
  let v := isValidSchedule days in
  let status := getScheduleStatus selectedDays targetDays (validationError v) in
  (ok v = false -> isError status = true /\ reason v = Some (message status))
  /\ (ok v = true ->
      status = if selectedDays =? targetDays
               then mkStatus "Listo para programar" false
               else mkStatus "Selecciona las fechas requeridas" false).
Proof.
  cbv zeta.
  destruct (isValidSchedule_outcomes days) as [-> | [-> | [-> | ->]]].
  - split; [intros _; split; reflexivity | intros H; discriminate H].
  - split; [intros _; split; reflexivity | intros H; discriminate H].
  - split; [intros _; split; reflexivity | intros H; discriminate H].
  - split; [intros H; discriminate H | intros _; reflexivity].
Qed.

(** ** [toggleDay] *)

Section Toggle.

Lemma includes_In xs x : includes xs x = true <-> In x xs.
Proof.
  unfold includes. rewrite existsb_exists. split.
  - intros (y & Hy & E). apply String.eqb_eq in E. now subst.
  - intros H. exists x. split; [assumption | apply String.eqb_refl].
Qed.

Lemma firstSeen_fixed l : List.NoDup l -> firstSeen l = l.
Proof.
  induction 1 as [|x l Hx _ IH]; simpl; [reflexivity|].
  rewrite IH. f_equal. apply filter_all. intros y Hy.
  destruct (String.eqb x y) eqn:E; [|reflexivity].
  apply String.eqb_eq in E. now subst.
Qed.

Lemma toggleDay_NoDup date selected : List.NoDup (toggleDay date selected).
Proof.
  unfold toggleDay. pose proof (firstSeen_NoDup selected) as Hnd.
  destruct (includes (firstSeen selected) date) eqn:E.
  - now apply List.NoDup_filter.
  - apply NoDup_ListNoDup. apply NoDup_app. repeat split.
    + now apply NoDup_ListNoDup.
    + intros x Hx Hd. apply list_elem_of_In in Hx, Hd. destruct Hd as [<-|[]].
      apply includes_In in Hx. congruence.
    + apply NoDup_singleton.
Qed.

Lemma toggleDay_In date selected d :
  In d (toggleDay date selected)
  <-> (d <> date /\ In d selected) \/ (d = date /\ ~ In date selected).
Proof.
  unfold toggleDay.
  destruct (includes (firstSeen selected) date) eqn:E.
  - apply includes_In in E. apply (proj1 (firstSeen_In _ _)) in E.
    rewrite filter_In, firstSeen_In. split.
    + intros [Hd Hne]. left. split; [|assumption].
      intros ->. rewrite String.eqb_refl in Hne. discriminate.
    + intros [[Hne Hd] | [-> Hn]]; [|contradiction].
      split; [assumption|]. apply String.eqb_neq in Hne. now rewrite Hne.
  - assert (~ In date selected) as Hn.
    { intros H. apply (proj2 (firstSeen_In _ _)) in H.
      apply includes_In in H. congruence. }
    rewrite in_app_iff, firstSeen_In. simpl. split.
    + intros [Hd | [<- | []]]; [left | right; auto].
      split; [|assumption]. intros ->. contradiction.
    + intros [[_ Hd] | [-> _]]; auto.
Qed.

End Toggle.

(** X18.  [toggleDay] flips one date and nothing else: the date is selected
    afterwards exactly when it was not before, every other date stays as it
    was, and no date is listed twice. *)
Theorem toggleDay_flips_one_date date selected :
  List.NoDup (toggleDay date selected)
  /\ (In date (toggleDay date selected) <-> ~ In date selected)
  /\ (forall d, d <> date ->
        (In d (toggleDay date selected) <-> In d selected)).
Proof.
  split; [apply toggleDay_NoDup|]. split.
  - rewrite toggleDay_In. tauto.
  - intros d Hd. rewrite toggleDay_In. tauto.
Qed.

(** X19.  Clicking a date twice leaves the selection with the dates it had,
    possibly in another order, and so with the verdict it had. *)
Theorem toggleDay_twice date selected :
  List.NoDup selected -> Forall isCalendarDate (date :: selected) ->
  Permutation (toggleDay date (toggleDay date selected)) selected
  /\ isValidSchedule (toggleDay date (toggleDay date selected))
     = isValidSchedule selected.
Proof.
  intros Hnd Hv.
  assert (Permutation (toggleDay date (toggleDay date selected)) selected) as Hp.
  { apply Permutation.NoDup_Permutation; [apply toggleDay_NoDup | assumption |].
    intros d. rewrite !toggleDay_In.
    destruct (string_dec d date) as [->|Hne];
      destruct (in_dec string_dec date selected); tauto. }
  split; [assumption|].
  symmetry. apply isValidSchedule_perm; [|now apply Permutation_sym].
  now apply Forall_cons in Hv as [_ Hv].
Qed.

Lemma toggleDay_twice_witness :
  Permutation
    (toggleDay "2024-06-19"
       (toggleDay "2024-06-19" ["2024-06-19"; "2024-06-21"]%string))
    ["2024-06-19"; "2024-06-21"]%string
  /\ isValidSchedule
       (toggleDay "2024-06-19"
          (toggleDay "2024-06-19" ["2024-06-19"; "2024-06-21"]%string))
     = isValidSchedule ["2024-06-19"; "2024-06-21"]%string.
Proof.
  apply toggleDay_twice.
  - repeat constructor; simpl; intuition discriminate.
  - repeat constructor; vm_compute; discriminate.
Defined.

(** ** The voting boards *)

Section Boards.

Lemma picksOf_app a b : picksOf (a ++ b) = picksOf a ++ picksOf b.
Proof. unfold picksOf, truthyArgs. apply flat_map_app. Qed.

Lemma picksOf_cons x a : picksOf (x :: a) = picksOf [x] ++ picksOf a.
Proof. apply (picksOf_app [x] a). Qed.

Lemma picksOf_holes n : picksOf (replicate n None) = [].
Proof. induction n; [reflexivity | exact IHn]. Qed.

Lemma picksOf_truthy a : Forall (fun s => truthy s = true) (picksOf a).
Proof. apply truthyArgs_truthy. Qed.

Lemma occ_app c a b : occ c (a ++ b) = (occ c a + occ c b)%nat.
Proof. unfold occ. rewrite picksOf_app. apply count_occ_app. Qed.

Lemma occ_cons c x a : occ c (x :: a) = (occ c [x] + occ c a)%nat.
Proof. apply (occ_app c [x] a). Qed.

Lemma occ_nil c : occ c [] = 0%nat.
Proof. reflexivity. Qed.

Lemma occ_holes c n : occ c (replicate n None) = 0%nat.
Proof. unfold occ. now rewrite picksOf_holes. Qed.

Lemma occ_one c x : (occ c [x] <= 1)%nat.
Proof.
  unfold occ, picksOf, truthyArgs. simpl. destruct x as [s|]; simpl; [|lia].
  destruct (truthy s); simpl; [|lia]. destruct (string_dec s c); lia.
Qed.

Lemma occ_other c s : s <> c -> occ c [Some s] = 0%nat.
Proof.
  intros H. unfold occ, picksOf, truthyArgs. simpl.
  destruct (truthy s); simpl; [|reflexivity].
  destruct (string_dec s c); [congruence | reflexivity].
Qed.

Lemma occ_unfilled c x : filled x = false -> occ c [x] = 0%nat.
Proof.
  unfold occ, picksOf, truthyArgs. destruct x as [s|]; simpl; [|reflexivity].
  now intros ->.
Qed.

Lemma occ_In c a : In c (picksOf a) <-> (1 <= occ c a)%nat.
Proof. unfold occ. rewrite (count_occ_In string_dec). lia. Qed.

Lemma picks_NoDup a : List.NoDup (picksOf a) <-> forall c, (occ c a <= 1)%nat.
Proof. apply (NoDup_count_occ string_dec). Qed.

(** A list cut at a place: what is ahead, the place, what is behind. *)
Lemma occ_cut c a i :
  occ c a = (occ c (take i a) + occ c [placeAt a i] + occ c (drop (S i) a))%nat.
Proof.
  unfold placeAt. revert i. induction a as [|x a IH]; intros i.
  - now destruct i.
  - destruct i as [|i].
    + change (take 0 (x :: a)) with (@nil (option string)).
      change (drop 1 (x :: a)) with a.
      change ((x :: a) !! 0%nat) with (Some x).
      rewrite (occ_cons c x a), occ_nil. lia.
    + change (take (S i) (x :: a)) with (x :: take i a).
      change (drop (S (S i)) (x :: a)) with (drop (S i) a).
      change ((x :: a) !! S i) with (a !! i).
      rewrite (occ_cons c x a), (occ_cons c x (take i a)).
      pose proof (IH i) as Hi. lia.
Qed.

Lemma writeAt_cut a i v :
  writeAt a i v
  = take i a ++ replicate (i - length a) None ++ v :: drop (S i) a.
Proof.
  unfold writeAt. destruct (i <? length a)%nat eqn:E.
  - apply Nat.ltb_lt in E. replace (i - length a)%nat with 0%nat by lia.
    simpl. revert i E. induction a as [|x a IH]; intros i E; simpl in *; [lia|].
    destruct i as [|i]; simpl; [reflexivity|].
    f_equal. apply IH. lia.
  - apply Nat.ltb_ge in E.
    rewrite take_ge by lia. rewrite drop_ge by lia. reflexivity.
Qed.

Lemma occ_writeAt c a i v :
  (occ c (writeAt a i v) + occ c [placeAt a i] = occ c a + occ c [v])%nat.
Proof.
  rewrite writeAt_cut, (occ_cut c a i), !occ_app, occ_holes.
  rewrite (occ_cons c v). lia.
Qed.

Lemma delete_cut {A} (a : list A) i : delete i a = take i a ++ drop (S i) a.
Proof.
  revert i. induction a as [|x a IH]; intros [|i]; simpl; try reflexivity.
  f_equal. apply IH.
Qed.

Lemma occ_delete c a i :
  (occ c (delete i a) + occ c [placeAt a i] = occ c a)%nat.
Proof. rewrite delete_cut, (occ_cut c a i), occ_app. lia. Qed.

Lemma length_writeAt a i v :
  length (writeAt a i v) = Nat.max (length a) (S i).
Proof.
  unfold writeAt. destruct (i <? length a)%nat eqn:E.
  - apply Nat.ltb_lt in E. rewrite length_insert. lia.
  - apply Nat.ltb_ge in E.
    rewrite !length_app, length_replicate. simpl. lia.
Qed.

Lemma placeAt_writeAt a i v j :
  placeAt (writeAt a i v) j
  = if (j =? i)%nat then v else placeAt a j.
Proof.
  unfold placeAt, writeAt. destruct (i <? length a)%nat eqn:E.
  - apply Nat.ltb_lt in E. destruct (j =? i)%nat eqn:Ej.
    + apply Nat.eqb_eq in Ej. subst j. now rewrite list_lookup_insert_eq.
    + apply Nat.eqb_neq in Ej. now rewrite list_lookup_insert_ne by auto.
  - apply Nat.ltb_ge in E. destruct (j =? i)%nat eqn:Ej.
    + apply Nat.eqb_eq in Ej. subst j.
      rewrite lookup_app_r by lia.
      rewrite lookup_app_r by (rewrite length_replicate; lia).
      rewrite length_replicate.
      now replace (i - length a - (i - length a))%nat with 0%nat by lia.
    + apply Nat.eqb_neq in Ej.
      destruct (Nat.lt_ge_cases j (length a)) as [Hlt|Hge].
      * now rewrite lookup_app_l by assumption.
      * rewrite lookup_app_r by assumption.
        rewrite (lookup_ge_None_2 a j) by assumption.
        destruct (Nat.lt_ge_cases (j - length a) (i - length a)) as [Hl|Hg].
        -- rewrite lookup_app_l by (rewrite length_replicate; lia).
           rewrite lookup_replicate_2 by lia. reflexivity.
        -- rewrite lookup_app_r by (rewrite length_replicate; lia).
           rewrite length_replicate.
           destruct (j - length a - (i - length a))%nat as [|k] eqn:Ek; [lia|].
           reflexivity.
Qed.

Lemma slotIndexOf_Some a id : forall e,
  slotIndexOf a id = Some e ->
  a !! e = Some (Some id)
  /\ Forall (fun x => x <> Some id) (take e a).
Proof.
  induction a as [|x a IH]; intros e; simpl; [discriminate|].
  destruct x as [s|].
  - destruct (String.eqb s id) eqn:E.
    + intros [= <-]. apply String.eqb_eq in E. subst s. split; [reflexivity|].
      constructor.
    + apply String.eqb_neq in E.
      destruct (slotIndexOf a id) as [e'|] eqn:E'; [|discriminate].
      intros [= <-]. destruct (IH e' eq_refl) as [H1 H2].
      split; [assumption|]. simpl. constructor; [congruence | assumption].
  - destruct (slotIndexOf a id) as [e'|] eqn:E'; [|discriminate].
    intros [= <-]. destruct (IH e' eq_refl) as [H1 H2].
    split; [assumption|]. simpl. constructor; [discriminate | assumption].
Qed.

Lemma slotIndexOf_None a id :
  slotIndexOf a id = None -> Forall (fun x => x <> Some id) a.
Proof.
  induction a as [|x a IH]; simpl; [constructor|].
  destruct x as [s|].
  - destruct (String.eqb s id) eqn:E; [discriminate|].
    apply String.eqb_neq in E.
    destruct (slotIndexOf a id); [discriminate|].
    intros _. constructor; [congruence | auto].
  - destruct (slotIndexOf a id); [discriminate|].
    intros _. constructor; [discriminate | auto].
Qed.

Lemma slotIndexOf_first pre id rest :
  Forall (fun x => x <> Some id) pre ->
  slotIndexOf (pre ++ Some id :: rest) id = Some (length pre).
Proof.
  induction 1 as [|x pre Hx _ IH]; simpl.
  - now rewrite String.eqb_refl.
  - rewrite IH. destruct x as [s|]; [|reflexivity].
    destruct (String.eqb s id) eqn:E; [|reflexivity].
    apply String.eqb_eq in E. congruence.
Qed.

Lemma occ_absent c a : Forall (fun x => x <> Some c) a -> occ c a = 0%nat.
Proof.
  induction 1 as [|x l Hx _ IH]; [reflexivity|].
  etransitivity; [apply (occ_cons c x l)|].
  rewrite IH. destruct x as [s|]; [|reflexivity].
  rewrite occ_other; [reflexivity | congruence].
Qed.

Lemma placeAt_lookup a i x : a !! i = Some x -> placeAt a i = x.
Proof. unfold placeAt. now intros ->. Qed.

Lemma delete_middle {A} (pre : list A) x rest :
  delete (length pre) (pre ++ x :: rest) = pre ++ rest.
Proof. induction pre as [|y pre IH]; simpl; [reflexivity | now f_equal]. Qed.

Lemma writeAt_middle pre v post w :
  writeAt (pre ++ v :: post) (length pre) w = pre ++ w :: post.
Proof.
  unfold writeAt. rewrite length_app. cbn [length].
  replace (length pre <? length pre + S (length post))%nat with true
    by (symmetry; apply Nat.ltb_lt; lia).
  induction pre as [|y pre IH]; simpl; [reflexivity | now f_equal].
Qed.

(** What a drop does to the number of times a candidate is on the board. *)
Lemma occ_handleDropSlot c id i slots :
  (forall x, (occ x slots <= 1)%nat) ->
  (occ c (handleDropSlot id i slots) <= 1)%nat
  /\ (occ c (handleDropSlot id i slots) <= occ c slots + occ c [Some id])%nat.
Proof.
  intros Hnd. unfold handleDropSlot, swapSlots.
  destruct (slotIndexOf slots id) as [e|] eqn:Ee.
  - apply slotIndexOf_Some in Ee as [He _].
    pose proof (occ_delete c slots e) as H1.
    rewrite (placeAt_lookup _ _ _ He) in H1.
    set (s1 := delete e slots) in *.
    pose proof (occ_writeAt c s1 i (Some id)) as H2.
    set (s2 := writeAt s1 i (Some id)) in *.
    pose proof (Hnd c). pose proof (occ_one c (placeAt s1 i)).
    destruct (filled (placeAt s1 i)) eqn:Ef.
    + pose proof (occ_writeAt c s2 e (placeAt s1 i)) as H3. lia.
    + lia.
  - apply slotIndexOf_None, (occ_absent id) in Ee.
    pose proof (occ_writeAt c slots i (Some id)) as H2.
    pose proof (Hnd c). pose proof (occ_one c (Some id)).
    destruct (string_dec id c) as [->|Hne].
    + lia.
    + rewrite (occ_other c id Hne) in *. lia.
Qed.

Lemma length_handleDropSlot id i slots :
  (i < 3)%nat -> (length slots <= 3)%nat ->
  (length (handleDropSlot id i slots) <= 3)%nat.
Proof.
  intros Hi Hlen. unfold handleDropSlot, swapSlots.
  destruct (slotIndexOf slots id) as [e|] eqn:Ee.
  - apply slotIndexOf_Some in Ee as [He _].
    apply lookup_lt_Some in He.
    assert (length (delete e slots) = (length slots - 1)%nat) as Hd.
    { rewrite length_delete; [lia|]. now apply lookup_lt_is_Some_2. }
    destruct (filled _); rewrite ?length_writeAt, Hd; lia.
  - rewrite length_writeAt. lia.
Qed.

Lemma occ_removeVote c i slots :
  (occ c (removeVote i slots) <= occ c slots)%nat.
Proof.
  unfold removeVote. pose proof (occ_writeAt c slots i (Some ""%string)) as H.
  rewrite (occ_unfilled c (Some ""%string)) in H by reflexivity. lia.
Qed.

Lemma tidy_handleDropSlot id i slots :
  (i < 3)%nat -> tidy slots -> tidy (handleDropSlot id i slots).
Proof.
  intros Hi [Hnd Hlen]. split.
  - apply picks_NoDup. intros c. apply occ_handleDropSlot.
    now apply picks_NoDup.
  - now apply length_handleDropSlot.
Qed.

Lemma tidy_removeVote i slots :
  (i < 3)%nat -> tidy slots -> tidy (removeVote i slots).
Proof.
  intros Hi [Hnd Hlen]. split.
  - apply picks_NoDup. intros c. rewrite picks_NoDup in Hnd.
    pose proof (occ_removeVote c i slots). specialize (Hnd c). lia.
  - unfold removeVote. rewrite length_writeAt. lia.
Qed.

Lemma boardOf_insert boards v slots u :
  boardOf (<[v := slots]> boards) u
  = if decide (v = u) then slots else boardOf boards u.
Proof.
  unfold boardOf. destruct (decide (v = u)) as [->|Hne].
  - now rewrite lookup_insert_eq.
  - now rewrite lookup_insert_ne.
Qed.

Lemma tidy_initial jefes u : tidy (boardOf (initialBoards jefes) u).
Proof.
  unfold initialBoards.
  assert (forall o, (forall u, tidy (boardOf o u)) ->
            tidy (boardOf (foldl (fun o j => <[User.id j := []]> o) o jefes) u))
    as H.
  { induction jefes as [|j jefes IH]; intros o Ho; simpl; [apply Ho|].
    apply IH. intros u'. rewrite boardOf_insert.
    destruct (decide _); [|apply Ho]. split; [constructor | simpl; lia]. }
  apply H. intros u'. unfold boardOf. rewrite lookup_empty.
  split; [constructor | simpl; lia].
Qed.

Lemma tidy_act boards a :
  onPage a -> (forall u, tidy (boardOf boards u)) ->
  forall u, tidy (boardOf (act boards a) u).
Proof.
  intros Ha Hb u. destruct a as [v id i | v i]; simpl in *;
    rewrite boardOf_insert; destruct (decide _); try apply Hb.
  - now apply tidy_handleDropSlot.
  - now apply tidy_removeVote.
Qed.

Lemma tidy_acts actions : forall boards,
  Forall onPage actions -> (forall u, tidy (boardOf boards u)) ->
  forall u, tidy (boardOf (foldl act boards actions) u).
Proof.
  induction actions as [|a actions IH]; intros boards Ha Hb; simpl; [exact Hb|].
  apply Forall_cons in Ha as [Ha Hrest].
  apply IH; [assumption|]. now apply tidy_act.
Qed.

Lemma length_picksOf slots : (length (picksOf slots) <= length slots)%nat.
Proof.
  induction slots as [|x slots IH]; [simpl; lia|].
  rewrite picksOf_cons, length_app.
  change (length (x :: slots)) with (S (length slots)).
  assert (length (picksOf [x]) <= 1)%nat; [|lia].
  unfold picksOf, truthyArgs. simpl. destruct x as [s|]; simpl; [|lia].
  destruct (truthy s); simpl; lia.
Qed.

End Boards.

(** X20.  A drop keeps a board in order: it never puts a candidate on the
    board twice, it brings in nobody but the candidate dropped, and on the
    three places of the page the board stays within three places. *)
Theorem handleDropSlot_keeps_board_in_order id slotIndex slots :
  List.NoDup (picksOf slots) ->
  List.NoDup (picksOf (handleDropSlot id slotIndex slots))
  /\ (forall c, In c (picksOf (handleDropSlot id slotIndex slots)) ->
                c = id \/ In c (picksOf slots))
  /\ ((slotIndex < 3)%nat -> (length slots <= 3)%nat ->
      (length (handleDropSlot id slotIndex slots) <= 3)%nat).
Proof.
  intros Hnd. rewrite picks_NoDup in Hnd. split; [|split].
  - apply picks_NoDup. intros c. now apply occ_handleDropSlot.
  - intros c Hc. apply occ_In in Hc.
    destruct (occ_handleDropSlot c id slotIndex slots Hnd) as [_ Hle].
    destruct (string_dec id c) as [->|Hne]; [now left|].
    right. apply occ_In. rewrite (occ_other c id Hne) in Hle. lia.
  - apply length_handleDropSlot.
Qed.

Lemma handleDropSlot_keeps_board_in_order_witness :
  List.NoDup
    (picksOf (handleDropSlot "u2" 0 [Some "u1"; Some "u2"; Some "u6"]%string))
  /\ (forall c,
        In c (picksOf (handleDropSlot "u2" 0
                         [Some "u1"; Some "u2"; Some "u6"]%string)) ->
        c = "u2"%string
        \/ In c (picksOf [Some "u1"; Some "u2"; Some "u6"]%string))
  /\ ((0 < 3)%nat ->
      (length [Some "u1"; Some "u2"; Some "u6"]%string <= 3)%nat ->
      (length (handleDropSlot "u2" 0 [Some "u1"; Some "u2"; Some "u6"]%string)
       <= 3)%nat).
Proof.
  apply handleDropSlot_keeps_board_in_order.
  repeat constructor; simpl; intuition discriminate.
Defined.

(** X21.  Dropping a candidate who is not on the board on a free place
    puts the candidate there and leaves every other place as it was. *)
Theorem drop_on_free_place id slotIndex slots :
  slotIndexOf slots id = None ->
  filled (placeAt slots slotIndex) = false ->
  placeAt (handleDropSlot id slotIndex slots) slotIndex = Some id
  /\ (forall j, j <> slotIndex ->
        placeAt (handleDropSlot id slotIndex slots) j = placeAt slots j)
  /\ (forall c, In c (picksOf slots) ->
        In c (picksOf (handleDropSlot id slotIndex slots))).
Proof.
  intros Hnone Hfree. unfold handleDropSlot, swapSlots. rewrite Hnone.
  split; [|split].
  - now rewrite placeAt_writeAt, Nat.eqb_refl.
  - intros j Hj. rewrite placeAt_writeAt.
    apply Nat.eqb_neq in Hj. now rewrite Hj.
  - intros c Hc. apply occ_In in Hc. apply occ_In.
    pose proof (occ_writeAt c slots slotIndex (Some id)) as H.
    rewrite (occ_unfilled c _ Hfree) in H. lia.
Qed.

Lemma drop_on_free_place_witness :
  placeAt (handleDropSlot "u6" 1 [Some "u1"; Some ""; Some "u2"]%string) 1
  = Some "u6"%string
  /\ (forall j, j <> 1%nat ->
        placeAt (handleDropSlot "u6" 1 [Some "u1"; Some ""; Some "u2"]%string) j
        = placeAt [Some "u1"; Some ""; Some "u2"]%string j)
  /\ (forall c, In c (picksOf [Some "u1"; Some ""; Some "u2"]%string) ->
        In c (picksOf (handleDropSlot "u6" 1 [Some "u1"; Some ""; Some "u2"]%string))).
Proof. apply drop_on_free_place; reflexivity. Defined.

(** X22.  Dropping a candidate on the place the candidate already holds,
    when the next place holds somebody, takes the candidate off the board:
    the others close up and the candidate dropped is gone. *)
Theorem drop_on_own_place_removes pre id next post :
  Forall (fun x => x <> Some id) pre ->
  truthy next = true ->
  handleDropSlot id (length pre) (pre ++ Some id :: Some next :: post)
  = pre ++ Some next :: post.
Proof.
  intros Hpre Hnext. unfold handleDropSlot, swapSlots.
  rewrite (slotIndexOf_first pre id _ Hpre).
  rewrite delete_middle.
  rewrite (placeAt_lookup _ _ _ (list_lookup_middle pre post (Some next) _ eq_refl)).
  cbn [filled]. rewrite Hnext.
  now rewrite !writeAt_middle.
Qed.

Lemma drop_on_own_place_removes_witness :
  handleDropSlot "u1" (length [Some "u3"%string])
    ([Some "u3"%string] ++ Some "u1"%string :: Some "u2"%string :: [])
  = [Some "u3"%string] ++ Some "u2"%string :: [].
Proof.
  apply drop_on_own_place_removes; [|reflexivity].
  repeat constructor. discriminate.
Defined.

(** X23.  [removeVote] empties one place and moves nobody: the place holds
    the empty string afterwards, the other places are as they were, and the
    picks are those of before without the one removed. *)
Theorem removeVote_empties_one_place index slots :
  placeAt (removeVote index slots) index = Some ""%string
  /\ (forall j, j <> index ->
        placeAt (removeVote index slots) j = placeAt slots j)
  /\ picksOf (removeVote index slots)
     = picksOf (take index slots) ++ picksOf (drop (S index) slots).
Proof.
  unfold removeVote. split; [|split].
  - now rewrite placeAt_writeAt, Nat.eqb_refl.
  - intros j Hj. rewrite placeAt_writeAt.
    apply Nat.eqb_neq in Hj. now rewrite Hj.
  - rewrite writeAt_cut, !picksOf_app, picksOf_holes.
    now rewrite (picksOf_cons (Some ""%string)).
Qed.

Lemma page_ballots users actions :
  Forall onPage actions ->
  let jefes := jefeUsers users in
  let votes := votesOf jefes (foldl act (initialBoards jefes) actions) in
  map Vote.voterId votes = map User.id jefes
  /\ Forall (fun v => List.NoDup (Vote.picks v)
                      /\ (length (Vote.picks v) <= 3)%nat
                      /\ Forall (fun c => truthy c = true) (Vote.picks v))
            votes.
Proof.
  intros Ha jefes votes. split.
  - unfold votes, votesOf. rewrite map_map. reflexivity.
  - apply List.Forall_forall. intros v Hv.
    unfold votes, votesOf in Hv. apply in_map_iff in Hv as (j & <- & _).
    cbn [Vote.picks].
    destruct (tidy_acts actions (initialBoards jefes) Ha (tidy_initial jefes)
                (User.id j)) as [Hnd Hlen].
    split; [assumption|]. split; [|apply picksOf_truthy].
    pose proof (length_picksOf (boardOf (foldl act (initialBoards jefes) actions)
                                        (User.id j))). lia.
Qed.

(** X24.  Whatever is dropped on the three places of the page and whatever
    is removed, in any order and from the empty boards on, the ballots
    handed to [computeResults] are one for each Jefatura and Gerente of the
    roster, in the order of the roster, each with at most three picks, no
    pick twice and no empty pick. *)
Theorem ballots_of_the_page users actions :
  Forall onPage actions ->
  let jefes := jefeUsers users in
  let votes := votesOf jefes (foldl act (initialBoards jefes) actions) in
  map Vote.voterId votes = map User.id jefes
  /\ Forall (fun v => List.NoDup (Vote.picks v)
                      /\ (length (Vote.picks v) <= 3)%nat
                      /\ Forall (fun c => truthy c = true) (Vote.picks v))
            votes.
Proof. apply page_ballots. Qed.

Lemma ballots_of_the_page_witness :
  map Vote.voterId
      (votesOf (jefeUsers gerenteOnly)
         (foldl act (initialBoards (jefeUsers gerenteOnly))
                [Drop "u15" "u1" 0; Drop "u15" "u1" 2; Remove "u15" 0]))
  = map User.id (jefeUsers gerenteOnly)
  /\ Forall (fun v => List.NoDup (Vote.picks v)
                      /\ (length (Vote.picks v) <= 3)%nat
                      /\ Forall (fun c => truthy c = true) (Vote.picks v))
            (votesOf (jefeUsers gerenteOnly)
               (foldl act (initialBoards (jefeUsers gerenteOnly))
                      [Drop "u15" "u1" 0; Drop "u15" "u1" 2; Remove "u15" 0])).
Proof.
  apply (ballots_of_the_page gerenteOnly
           [Drop "u15" "u1" 0; Drop "u15" "u1" 2; Remove "u15" 0]).
  repeat constructor.
Defined.

(** ** [swapCandidates] and [voteCandidate] *)

Section Moves.

Lemma spliceStart_in len i :
  0 <= i <= Z.of_nat len -> spliceStart len i = Z.to_nat i.
Proof.
  intros H. unfold spliceStart.
  destruct (i <? 0) eqn:E; [apply Z.ltb_lt in E; lia|]. f_equal. lia.
Qed.

Lemma spliceStart_beyond len i :
  Z.of_nat len <= i -> spliceStart len i = len.
Proof.
  intros H. unfold spliceStart.
  destruct (i <? 0) eqn:E; [apply Z.ltb_lt in E; lia|]. lia.
Qed.

Lemma spliceStart_bound len i : (spliceStart len i <= len)%nat.
Proof.
  unfold spliceStart. destruct (i <? 0) eqn:E; [apply Z.ltb_lt in E|]; lia.
Qed.

Lemma length_put {A} (l : list A) t x :
  (t <= length l)%nat -> length (take t l ++ x :: drop t l) = S (length l).
Proof.
  intros H. rewrite length_app, length_take. cbn [length].
  rewrite length_drop. lia.
Qed.

Lemma put_perm {A} (l : list A) t x : Permutation (take t l ++ x :: drop t l) (x :: l).
Proof.
  rewrite <- Permutation_middle. constructor. now rewrite take_drop.
Qed.

Lemma delete_put {A} (l : list A) t x :
  (t <= length l)%nat -> delete t (take t l ++ x :: drop t l) = l.
Proof.
  intros H.
  replace t with (length (take t l)) at 1 by (rewrite length_take; lia).
  rewrite delete_middle. apply take_drop.
Qed.

Lemma lookup_put {A} (l : list A) t x :
  (t <= length l)%nat -> (take t l ++ x :: drop t l) !! t = Some x.
Proof.
  intros H. apply list_lookup_middle. rewrite length_take. lia.
Qed.

Lemma put_delete {A} (l : list A) f x :
  l !! f = Some x -> take f (delete f l) ++ x :: drop f (delete f l) = l.
Proof.
  intros H. rewrite delete_cut.
  assert (f < length l)%nat as Hf by (eapply lookup_lt_Some; eauto).
  rewrite take_app_le by (rewrite length_take; lia).
  rewrite take_take. replace (f `min` f)%nat with f by lia.
  rewrite drop_app_ge by (rewrite length_take; lia).
  rewrite length_take. replace (f - f `min` length l)%nat with 0%nat by lia.
  rewrite drop_0. now apply take_drop_middle.
Qed.

End Moves.

(** X25.  [swapCandidates] with both indices inside the list moves one
    candidate and loses none: the list keeps its length and its members, the
    candidate taken from [fromIndex] stands at [toIndex], and moving it back
    restores the list. *)
Theorem swapCandidates_moves_one fromIndex toIndex candidateList :
  0 <= fromIndex < Z.of_nat (length candidateList) ->
  0 <= toIndex < Z.of_nat (length candidateList) ->
  let moved := swapCandidates fromIndex toIndex candidateList in
  length moved = length candidateList
  /\ Permutation moved candidateList
  /\ moved !! Z.to_nat toIndex = candidateList !! Z.to_nat fromIndex
  /\ swapCandidates toIndex fromIndex moved = candidateList.
Proof.
  intros Hf Ht. cbv zeta.
  set (f := Z.to_nat fromIndex). set (t := Z.to_nat toIndex).
  destruct (lookup_lt_is_Some_2 candidateList f ltac:(lia)) as [x Hx].
  set (rest := delete f candidateList).
  assert (length rest = (length candidateList - 1)%nat) as Hd.
  { unfold rest. rewrite length_delete; [lia | eauto]. }
  assert (swapCandidates fromIndex toIndex candidateList
          = take t rest ++ x :: drop t rest) as ->.
  { unfold swapCandidates. rewrite (spliceStart_in _ fromIndex) by lia.
    fold f. rewrite (placeAt_lookup _ _ _ Hx). fold rest.
    now rewrite (spliceStart_in _ toIndex) by lia. }
  assert (t <= length rest)%nat as Hle by lia.
  split; [rewrite length_put; lia|]. split; [|split].
  - rewrite put_perm. symmetry. now apply delete_Permutation.
  - rewrite Hx. now apply lookup_put.
  - unfold swapCandidates. rewrite length_put by assumption.
    rewrite (spliceStart_in _ toIndex) by lia. fold t.
    rewrite (placeAt_lookup _ _ _ (lookup_put rest t x Hle)).
    rewrite delete_put by assumption.
    rewrite (spliceStart_in _ fromIndex) by lia. fold f.
    now apply put_delete.
Qed.

Lemma swapCandidates_moves_one_witness :
  length (swapCandidates 0 2 [Some "u1"; Some "u2"; Some "u6"]%string)
  = length [Some "u1"; Some "u2"; Some "u6"]%string
  /\ Permutation (swapCandidates 0 2 [Some "u1"; Some "u2"; Some "u6"]%string)
                 [Some "u1"; Some "u2"; Some "u6"]%string
  /\ swapCandidates 0 2 [Some "u1"; Some "u2"; Some "u6"]%string !! Z.to_nat 2
     = [Some "u1"; Some "u2"; Some "u6"]%string !! Z.to_nat 0
  /\ swapCandidates 2 0 (swapCandidates 0 2 [Some "u1"; Some "u2"; Some "u6"]%string)
     = [Some "u1"; Some "u2"; Some "u6"]%string.
Proof. apply swapCandidates_moves_one; simpl; lia. Defined.

(** X26.  [swapCandidates] with [fromIndex] at or past the end of the list
    takes nothing out and still puts something in: the list comes back one
    longer, with an [undefined] among the candidates. *)
Theorem swapCandidates_past_the_end fromIndex toIndex candidateList :
  Z.of_nat (length candidateList) <= fromIndex ->
  let moved := swapCandidates fromIndex toIndex candidateList in
  length moved = S (length candidateList)
  /\ Permutation moved (None :: candidateList).
Proof.
  intros Hf. cbv zeta. unfold swapCandidates.
  rewrite (spliceStart_beyond _ fromIndex) by assumption.
  unfold placeAt. rewrite (lookup_ge_None_2 candidateList) by lia.
  assert (delete (length candidateList) candidateList = candidateList) as ->.
  { rewrite delete_cut, take_ge, drop_ge by lia. apply app_nil_r. }
  split; [apply length_put, spliceStart_bound | apply put_perm].
Qed.

Lemma swapCandidates_past_the_end_witness :
  length (swapCandidates 3 0 [Some "u1"; Some "u2"; Some "u6"]%string)
  = S (length [Some "u1"; Some "u2"; Some "u6"]%string)
  /\ Permutation (swapCandidates 3 0 [Some "u1"; Some "u2"; Some "u6"]%string)
                 (None :: [Some "u1"; Some "u2"; Some "u6"]%string).
Proof. apply swapCandidates_past_the_end. simpl. lia. Defined.

(** X27.  [voteCandidate] adds a candidate to a voter's list once: the
    candidate is on the list afterwards, a second call changes nothing, a list
    without repeats stays so, and a new candidate is added at the end however
    long the list is already. *)
Theorem voteCandidate_adds_once candidateId userVotes :
  In (Some candidateId) (voteCandidate candidateId userVotes)
  /\ voteCandidate candidateId (voteCandidate candidateId userVotes)
     = voteCandidate candidateId userVotes
  /\ (List.NoDup userVotes -> List.NoDup (voteCandidate candidateId userVotes))
  /\ (~ In (Some candidateId) userVotes ->
      voteCandidate candidateId userVotes = userVotes ++ [Some candidateId]).
Proof.
  set (has := fun x : option string =>
                match x with
                | Some s => String.eqb s candidateId
                | None => false
                end).
  assert (forall l, existsb has l = true <-> In (Some candidateId) l) as Hhas.
  { intros l. rewrite existsb_exists. split.
    - intros ([s|] & Hin & E); [|discriminate]. simpl in E.
      apply String.eqb_eq in E. now subst.
    - intros H. exists (Some candidateId). split; [assumption|].
      apply String.eqb_refl. }
  unfold voteCandidate. fold has.
  destruct (existsb has userVotes) eqn:E.
  - pose proof (proj1 (Hhas _) E) as Hin. rewrite E.
    repeat split; try assumption; try tauto.
  - assert (~ In (Some candidateId) userVotes) as Hn.
    { intros H. apply Hhas in H. congruence. }
    assert (existsb has (userVotes ++ [Some candidateId]) = true) as ->.
    { apply Hhas, in_or_app. right. now left. }
    repeat split.
    + apply in_or_app. right. now left.
    + intros Hnd. apply NoDup_ListNoDup, NoDup_app.
      repeat split; [now apply NoDup_ListNoDup | | apply NoDup_singleton].
      intros x Hx Hy. apply list_elem_of_In in Hx, Hy.
      destruct Hy as [<-|[]]. contradiction.
Qed.

(** ** The results of the page *)

Section Page.

Lemma timesPicked_app c a b :
  timesPicked c (a ++ b) = timesPicked c a + timesPicked c b.
Proof. unfold timesPicked. rewrite List.filter_app, length_app. lia. Qed.

Lemma timesPicked_NoDup c picks :
  List.NoDup picks -> timesPicked c picks <= 1.
Proof.
  unfold timesPicked. intros H.
  assert (length (List.filter (String.eqb c) picks) <= 1)%nat; [|lia].
  induction H as [|x l Hx _ IH]; simpl; [lia|].
  destruct (String.eqb c x) eqn:E; [|exact IH].
  apply String.eqb_eq in E. subst x.
  rewrite filter_none; [simpl; lia|].
  intros y Hy. destruct (String.eqb c y) eqn:Ey; [|reflexivity].
  apply String.eqb_eq in Ey. now subst.
Qed.

Lemma timesPicked_ballots c used :
  Forall (fun v => List.NoDup (Vote.picks v)) used ->
  timesPicked c (allPicks used) <= Z.of_nat (length used).
Proof.
  induction 1 as [|v used Hv _ IH].
  - unfold timesPicked. simpl. lia.
  - change (allPicks (v :: used)) with (Vote.picks v ++ allPicks used).
    rewrite timesPicked_app. pose proof (timesPicked_NoDup c _ Hv).
    cbn [length]. lia.
Qed.

Lemma nonDiscarded_length vs disc used :
  nonDiscarded vs disc used -> (length used <= length vs)%nat.
Proof.
  destruct disc as [d|]; simpl.
  - intros (idx & v & Hv & _ & ->). rewrite length_delete; [lia | eauto].
  - intros ->. lia.
Qed.

End Page.

(** X28.  On the page, where the ballots are those of the boards, and as
    long as no board holds a text that names a function inherited from
    [Object.prototype], no candidate gets more votes than there are voters
    or more than six days. *)
Theorem results_of_the_page nominations votes roster options w users actions :
  Forall onPage actions ->
  heap w !! votes
  = Some (VoteArray (votesOf (jefeUsers users)
                       (foldl act (initialBoards (jefeUsers users)) actions))) ->
  heap w !! roster = Some (UserArray users) ->
  Forall (fun c => inheritedMethod c = false)
         (allPicks (votesOf (jefeUsers users)
                      (foldl act (initialBoards (jefeUsers users)) actions))) ->
  exists res w',
    computeResults nominations votes roster options w = Some (res, w')
    /\ forall r, In r (rows res) ->
         1 <= ResultRow.votes r <= Z.of_nat (length (jefeUsers users))
         /\ 0 <= ResultRow.days r <= 6.
Proof.
  intros Ha Hv Hu _.
  set (vs := votesOf _ _) in Hv.
  destruct (page_ballots users actions Ha) as [Hids Hwf]. fold vs in Hids, Hwf.
  assert (Forall (fun v => List.NoDup (Vote.picks v)) vs) as Hnd.
  { eapply List.Forall_impl; [|exact Hwf]. simpl. tauto. }
  destruct (computeResults_rows nominations votes roster options w vs users Hv Hu)
    as (res & w' & used & Hrun & Hused & _ & _ & Hvotes).
  destruct (computeResults_day_bounds nominations votes roster options w vs users
              Hv Hu) as (res' & w'' & Hrun' & Hdays).
  rewrite Hrun in Hrun'. injection Hrun' as <- <-.
  exists res, w'. split; [assumption|]. intros r Hr.
  destruct (Hvotes r Hr) as [Hcount Hpos]. split.
  - split; [assumption|]. rewrite Hcount.
    assert (Forall (fun v => List.NoDup (Vote.picks v)) used) as Hnd'.
    { rewrite List.Forall_forall in *. intros v Hin. apply Hnd.
      now apply (nonDiscarded_In _ _ _ _ Hused). }
    pose proof (timesPicked_ballots (ResultRow.candidateId r) used Hnd').
    pose proof (nonDiscarded_length _ _ _ Hused).
    assert (length vs = length (jefeUsers users)) as Hlen.
    { rewrite <- (length_map Vote.voterId), Hids. apply length_map. }
    lia.
  - apply In_lookup in Hr as [i Hi].
    destruct (Hdays i r Hi) as (H0 & _ & _ & H6). split; [assumption | auto].
Qed.

Lemma results_of_the_page_witness :
  exists res w',
    computeResults nominationsRef votesRef usersRef (mkOptions false true)
      (sampleWorld twoJefes
         (votesOf (jefeUsers twoJefes)
            (foldl act (initialBoards (jefeUsers twoJefes))
                   [Drop "u15" "u1" 0; Drop "u15" "u2" 2; Drop "u11" "u1" 1])))
    = Some (res, w')
    /\ map ResultRow.candidateId (rows res) = ["u1"; "u2"]%string
    /\ forall r, In r (rows res) ->
         1 <= ResultRow.votes r <= Z.of_nat (length (jefeUsers twoJefes))
         /\ 0 <= ResultRow.days r <= 6.
Proof.
  destruct (results_of_the_page nominationsRef votesRef usersRef
              (mkOptions false true)
              (sampleWorld twoJefes
                 (votesOf (jefeUsers twoJefes)
                    (foldl act (initialBoards (jefeUsers twoJefes))
                       [Drop "u15" "u1" 0; Drop "u15" "u2" 2;
                        Drop "u11" "u1" 1])))
              twoJefes
              [Drop "u15" "u1" 0; Drop "u15" "u2" 2; Drop "u11" "u1" 1])
    as (res & w' & Hrun & Hall).
  - repeat constructor.
  - reflexivity.
  - reflexivity.
  - repeat constructor.
  - exists res, w'. split; [exact Hrun|]. split; [|exact Hall].
    vm_compute in Hrun. now injection Hrun as <- _.
Defined.

(** ** The dates offered for the schedule *)

Section Offered.

Lemma allFrom_spec p n : forall day,
  allFrom p n day = true ->
  forall k, day <= k < day + Z.of_nat n -> p k = true.
Proof.
  induction n as [|n IH]; intros day H k Hk; [lia|].
  cbn [allFrom] in H. apply andb_true_iff in H as [H0 H].
  destruct (Z.eq_dec k day) as [->|Hne]; [assumption|].
  apply (IH (day + 1) H). lia.
Qed.

Lemma twoDigits_all : allFrom twoDigits 100 0 = true.
Proof. vm_compute. reflexivity. Qed.

Lemma number2_pad n :
  0 <= n < 100 -> number2 (digitChar (n / 10)) (digitChar (n mod 10)) = Some n.
Proof.
  intros H. pose proof (allFrom_spec _ _ _ twoDigits_all n ltac:(lia)) as Hr.
  unfold twoDigits in Hr. destruct (number2 _ _) as [v|]; [|discriminate].
  apply Z.eqb_eq in Hr. now subst.
Qed.

Lemma number4_pad y :
  0 <= y < 10000 ->
  number4 (digitChar (y / 100 / 10)) (digitChar ((y / 100) mod 10))
          (digitChar (y mod 100 / 10)) (digitChar ((y mod 100) mod 10))
  = Some y.
Proof.
  intros H. unfold number4.
  assert (0 <= y / 100 < 100).
  { split; [apply Z.div_pos; lia | apply Z.div_lt_upper_bound; lia]. }
  pose proof (Z.mod_pos_bound y 100 ltac:(lia)).
  rewrite !number2_pad by assumption. f_equal.
  pose proof (Z.div_mod y 100 ltac:(lia)). lia.
Qed.

Lemma parse_iso y m d :
  0 <= y < 10000 -> 1 <= m <= 12 -> 1 <= d <= daysInMonth y m ->
  timestampOf
    (String.append (pad4 y)
       (String.append "-" (String.append (pad2 m) (String.append "-" (pad2 d)))))
  = Some (daysFromCivil y m d * MS_PER_DAY).
Proof.
  intros Hy Hm Hd.
  assert (d <= 31).
  { unfold daysInMonth in Hd.
    destruct (m =? 2); [destruct (isLeapYear y); lia|].
    destruct ((m =? 4) || (m =? 6) || (m =? 9) || (m =? 11)); lia. }
  unfold timestampOf, pad4, pad2.
  cbv [String.append]. unfold Date_getTime.
  rewrite !Ascii.eqb_refl, String.eqb_refl. cbn [andb].
  rewrite number4_pad by assumption.
  rewrite !number2_pad by lia.
  replace ((1 <=? m) && (m <=? 12) && (1 <=? d) && (d <=? daysInMonth y m))
    with true; [reflexivity|].
  symmetry. rewrite !andb_true_iff, !Z.leb_le. lia.
Qed.

(** Every day from 1970-01-01 to 2100-01-21 is dated and counted back as
    itself. *)
Lemma datedBack_days : allFrom datedBack (Z.to_nat 47503) 0 = true.
Proof. vm_compute. reflexivity. Qed.

Lemma isoDate_time day :
  0 <= day < 47503 -> timestampOf (isoDate day) = Some (day * MS_PER_DAY).
Proof.
  intros H. pose proof (allFrom_spec _ _ _ datedBack_days day ltac:(lia)) as Hr.
  unfold datedBack in Hr. unfold isoDate.
  destruct (civilFromDays day) as [[y m] d].
  rewrite !andb_true_iff, !Z.leb_le, Z.eqb_eq in Hr.
  destruct Hr as ((((((? & ?) & ?) & ?) & ?) & ?) & <-).
  apply parse_iso; lia.
Qed.

Lemma isoDate_monday day :
  0 <= day < 47503 -> mondayb (isoDate day) = ((day + 4) mod 7 =? 1).
Proof.
  intros H. unfold mondayb. rewrite (isoDate_time day H).
  cbn [Date_getUTCDay strictEq]. now rewrite Z.div_mul by discriminate.
Qed.

Lemma day_of now i :
  (now + Z.of_nat i * MS_PER_DAY) / MS_PER_DAY = now / MS_PER_DAY + Z.of_nat i.
Proof. apply Z.div_add. discriminate. Qed.

Lemma today_range now :
  0 <= now < year2100 -> 0 <= now / MS_PER_DAY < 47482.
Proof.
  unfold year2100. intros H. split.
  - apply Z.div_pos; [lia | reflexivity].
  - apply Z.div_lt_upper_bound; [reflexivity | lia].
Qed.

Lemma filter_map_length {A B} (p : B -> bool) (f : A -> B) l :
  length (List.filter p (map f l)) = length (List.filter (fun x => p (f x)) l).
Proof.
  induction l as [|x l IH]; [reflexivity|]. simpl.
  destruct (p (f x)); simpl; now rewrite IH.
Qed.

(** Three of any 21 days in a row are Mondays. *)
Lemma three_mondays d0 :
  length (List.filter (fun i => (d0 + Z.of_nat i + 4) mod 7 =? 1) (seq 1 21))
  = 3%nat.
Proof.
  erewrite filter_ext.
  2:{ intros i. rewrite <- Z.add_assoc, <- Z.add_mod_idemp_l by discriminate.
      reflexivity. }
  pose proof (Z.mod_pos_bound d0 7 ltac:(lia)) as Hr.
  assert (d0 mod 7 = 0 \/ d0 mod 7 = 1 \/ d0 mod 7 = 2 \/ d0 mod 7 = 3
          \/ d0 mod 7 = 4 \/ d0 mod 7 = 5 \/ d0 mod 7 = 6) as Hcases by lia.
  destruct Hcases as [-> | [-> | [-> | [-> | [-> | [-> | ->]]]]]]; reflexivity.
Qed.

End Offered.

(** X29.  For a clock between 1970 and 2100, the page offers 21 dates that
    all exist in the calendar: read at midnight UTC they are the 21 days
    after today, one after the other, and exactly three of them are
    Mondays. *)
Theorem nextDays_offers_calendar_dates now :
  0 <= now < year2100 ->
  length (nextDays now) = 21%nat
  /\ Forall isCalendarDate (nextDays now)
  /\ map timeValue (nextDays now)
     = map (fun i => (now / MS_PER_DAY + Z.of_nat i) * MS_PER_DAY) (seq 1 21)
  /\ length (List.filter mondayb (nextDays now)) = 3%nat.
Proof.
  intros Hnow. pose proof (today_range now Hnow) as Hd.
  assert (forall i, In i (seq 1 21) ->
            0 <= now / MS_PER_DAY + Z.of_nat i < 47503) as Hin.
  { intros i Hi. apply in_seq in Hi. lia. }
  unfold nextDays. split; [now rewrite length_map, length_seq|].
  split; [|split].
  - apply List.Forall_forall. intros d Hdate.
    apply in_map_iff in Hdate as (i & <- & Hi).
    unfold isCalendarDate. rewrite day_of, isoDate_time by auto. discriminate.
  - rewrite map_map. apply map_ext_in. intros i Hi.
    unfold timeValue. now rewrite day_of, isoDate_time by auto.
  - rewrite filter_map_length.
    etransitivity; [|apply (three_mondays (now / MS_PER_DAY))].
    f_equal. apply filter_ext_in. intros i Hi.
    now rewrite day_of, isoDate_monday by auto.
Qed.

Lemma nextDays_offers_calendar_dates_witness :
  length (nextDays 1718000000000) = 21%nat
  /\ Forall isCalendarDate (nextDays 1718000000000)
  /\ map timeValue (nextDays 1718000000000)
     = map (fun i => (1718000000000 / MS_PER_DAY + Z.of_nat i) * MS_PER_DAY)
           (seq 1 21)
  /\ length (List.filter mondayb (nextDays 1718000000000)) = 3%nat.
Proof.
  apply nextDays_offers_calendar_dates. vm_compute.
  split; [discriminate | reflexivity].
Defined.

(** ** A schedule can always be completed *)

Section Reachable.

Lemma accepted_check days :
  ok (isValidSchedule days) = true -> isValidSchedule days = mkCheck true None.
Proof.
  destruct (isValidSchedule_outcomes days) as [-> | [-> | [-> | ->]]];
    (discriminate || reflexivity).
Qed.

Lemma free_enough today : (6 <= length (freeOffsets today))%nat.
Proof.
  unfold freeOffsets. erewrite filter_ext.
  2:{ intros i. rewrite <- Z.add_assoc, <- Z.add_mod_idemp_l by discriminate.
      reflexivity. }
  pose proof (Z.mod_pos_bound today 7 ltac:(lia)) as Hr.
  assert (today mod 7 = 0 \/ today mod 7 = 1 \/ today mod 7 = 2
          \/ today mod 7 = 3 \/ today mod 7 = 4 \/ today mod 7 = 5
          \/ today mod 7 = 6) as Hcases by lia.
  destruct Hcases as [-> | [-> | [-> | [-> | [-> | [-> | ->]]]]]];
    vm_compute; lia.
Qed.

Lemma freeOffsets_spec today i :
  In i (freeOffsets today) ->
  (1 <= i <= 21)%nat /\ Z.of_nat i mod 2 = 1
  /\ (today + Z.of_nat i + 4) mod 7 <> 1.
Proof.
  unfold freeOffsets. intros H. apply filter_In in H as [Hin Hfree].
  apply negb_true_iff, Z.eqb_neq in Hfree. split; [|split; [|assumption]].
  - simpl in Hin. lia.
  - simpl in Hin.
    repeat (destruct Hin as [<- | Hin]; [reflexivity|]). destruct Hin.
Qed.

Lemma freeOffsets_NoDup today : List.NoDup (freeOffsets today).
Proof.
  apply List.NoDup_filter. repeat constructor; simpl; lia.
Qed.

Lemma In_take {A} (x : A) n l : In x (take n l) -> In x l.
Proof.
  intros H. rewrite <- (take_drop n l). apply in_or_app. now left.
Qed.

Lemma NoDup_take_list {A} n (l : list A) : List.NoDup l -> List.NoDup (take n l).
Proof.
  intros H. rewrite <- (take_drop n l) in H.
  now apply List.NoDup_app_remove_r in H.
Qed.

Lemma toggleDay_new date selected :
  List.NoDup selected -> ~ In date selected ->
  toggleDay date selected = selected ++ [date].
Proof.
  intros Hnd Hn. unfold toggleDay. rewrite (firstSeen_fixed _ Hnd).
  destruct (includes selected date) eqn:E; [|reflexivity].
  apply includes_In in E. contradiction.
Qed.

Lemma clicks_build dates : forall selected,
  List.NoDup (selected ++ dates) ->
  foldl (fun selected date => toggleDay date selected) selected dates
  = selected ++ dates.
Proof.
  induction dates as [|d dates IH]; intros selected Hnd; simpl.
  - now rewrite app_nil_r.
  - rewrite toggleDay_new.
    + rewrite IH; rewrite <- app_assoc; [reflexivity | exact Hnd].
    + apply NoDup_ListNoDup in Hnd. apply NoDup_app in Hnd as [H _].
      now apply NoDup_ListNoDup.
    + intros Hin. apply NoDup_ListNoDup in Hnd.
      apply NoDup_app in Hnd as (_ & H & _).
      apply (H d); [now apply list_elem_of_In | left].
Qed.

End Reachable.

(** X30.  For a clock between 1970 and 2100 and an award of one to six
    days, the winner can always complete the schedule: among the dates
    offered there is a selection, reached by clicking its dates one after the
    other, that the check accepts and that the page then reports as ready. *)
Theorem a_schedule_can_be_completed now target :
  0 <= now < year2100 -> 1 <= target <= 6 ->
  exists dates,
    Forall (fun d => In d (nextDays now)) dates
    /\ clicks dates = dates
    /\ isValidSchedule (clicks dates) = mkCheck true None
    /\ getScheduleStatus (Z.of_nat (length (clicks dates))) target
         (validationError (isValidSchedule (clicks dates)))
       = mkStatus "Listo para programar" false.
Proof.
  intros Hnow Htarget. pose proof (today_range now Hnow) as Hd.
  set (today := now / MS_PER_DAY) in *.
  set (offsets := take (Z.to_nat target) (freeOffsets today)).
  assert (forall i, In i offsets ->
            (1 <= i <= 21)%nat /\ Z.of_nat i mod 2 = 1
            /\ (today + Z.of_nat i + 4) mod 7 <> 1) as Hoff.
  { intros i Hi. apply (freeOffsets_spec today). now apply In_take in Hi. }
  assert (List.NoDup offsets) as Hnd
    by apply NoDup_take_list, freeOffsets_NoDup.
  assert (length offsets = Z.to_nat target) as Hlen.
  { unfold offsets. rewrite length_take. pose proof (free_enough today). lia. }
  set (date := fun i : nat => isoDate (today + Z.of_nat i)).
  assert (forall i, In i offsets ->
            timestampOf (date i) = Some ((today + Z.of_nat i) * MS_PER_DAY))
    as Htime.
  { intros i Hi. apply isoDate_time. destruct (Hoff i Hi) as [Hr _]. lia. }
  assert (forall i, In i offsets ->
            timeValue (date i) = (today + Z.of_nat i) * MS_PER_DAY) as Hvalue.
  { intros i Hi. unfold timeValue. now rewrite (Htime i Hi). }
  exists (proposal now target).
  change (proposal now target) with (map date offsets).
  assert (List.NoDup (map date offsets)) as Hdates.
  { apply NoDup_ListNoDup, NoDup_fmap_2_strong; [|now apply NoDup_ListNoDup].
    intros i j Hi Hj Heq. apply list_elem_of_In in Hi, Hj.
    pose proof (Hvalue i Hi) as Vi. pose proof (Hvalue j Hj) as Vj.
    rewrite Heq in Vi. rewrite Vi in Vj.
    assert (Z.of_nat i = Z.of_nat j) by (unfold MS_PER_DAY in Vj; lia). lia. }
  assert (clicks (map date offsets) = map date offsets) as Hclicks.
  { unfold clicks. now rewrite clicks_build. }
  rewrite Hclicks.
  assert (Forall isCalendarDate (map date offsets)) as Hcal.
  { apply List.Forall_forall. intros d Hin.
    apply in_map_iff in Hin as (i & <- & Hi).
    unfold isCalendarDate. rewrite (Htime i Hi). discriminate. }
  assert (isValidSchedule (map date offsets) = mkCheck true None) as Hok.
  { apply accepted_check. apply (accepts_iff _ Hcal). split; [|split].
    - destruct offsets; [simpl in Hlen; lia | discriminate].
    - intros Hm. apply List.Exists_exists in Hm as (d & Hin & Hmon).
      apply in_map_iff in Hin as (i & <- & Hi).
      unfold fallsOnMonday in Hmon. rewrite (Hvalue i Hi) in Hmon.
      rewrite Z.div_mul in Hmon by discriminate.
      now apply (Hoff i Hi).
    - intros (a & b & Ha & Hb & Hdiff).
      apply in_map_iff in Ha as (i & <- & Hi).
      apply in_map_iff in Hb as (j & <- & Hj).
      rewrite (Hvalue i Hi), (Hvalue j Hj) in Hdiff.
      destruct (Hoff i Hi) as (_ & Hoi & _). destruct (Hoff j Hj) as (_ & Hoj & _).
      assert (Z.of_nat j - Z.of_nat i = 1) by (unfold MS_PER_DAY in Hdiff; lia).
      pose proof (Z.div_mod (Z.of_nat i) 2 ltac:(lia)).
      pose proof (Z.div_mod (Z.of_nat j) 2 ltac:(lia)). lia. }
  split; [|split; [reflexivity|split; [assumption|]]].
  - apply List.Forall_forall. intros d Hin.
    apply in_map_iff in Hin as (i & <- & Hi).
    unfold nextDays. apply in_map_iff. exists i. split.
    + unfold date, today. now rewrite day_of.
    + apply in_seq. destruct (Hoff i Hi) as [Hr _]. lia.
  - rewrite Hok, length_map, Hlen. unfold validationError, getScheduleStatus.
    cbn [ok truthy]. rewrite Z2Nat.id by lia. now rewrite Z.eqb_refl.
Qed.

Lemma a_schedule_can_be_completed_witness :
  exists dates,
    Forall (fun d => In d (nextDays 1718000000000)) dates
    /\ clicks dates = dates
    /\ isValidSchedule (clicks dates) = mkCheck true None
    /\ getScheduleStatus (Z.of_nat (length (clicks dates))) 6
         (validationError (isValidSchedule (clicks dates)))
       = mkStatus "Listo para programar" false.
Proof.
  apply a_schedule_can_be_completed; [|lia].
  vm_compute. split; [discriminate | reflexivity].
Defined.
